(** * A shallow embedding of [mm.c]: segregated-fit allocator with
      boundary tags, explicit free lists and in-place reallocation.

    The C program is compiled for a 32-bit target ([size_t], [unsigned int]
    and pointers are 4 bytes wide; header words are read with
    [*(size_t * )p] and written with [*(unsigned int * )p]).  Integers are
    modelled by [Z] with the wrap-around written out, the heap by a
    byte-addressed memory, and every C function by a function in a state
    and error monad. *)

From Stdlib Require Import ZArith Lia List Bool.
Import ListNotations.
Open Scope Z_scope.

(** ** Machine integers *)
Definition wrap32 (x : Z) : Z := x mod 2 ^ 32.

(** Conversion of a 32-bit pattern to [int]. *)
Definition to_int (x : Z) : Z :=
  let w := wrap32 x in if w <? 2 ^ 31 then w else w - 2 ^ 32.

(** ** Byte-addressed memory, little-endian words *)
Definition memory := Z -> Z.

Definition load8 (m : memory) (a : Z) : Z := m a mod 256.

Definition load32 (m : memory) (a : Z) : Z :=
  load8 m a + 2 ^ 8 * load8 m (a + 1) + 2 ^ 16 * load8 m (a + 2)
  + 2 ^ 24 * load8 m (a + 3).

Definition store32 (m : memory) (a v : Z) : memory :=
  fun x =>
    if (a <=? x) && (x <? a + 4)
    then (wrap32 v / 2 ^ (8 * (x - a))) mod 256
    else m x.

(** The memory after a copy of [n] bytes from [src] to [dst]: the
    destination receives the bytes the source held before the call. *)
Definition copy_bytes (m : memory) (dst src n : Z) : memory :=
  fun x => if (dst <=? x) && (x <? dst + n) then m (src + (x - dst)) else m x.

(** ** Allocator state

    [mem_heap], [mem_brk] and [mem_max_addr] are the three variables of the
    heap provider (lowest heap byte, current break, end of the arena);
    [segregated_free_lists] is the global array of list heads, indexed
    by [0 .. LISTLIMIT-1]. *)
Record state : Type := mkState {
  mem : memory;
  mem_heap : Z;
  mem_brk : Z;
  mem_max_addr : Z;
  segregated_free_lists : Z -> Z
}.

(** ** The monad: state, memory faults, and running out of fuel *)
Inductive outcome (A : Type) : Type :=
| Ok (a : A) (s : state)
| Fault
| Timeout.
Arguments Ok {A} a s.
Arguments Fault {A}.
Arguments Timeout {A}.

Definition M (A : Type) : Type := state -> outcome A.

Definition ret {A} (a : A) : M A := fun s => Ok a s.

Definition bind {A B} (c : M A) (k : A -> M B) : M B :=
  fun s => match c s with
           | Ok a s' => k a s'
           | Fault => Fault
           | Timeout => Timeout
           end.

Notation "x <- c ;; k" := (bind c (fun x => k))
  (at level 61, c at next level, right associativity).
Notation "c ;;; k" := (bind c (fun _ => k))
  (at level 61, right associativity).

Definition fault {A} : M A := fun _ => Fault.
Definition timeout {A} : M A := fun _ => Timeout.

(** An access of [n] bytes at [a] is defined when it lies inside the heap
    [[mem_heap, mem_brk)]; anything else (the null page included) is a
    fault. *)
Definition valid (s : state) (a n : Z) : bool :=
  (mem_heap s <=? a) && (a + n <=? mem_brk s).

Definition set_mem (s : state) (m : memory) : state :=
  mkState m (mem_heap s) (mem_brk s) (mem_max_addr s) (segregated_free_lists s).

Definition set_brk (s : state) (b : Z) : state :=
  mkState (mem s) (mem_heap s) b (mem_max_addr s) (segregated_free_lists s).

Definition set_lists (s : state) (l : Z -> Z) : state :=
  mkState (mem s) (mem_heap s) (mem_brk s) (mem_max_addr s) l.

Definition read32 (p : Z) : M Z :=
  fun s => if valid s p 4 then Ok (load32 (mem s) p) s else Fault.

Definition write32 (p v : Z) : M unit :=
  fun s => if valid s p 4
           then Ok tt (set_mem s (store32 (mem s) p v))
           else Fault.

Definition get_list (k : Z) : M Z :=
  fun s => Ok (segregated_free_lists s k) s.

Definition set_list (k v : Z) : M unit :=
  fun s => Ok tt (set_lists s (fun j => if j =? k then v
                                        else segregated_free_lists s j)).

(** [memcpy(dst, src, n)] copies [n] bytes and returns.  Every byte is read
    as it is before the call, wherever the source range lies: the call in
    [mm_realloc] reads [size] bytes from the old payload, and these can run
    past the old block, past the break, or into the destination.  Only the
    write is checked: a destination outside the heap, such as the null
    pointer, is a fault.  A call with [n = 0] touches no byte. *)
Definition memcpy (dst src n : Z) : M unit :=
  fun s => if n =? 0 then Ok tt s
           else if valid s dst n
                then Ok tt (set_mem s (copy_bytes (mem s) dst src n))
                else Fault.

(** Modelled from the spec: the heap-extend primitive [mem_sbrk] is not part
    of [mm.c].  It returns the start of [incr] newly added bytes at the top
    of the heap, or fails (returning [(void * )-1]) and leaves the heap
    unchanged.  The arena ends at [mem_max_addr]; the argument is an
    [int]. *)
Definition SBRK_FAIL : Z := wrap32 (-1).

Definition mem_sbrk (incr : Z) : M Z :=
  fun s =>
    let i := to_int incr in
    if (i <? 0) || (mem_max_addr s <? mem_brk s + i)
    then Ok SBRK_FAIL s
    else Ok (mem_brk s) (set_brk s (mem_brk s + i)).

(** ** Constants and inline helpers of [mm.c] *)
Definition NULL : Z := 0.
Definition ALIGNMENT : Z := 8.
Definition WSIZE : Z := 4.
Definition DSIZE : Z := 8.
Definition INITCHUNKSIZE : Z := Z.shiftl 1 6.
Definition CHUNKSIZE : Z := Z.shiftl 1 12.
Definition LISTLIMIT : Z := 20.
Definition REALLOC_BUFFER : Z := Z.shiftl 1 7.

Definition ALIGN (size : Z) : Z :=
  Z.land (wrap32 (size + (ALIGNMENT - 1))) (Z.lnot 7).

Definition MAX (x y : Z) : Z := if x >? y then x else y.
Definition MIN (x y : Z) : Z := if x <? y then x else y.

Definition PACK (size alloc : Z) : Z := Z.lor size (Z.land alloc 1).

Definition GET (p : Z) : M Z := read32 p.

Definition PUT_NOTAG (p val : Z) : M unit := write32 p val.

(** Both tag "adjusters" only compute a value; neither stores it. *)
Definition REMOVE_RATAG (p : Z) : M Z := w <- GET p ;; ret (Z.land w 2).
Definition SET_RATAG (p : Z) : M Z := w <- GET p ;; ret (Z.lor w 2).

Definition GET_SIZE (p : Z) : M Z := w <- GET p ;; ret (Z.land w (Z.lnot 7)).
Definition GET_ALLOC (p : Z) : M Z := w <- GET p ;; ret (Z.land w 1).
Definition GET_TAG (p : Z) : M Z := w <- GET p ;; ret (Z.land w 2).

Definition PUT (p val : Z) : M unit :=
  t <- GET_TAG p ;; write32 p (Z.lor val t).

Definition SET_PTR (p ptr : Z) : M unit := write32 p ptr.

Definition HDRP (bp : Z) : Z := bp - WSIZE.

Definition FTRP (bp : Z) : M Z :=
  sz <- GET_SIZE (HDRP bp) ;; ret (bp + sz - DSIZE).

Definition NEXT_BLKP (ptr : Z) : M Z :=
  sz <- GET_SIZE (ptr - WSIZE) ;; ret (ptr + sz).

Definition PREV_BLKP (ptr : Z) : M Z :=
  sz <- GET_SIZE (ptr - DSIZE) ;; ret (ptr - sz).

Definition PRED_PTR (ptr : Z) : Z := ptr.
Definition SUCC_PTR (ptr : Z) : Z := ptr + WSIZE.

Definition PRED (ptr : Z) : M Z := read32 ptr.
Definition SUCC (ptr : Z) : M Z := read32 (SUCC_PTR ptr).

(** ** Size-class selection

    [while ((list < LISTLIMIT - 1) && (size > 1)) { size >>= 1; list++; }]
    The counter starts at 0, so 19 iterations always suffice.  Both the
    index and the shifted size are returned: [insert_node] goes on using
    the shifted [size]. *)
Fixpoint select_list (n : nat) (list size : Z) : Z * Z :=
  match n with
  | O => (list, size)
  | S n' =>
      if (list <? LISTLIMIT - 1) && (size >? 1)
      then select_list n' (list + 1) (Z.shiftr size 1)
      else (list, size)
  end.

(** ** insert_node *)
(** [while ((search_ptr != NULL) && (size > GET_SIZE(HDRP(search_ptr))))] *)
Fixpoint insert_walk (fuel : nat) (size search_ptr insert_ptr : Z)
  : M (Z * Z) :=
  match fuel with
  | O => timeout
  | S fuel' =>
      if search_ptr =? NULL then ret (search_ptr, insert_ptr)
      else
        sz <- GET_SIZE (HDRP search_ptr) ;;
        if size >? sz
        then p <- PRED search_ptr ;; insert_walk fuel' size p search_ptr
        else ret (search_ptr, insert_ptr)
  end.

Definition insert_node (fuel : nat) (ptr size : Z) : M unit :=
  let '(list, size) := select_list 19 0 size in
  head <- get_list list ;;
  r <- insert_walk fuel size head NULL ;;
  let '(search_ptr, insert_ptr) := r in
  if negb (search_ptr =? NULL) then
    if negb (insert_ptr =? NULL) then
      SET_PTR (PRED_PTR ptr) search_ptr ;;;
      SET_PTR (SUCC_PTR search_ptr) ptr ;;;
      SET_PTR (SUCC_PTR ptr) insert_ptr ;;;
      SET_PTR (PRED_PTR insert_ptr) ptr
    else
      SET_PTR (PRED_PTR ptr) search_ptr ;;;
      SET_PTR (SUCC_PTR search_ptr) ptr ;;;
      SET_PTR (SUCC_PTR ptr) NULL ;;;
      set_list list ptr
  else
    if negb (insert_ptr =? NULL) then
      SET_PTR (PRED_PTR ptr) NULL ;;;
      SET_PTR (SUCC_PTR ptr) insert_ptr ;;;
      SET_PTR (PRED_PTR insert_ptr) ptr
    else
      SET_PTR (PRED_PTR ptr) NULL ;;;
      SET_PTR (SUCC_PTR ptr) NULL ;;;
      set_list list ptr.

(** ** delete_node *)
Definition delete_node (ptr : Z) : M unit :=
  size <- GET_SIZE (HDRP ptr) ;;
  let list := fst (select_list 19 0 size) in
  p <- PRED ptr ;;
  if negb (p =? NULL) then
    s <- SUCC ptr ;;
    if negb (s =? NULL) then
      p1 <- PRED ptr ;; s1 <- SUCC ptr ;;
      SET_PTR (SUCC_PTR p1) s1 ;;;
      s2 <- SUCC ptr ;; p2 <- PRED ptr ;;
      SET_PTR (PRED_PTR s2) p2
    else
      p1 <- PRED ptr ;;
      SET_PTR (SUCC_PTR p1) NULL ;;;
      p2 <- PRED ptr ;;
      set_list list p2
  else
    s <- SUCC ptr ;;
    if negb (s =? NULL) then
      s1 <- SUCC ptr ;;
      SET_PTR (PRED_PTR s1) NULL
    else
      set_list list NULL.

(** ** coalesce *)
Definition coalesce (fuel : nat) (ptr : Z) : M Z :=
  pb <- PREV_BLKP ptr ;;
  prev_alloc <- GET_ALLOC (HDRP pb) ;;
  nb <- NEXT_BLKP ptr ;;
  next_alloc <- GET_ALLOC (HDRP nb) ;;
  size <- GET_SIZE (HDRP ptr) ;;
  pb' <- PREV_BLKP ptr ;;
  tag <- GET_TAG (HDRP pb') ;;
  let prev_alloc := if negb (tag =? 0) then 1 else prev_alloc in
  if negb (prev_alloc =? 0) && negb (next_alloc =? 0) then
    ret ptr
  else if negb (prev_alloc =? 0) && (next_alloc =? 0) then
    delete_node ptr ;;;
    n1 <- NEXT_BLKP ptr ;;
    delete_node n1 ;;;
    n2 <- NEXT_BLKP ptr ;;
    nsz <- GET_SIZE (HDRP n2) ;;
    let size := wrap32 (size + nsz) in
    PUT (HDRP ptr) (PACK size 0) ;;;
    f <- FTRP ptr ;;
    PUT f (PACK size 0) ;;;
    insert_node fuel ptr size ;;;
    ret ptr
  else if (prev_alloc =? 0) && negb (next_alloc =? 0) then
    delete_node ptr ;;;
    p1 <- PREV_BLKP ptr ;;
    delete_node p1 ;;;
    p2 <- PREV_BLKP ptr ;;
    psz <- GET_SIZE (HDRP p2) ;;
    let size := wrap32 (size + psz) in
    f <- FTRP ptr ;;
    PUT f (PACK size 0) ;;;
    p3 <- PREV_BLKP ptr ;;
    PUT (HDRP p3) (PACK size 0) ;;;
    p4 <- PREV_BLKP ptr ;;
    insert_node fuel p4 size ;;;
    ret p4
  else
    delete_node ptr ;;;
    p1 <- PREV_BLKP ptr ;;
    delete_node p1 ;;;
    n1 <- NEXT_BLKP ptr ;;
    delete_node n1 ;;;
    p2 <- PREV_BLKP ptr ;;
    psz <- GET_SIZE (HDRP p2) ;;
    n2 <- NEXT_BLKP ptr ;;
    nsz <- GET_SIZE (HDRP n2) ;;
    let size := wrap32 (size + wrap32 (psz + nsz)) in
    p3 <- PREV_BLKP ptr ;;
    PUT (HDRP p3) (PACK size 0) ;;;
    n3 <- NEXT_BLKP ptr ;;
    f <- FTRP n3 ;;
    PUT f (PACK size 0) ;;;
    p4 <- PREV_BLKP ptr ;;
    insert_node fuel p4 size ;;;
    ret p4.

(** ** extend_heap *)
Definition extend_heap (fuel : nat) (size : Z) : M Z :=
  let asize := ALIGN size in
  ptr <- mem_sbrk asize ;;
  if ptr =? SBRK_FAIL then ret NULL
  else
    PUT_NOTAG (HDRP ptr) (PACK asize 0) ;;;
    f <- FTRP ptr ;;
    PUT_NOTAG f (PACK asize 0) ;;;
    n <- NEXT_BLKP ptr ;;
    PUT_NOTAG (HDRP n) (PACK 0 1) ;;;
    insert_node fuel ptr asize ;;;
    coalesce fuel ptr.

(** ** place *)
Definition place (fuel : nat) (ptr asize : Z) : M Z :=
  ptr_size <- GET_SIZE (HDRP ptr) ;;
  let remainder := wrap32 (ptr_size - asize) in
  delete_node ptr ;;;
  if remainder <=? DSIZE * 2 then
    PUT (HDRP ptr) (PACK ptr_size 1) ;;;
    f <- FTRP ptr ;;
    PUT f (PACK ptr_size 1) ;;;
    ret ptr
  else if asize >=? 100 then
    PUT (HDRP ptr) (PACK remainder 0) ;;;
    f <- FTRP ptr ;;
    PUT f (PACK remainder 0) ;;;
    n1 <- NEXT_BLKP ptr ;;
    PUT_NOTAG (HDRP n1) (PACK asize 1) ;;;
    n2 <- NEXT_BLKP ptr ;;
    f2 <- FTRP n2 ;;
    PUT_NOTAG f2 (PACK asize 1) ;;;
    insert_node fuel ptr remainder ;;;
    NEXT_BLKP ptr
  else
    PUT (HDRP ptr) (PACK asize 1) ;;;
    f <- FTRP ptr ;;
    PUT f (PACK asize 1) ;;;
    n1 <- NEXT_BLKP ptr ;;
    PUT_NOTAG (HDRP n1) (PACK remainder 0) ;;;
    n2 <- NEXT_BLKP ptr ;;
    f2 <- FTRP n2 ;;
    PUT_NOTAG f2 (PACK remainder 0) ;;;
    n3 <- NEXT_BLKP ptr ;;
    insert_node fuel n3 remainder ;;;
    ret ptr.

(** ** mm_init *)
Definition clear_lists : M unit :=
  fun s => Ok tt (set_lists s (fun j => if (0 <=? j) && (j <? LISTLIMIT)
                                        then NULL
                                        else segregated_free_lists s j)).

Definition mm_init (fuel : nat) : M Z :=
  clear_lists ;;;
  heap_start <- mem_sbrk (4 * WSIZE) ;;
  if to_int heap_start =? -1 then ret (-1)
  else
    PUT_NOTAG heap_start 0 ;;;
    PUT_NOTAG (heap_start + 1 * WSIZE) (PACK DSIZE 1) ;;;
    PUT_NOTAG (heap_start + 2 * WSIZE) (PACK DSIZE 1) ;;;
    PUT_NOTAG (heap_start + 3 * WSIZE) (PACK 0 1) ;;;
    r <- extend_heap fuel INITCHUNKSIZE ;;
    if r =? NULL then ret (-1) else ret 0.

(** ** mm_malloc *)
(** [while ((ptr != NULL) && ((asize > GET_SIZE(HDRP(ptr))) ||
            (GET_TAG(HDRP(ptr))))) ptr = PRED(ptr);] *)
Fixpoint fit_walk (fuel : nat) (asize ptr : Z) : M Z :=
  match fuel with
  | O => timeout
  | S fuel' =>
      if ptr =? NULL then ret ptr
      else
        sz <- GET_SIZE (HDRP ptr) ;;
        if asize >? sz
        then p <- PRED ptr ;; fit_walk fuel' asize p
        else
          t <- GET_TAG (HDRP ptr) ;;
          if negb (t =? 0)
          then p <- PRED ptr ;; fit_walk fuel' asize p
          else ret ptr
  end.

(** [while (list < LISTLIMIT) { ... searchsize >>= 1; list++; }]; [n]
    counts the lists still to visit, [ptr] is the variable of the same
    name. *)
Fixpoint find_fit (n : nat) (fuel : nat) (asize searchsize list ptr : Z)
  : M Z :=
  match n with
  | O => ret ptr
  | S n' =>
      head <- get_list list ;;
      if (list =? LISTLIMIT - 1) || ((searchsize <=? 1) && negb (head =? NULL))
      then
        p <- fit_walk fuel asize head ;;
        if negb (p =? NULL) then ret p
        else find_fit n' fuel asize (Z.shiftr searchsize 1) (list + 1) p
      else find_fit n' fuel asize (Z.shiftr searchsize 1) (list + 1) ptr
  end.

Definition adjust_size (size : Z) : Z :=
  if size <=? DSIZE then 2 * DSIZE else ALIGN (wrap32 (size + DSIZE)).

Definition mm_malloc (fuel : nat) (size : Z) : M Z :=
  if size =? 0 then ret NULL
  else
    let asize := adjust_size size in
    ptr <- find_fit 20 fuel asize asize 0 NULL ;;
    if ptr =? NULL then
      let extendsize := wrap32 (MAX (to_int asize) (to_int CHUNKSIZE)) in
      e <- extend_heap fuel extendsize ;;
      if e =? NULL then ret NULL
      else place fuel e asize
    else place fuel ptr asize.

(** ** mm_free *)
Definition mm_free (fuel : nat) (ptr : Z) : M unit :=
  size <- GET_SIZE (HDRP ptr) ;;
  n <- NEXT_BLKP ptr ;;
  REMOVE_RATAG (HDRP n) ;;;
  PUT (HDRP ptr) (PACK size 0) ;;;
  f <- FTRP ptr ;;
  PUT f (PACK size 0) ;;;
  insert_node fuel ptr size ;;;
  coalesce fuel ptr ;;;
  ret tt.

(** ** mm_realloc *)
Definition mm_realloc (fuel : nat) (ptr size : Z) : M Z :=
  if size =? 0 then ret NULL
  else
    let new_size := wrap32 (adjust_size size + REALLOC_BUFFER) in
    psz <- GET_SIZE (HDRP ptr) ;;
    let block_buffer := to_int (psz - new_size) in
    r <- (if block_buffer <? 0 then
            n <- NEXT_BLKP ptr ;;
            na <- GET_ALLOC (HDRP n) ;;
            annex <- (if na =? 0 then ret true
                      else nsz0 <- GET_SIZE (HDRP n) ;; ret (nsz0 =? 0)) ;;
            if (annex : bool) then
              psz1 <- GET_SIZE (HDRP ptr) ;;
              n1 <- NEXT_BLKP ptr ;;
              nsz1 <- GET_SIZE (HDRP n1) ;;
              let remainder := to_int (wrap32 (psz1 + nsz1) - new_size) in
              g <- (if remainder <? 0 then
                      let extendsize := to_int (MAX (to_int (- remainder))
                                                    (to_int CHUNKSIZE)) in
                      e <- extend_heap fuel (wrap32 extendsize) ;;
                      if e =? NULL then ret None
                      else ret (Some (to_int (remainder + extendsize)))
                    else ret (Some remainder)) ;;
              match g with
              | None => ret None
              | Some remainder =>
                  n2 <- NEXT_BLKP ptr ;;
                  delete_node n2 ;;;
                  PUT_NOTAG (HDRP ptr) (PACK (wrap32 (new_size + remainder)) 1) ;;;
                  f <- FTRP ptr ;;
                  PUT_NOTAG f (PACK (wrap32 (new_size + remainder)) 1) ;;;
                  sz <- GET_SIZE (HDRP ptr) ;;
                  ret (Some (ptr, to_int (sz - new_size)))
              end
            else
              new_ptr <- mm_malloc fuel (wrap32 (new_size - DSIZE)) ;;
              memcpy new_ptr ptr (wrap32 (MIN (to_int size) (to_int new_size))) ;;;
              mm_free fuel ptr ;;;
              sz <- GET_SIZE (HDRP new_ptr) ;;
              ret (Some (new_ptr, to_int (sz - new_size)))
          else ret (Some (ptr, block_buffer))) ;;
    match r with
    | None => ret NULL
    | Some (new_ptr, block_buffer) =>
        (if block_buffer <? 2 * REALLOC_BUFFER
         then n <- NEXT_BLKP new_ptr ;; SET_RATAG (HDRP n) ;;; ret tt
         else ret tt) ;;;
        ret new_ptr
    end.

(** ** Weakest preconditions for the monad *)
Definition wp {A} (c : M A) (Q : A -> state -> Prop) (s : state) : Prop :=
  match c s with
  | Ok a s' => Q a s'
  | Fault => False
  | Timeout => False
  end.

(** Correctness up to faults: the run ends (it does not exhaust its fuel),
    and where it faults, [F] holds. *)
Definition wlp {A} (F : Prop) (c : M A) (Q : A -> state -> Prop) (s : state)
  : Prop :=
  match c s with
  | Ok a s' => Q a s'
  | Fault => F
  | Timeout => False
  end.

(** ** The abstract heap

    A block is its payload address, its size and its status: allocated,
    free and linked into its segregated list, or free but (momentarily)
    not linked. *)
Inductive status : Type := Alloc | Free | Unlinked.

Definition block : Type := (Z * Z * status)%type.

Definition abit (st : status) : Z :=
  match st with Alloc => 1 | _ => 0 end.

Definition status_eqb (a b : status) : bool :=
  match a, b with
  | Alloc, Alloc | Free, Free | Unlinked, Unlinked => true
  | _, _ => false
  end.

(** Blocks tile the addresses from [a] to [e]. *)
Fixpoint contig (a : Z) (bs : list block) (e : Z) : Prop :=
  match bs with
  | [] => a = e
  | (x, sz, _) :: r => x = a /\ contig (a + sz) r e
  end.

(** A footer carries the size and allocation bit of its block; its bit 1
    is whatever the word held before ([PUT] keeps it). *)
Definition footer_ok (w sz a : Z) : Prop := w = sz + a \/ w = sz + a + 2.

Definition tag_ok (m : memory) (b : block) : Prop :=
  let '(x, sz, st) := b in
  16 <= sz /\ sz mod 8 = 0 /\
  load32 m (x - 4) = sz + abit st /\
  footer_ok (load32 m (x + sz - 8)) sz (abit st).

(** The list reached from [p] through the PRED words is [l]; [succ] is
    what the SUCC word of its first element holds. *)
Fixpoint dll (m : memory) (succ p : Z) (l : list Z) : Prop :=
  match l with
  | [] => p = 0
  | x :: r => p = x /\ x <> 0 /\ load32 m (x + 4) = succ /\ dll m x (load32 m x) r
  end.

Definition class (sz : Z) : Z := fst (select_list 19 0 sz).

Record rep (s : state) (bs : list block) (fl : Z -> list Z) : Prop := mkRep {
  rep_lo : 0 < mem_heap s;
  rep_max : mem_brk s <= mem_max_addr s /\ mem_max_addr s < 2 ^ 32
            /\ mem_max_addr s - mem_heap s < 2 ^ 31;
  rep_prologue : load32 (mem s) (mem_heap s + 4) = 9
                 /\ load32 (mem s) (mem_heap s + 8) = 9;
  rep_contig : contig (mem_heap s + 16) bs (mem_brk s);
  rep_epilogue : load32 (mem s) (mem_brk s - 4) = 1;
  rep_tags : Forall (tag_ok (mem s)) bs;
  rep_dll : forall k, 0 <= k < 20 ->
            dll (mem s) 0 (segregated_free_lists s k) (fl k);
  rep_nodup : forall k, 0 <= k < 20 -> NoDup (fl k);
  rep_mem : forall k x, 0 <= k < 20 ->
            (In x (fl k) <-> exists sz, In (x, sz, Free) bs /\ class sz = k)
}.

Definition linked (b : block) : Prop := snd b <> Unlinked.

(** A well-formed heap: some abstract heap without pending blocks
    describes it. *)
Definition wf (s : state) : Prop :=
  exists bs fl, rep s bs fl /\ Forall linked bs.

Definition fl_del (fl : Z -> list Z) (k x : Z) : Z -> list Z :=
  fun j => if j =? k then remove Z.eq_dec x (fl j) else fl j.

Definition fl_ins (fl : Z -> list Z) (k x : Z) : Z -> list Z :=
  fun j => if j =? k then x :: fl j else fl j.

(** Bytes of allocated payloads are the client's: [s'] keeps them. *)
Definition keeps_payloads (bs : list block) (s s' : state) : Prop :=
  forall x sz i, In (x, sz, Alloc) bs -> x <= i < x + sz - 8 ->
                 mem s' i = mem s i.

(** The header words of the blocks of [bs] are the same in [s']. *)
Definition keeps_headers (bs : list block) (s s' : state) : Prop :=
  forall y sy st, In (y, sy, st) bs ->
                  load32 (mem s') (y - 4) = load32 (mem s) (y - 4).

Definition same_heap (s s' : state) : Prop :=
  mem_heap s' = mem_heap s /\ mem_max_addr s' = mem_max_addr s.

Definition enough (fuel : nat) (s : state) : Prop :=
  mem_brk s - mem_heap s <= Z.of_nat fuel.

(** ** What [coalesce] does to the abstract heap *)
Definition prev_is_alloc (l1 : list block) : Prop :=
  forall l1' p psz st, l1 = l1' ++ [(p, psz, st)] -> st = Alloc.

Definition next_is_alloc (l2 : list block) : Prop :=
  forall n nsz st l2', l2 = (n, nsz, st) :: l2' -> st = Alloc.

Inductive coalesce_case (l1 : list block) (x sz : Z) (l2 : list block)
          (fl : Z -> list Z) : Z -> list block -> (Z -> list Z) -> Prop :=
| CC_none :
    prev_is_alloc l1 -> next_is_alloc l2 ->
    coalesce_case l1 x sz l2 fl x (l1 ++ (x, sz, Free) :: l2) fl
| CC_next n nsz l2' :
    prev_is_alloc l1 -> l2 = (n, nsz, Free) :: l2' ->
    coalesce_case l1 x sz l2 fl x
      (l1 ++ (x, sz + nsz, Free) :: l2')
      (fl_ins (fl_del (fl_del fl (class sz) x) (class nsz) n)
              (class (sz + nsz)) x)
| CC_prev l1' p psz :
    l1 = l1' ++ [(p, psz, Free)] -> next_is_alloc l2 ->
    coalesce_case l1 x sz l2 fl p
      (l1' ++ (p, sz + psz, Free) :: l2)
      (fl_ins (fl_del (fl_del fl (class sz) x) (class psz) p)
              (class (sz + psz)) p)
| CC_both l1' p psz n nsz l2' :
    l1 = l1' ++ [(p, psz, Free)] -> l2 = (n, nsz, Free) :: l2' ->
    coalesce_case l1 x sz l2 fl p
      (l1' ++ (p, sz + (psz + nsz), Free) :: l2')
      (fl_ins (fl_del (fl_del (fl_del fl (class sz) x) (class psz) p)
                      (class nsz) n)
              (class (sz + (psz + nsz))) p).

(** ** What [place] does to the abstract heap *)
Inductive place_case (l1 : list block) (x sz asize : Z) (l2 : list block)
          (fl : Z -> list Z) : Z -> list block -> (Z -> list Z) -> Prop :=
| PC_whole :
    sz - asize <= 16 ->
    place_case l1 x sz asize l2 fl x
      (l1 ++ (x, sz, Alloc) :: l2)
      (fl_del fl (class sz) x)
| PC_upper :
    16 < sz - asize -> 100 <= asize ->
    place_case l1 x sz asize l2 fl (x + (sz - asize))
      (l1 ++ (x, sz - asize, Free) :: (x + (sz - asize), asize, Alloc) :: l2)
      (fl_ins (fl_del fl (class sz) x) (class (sz - asize)) x)
| PC_lower :
    16 < sz - asize -> asize < 100 ->
    place_case l1 x sz asize l2 fl x
      (l1 ++ (x, asize, Alloc) :: (x + asize, sz - asize, Free) :: l2)
      (fl_ins (fl_del fl (class sz) x) (class (sz - asize)) (x + asize)).

(** ** Vocabulary of the proofs *)
(** Every block has at least the minimum size. *)
Definition sized (bs : list block) : Prop :=
  Forall (fun b : block => 16 <= snd (fst b)) bs.

(** [m'] differs from [m] at most on the two link words of the blocks
    whose payload addresses are in [L]. *)
Definition frame (L : list Z) (m m' : memory) : Prop :=
  forall a, (forall z, In z L -> a < z \/ z + 8 <= a) -> m' a = m a.

(** No block of [l] is on a free list. *)
Definition no_free (l : list block) : Prop :=
  forall x sz, ~ In (x, sz, Free) l.

(** ** What the public functions do to the abstract heap *)
(** The free lists after [mm_init]: one block of 64 bytes. *)
Definition init_fl (lo : Z) : Z -> list Z :=
  fl_ins (fun _ => []) (class 64) (lo + 16).

(** [mm_malloc] fails and changes nothing, or returns a block that was not
    allocated before, of at least the adjusted size, and keeps the other
    allocated blocks and their payloads. *)
Definition malloc_post (s : state) (bs : list block) (asize : Z)
           (r : Z) (s' : state) : Prop :=
  (r = 0 /\ s' = s) \/
  (exists bs' fl' rsz,
      rep s' bs' fl' /\ Forall linked bs' /\
      In (r, rsz, Alloc) bs' /\ asize <= rsz /\
      (forall sy, ~ In (r, sy, Alloc) bs) /\
      (forall y sy, In (y, sy, Alloc) bs -> In (y, sy, Alloc) bs') /\
      same_heap s s' /\ mem_brk s <= mem_brk s' /\
      keeps_payloads bs s s').

(** [mm_free p] turns [p]'s block into a free block, coalesced with its
    free neighbours; the other allocated blocks and their payloads stay. *)
Definition free_post (s : state) (l1 : list block) (p sz : Z) (l2 : list block)
           (fl : Z -> list Z) (s' : state) : Prop :=
  exists r bs' fl',
    coalesce_case l1 p sz l2 (fl_ins fl (class sz) p) r bs' fl' /\
    rep s' bs' fl' /\ Forall linked bs' /\
    same_heap s s' /\ mem_brk s' = mem_brk s /\
    (forall y sy i, In (y, sy, Alloc) (l1 ++ l2) -> y <= i < y + sy - 8 ->
                    mem s' i = mem s i) /\
    (forall y sy, In (y, sy, Alloc) bs' <-> In (y, sy, Alloc) (l1 ++ l2)) /\
    Z.land (load32 (mem s') (p + sz - 4)) 2 = 0.

(** The in-place growth of [mm_realloc]: it fails and changes nothing, or
    [p]'s header holds a size [T >= new_size] and the payload of [p] is
    kept.  The heap stays well formed when the free successor is large
    enough or is the last block. *)
Definition grow_post (s : state) (l1 : list block) (p psz : Z)
           (l2 : list block) (new_size : Z)
           (r : option (Z * Z)) (s' : state) : Prop :=
  (r = None /\ s' = s) \/
  (exists T,
      r = Some (p, to_int (T - new_size)) /\ new_size <= T /\ T mod 8 = 0 /\
      same_heap s s' /\ mem_brk s <= mem_brk s' /\ p + T <= mem_brk s' /\
      load32 (mem s') (p - 4) = T + 1 /\
      (forall i, p <= i < p + psz - 8 -> mem s' i = mem s i) /\
      ((l2 = [] \/ (exists n nsz, l2 = [(n, nsz, Free)]) \/
        (exists n nsz l2', l2 = (n, nsz, Free) :: l2' /\ new_size <= psz + nsz)) ->
       exists fl' l2'',
         rep s' (l1 ++ (p, T, Alloc) :: l2'') fl' /\
         Forall linked (l1 ++ (p, T, Alloc) :: l2'') /\
         keeps_payloads (l1 ++ l2) s s' /\
         (forall y sy, In (y, sy, Alloc) l2'' <-> In (y, sy, Alloc) l2))).

(** The relocation in [mm_realloc]: a new block [q] holds the first bytes
    of [p]'s payload and [p]'s block is free. *)
Definition reloc_post (s : state) (bs : list block) (p psz size new_size : Z)
           (r : option (Z * Z)) (s' : state) : Prop :=
  exists q T bs' fl',
    r = Some (q, to_int (T - new_size)) /\
    rep s' bs' fl' /\ Forall linked bs' /\
    In (q, T, Alloc) bs' /\ new_size <= T /\ q <> p /\
    (forall i, 0 <= i < size -> i < psz - 8 -> mem s' (q + i) = mem s (p + i)) /\
    same_heap s s' /\ mem_brk s <= mem_brk s' /\
    (forall y sy i, In (y, sy, Alloc) bs -> y <> p -> y <= i < y + sy - 8 ->
                    mem s' i = mem s i).

(** The cases of [mm_realloc] that keep the heap well formed: all but the
    growth in place across a free successor that is neither large enough
    nor the last block. *)
Definition realloc_safe (psz : Z) (l2 : list block) (new_size : Z) : Prop :=
  new_size <= psz \/ l2 = [] \/
  (exists n nsz, l2 = [(n, nsz, Free)]) \/
  (exists n nsz l2', l2 = (n, nsz, Free) :: l2' /\ new_size <= psz + nsz) \/
  (exists n nsz l2', l2 = (n, nsz, Alloc) :: l2').

(** [mm_realloc]: a null result leaves the state as it is; otherwise the
    first bytes of the payload are those of [p], and in the safe cases
    the heap is well formed with the result allocated. *)
Definition realloc_post (s : state) (l1 : list block) (p psz : Z)
           (l2 : list block) (size : Z) (r : Z) (s' : state) : Prop :=
  (r = 0 -> s' = s) /\
  (r <> 0 ->
   same_heap s s' /\ mem_brk s <= mem_brk s' /\
   (forall i, 0 <= i < size -> i < psz - 8 -> mem s' (r + i) = mem s (p + i)) /\
   (realloc_safe psz l2 (adjust_size size + 128) ->
    exists bs' fl' T,
      rep s' bs' fl' /\ Forall linked bs' /\ In (r, T, Alloc) bs' /\
      adjust_size size + 128 <= T /\
      (forall y sy i, In (y, sy, Alloc) (l1 ++ l2) -> y <= i < y + sy - 8 ->
                      mem s' i = mem s i))).

Ltac sts := cbn [set_mem set_brk set_lists mem mem_heap mem_brk mem_max_addr
                 segregated_free_lists] in *.

Ltac inapp :=
  rewrite ?in_app_iff in *; cbn [In] in *;
  intuition (try discriminate; try congruence).

(** ** A decision procedure for the representation invariant *)
Fixpoint contigb (a : Z) (bs : list block) (e : Z) : bool :=
  match bs with
  | [] => a =? e
  | (x, sz, _) :: r => (x =? a) && contigb (a + sz) r e
  end.

Definition footer_okb (w sz a : Z) : bool := (w =? sz + a) || (w =? sz + a + 2).

Definition tag_okb (m : memory) (b : block) : bool :=
  let '(x, sz, st) := b in
  (16 <=? sz) && (sz mod 8 =? 0) && (load32 m (x - 4) =? sz + abit st)
  && footer_okb (load32 m (x + sz - 8)) sz (abit st).

Fixpoint dllb (m : memory) (succ p : Z) (l : list Z) : bool :=
  match l with
  | [] => p =? 0
  | x :: r => (p =? x) && negb (x =? 0) && (load32 m (x + 4) =? succ)
              && dllb m x (load32 m x) r
  end.

Fixpoint nodupb (l : list Z) : bool :=
  match l with
  | [] => true
  | x :: r => negb (existsb (Z.eqb x) r) && nodupb r
  end.

Definition classes : list Z := map Z.of_nat (seq 0 20).

Definition listed_free (bs : list block) (k x : Z) : bool :=
  existsb (fun b : block =>
             let '(y, sz, st) := b in
             (y =? x) && status_eqb st Free && (class sz =? k)) bs.

Definition free_listed (fl : Z -> list Z) (b : block) : bool :=
  let '(y, sz, st) := b in
  if status_eqb st Free then existsb (Z.eqb y) (fl (class sz)) else true.

Definition rep_check (s : state) (bs : list block) (fl : Z -> list Z) : bool :=
  (0 <? mem_heap s) && (mem_brk s <=? mem_max_addr s)
  && (mem_max_addr s <? 2 ^ 32) && (mem_max_addr s - mem_heap s <? 2 ^ 31)
  && (load32 (mem s) (mem_heap s + 4) =? 9)
  && (load32 (mem s) (mem_heap s + 8) =? 9)
  && contigb (mem_heap s + 16) bs (mem_brk s)
  && (load32 (mem s) (mem_brk s - 4) =? 1)
  && forallb (tag_okb (mem s)) bs
  && forallb (fun k => dllb (mem s) 0 (segregated_free_lists s k) (fl k)
                       && nodupb (fl k)
                       && forallb (listed_free bs k) (fl k)) classes
  && forallb (free_listed fl) bs.

Definition linkedb (b : block) : bool := negb (status_eqb (snd b) Unlinked).

(** The free lists given class by class. *)
Definition lists_of (ls : list (list Z)) : Z -> list Z :=
  fun k => nth (Z.to_nat k) ls [].

(** ** The header words of the heap

    The heap read as the allocator reads it: the prologue header is the
    second word, and the header after a header holding size [n <> 0] is
    [n] bytes further. *)
Inductive is_header (s : state) : Z -> Prop :=
| hdr_first : is_header s (mem_heap s + 4)
| hdr_next h :
    is_header s h ->
    Z.land (load32 (mem s) h) (Z.lnot 7) <> 0 ->
    is_header s (h + Z.land (load32 (mem s) h) (Z.lnot 7)).

Definition ra_clear (s : state) : Prop :=
  forall h, is_header s h -> Z.land (load32 (mem s) h) 2 = 0.

(** ** Sequences of public operations *)
Inductive op : Type :=
| Malloc (size : Z)
| Release (p : Z)
| Realloc (p size : Z).

Definition exec (fuel : nat) (o : op) : M Z :=
  match o with
  | Malloc n => mm_malloc fuel n
  | Release p => mm_free fuel p ;;; ret 0
  | Realloc p n => mm_realloc fuel p n
  end.

(** What the client owes the allocator: sizes that fit the 32-bit
    arithmetic, and payloads that are allocated blocks of the heap.  For
    [Realloc] the growth in place across a free successor that is neither
    large enough nor the last block is left out ([realloc_safe]). *)
Definition legal (s : state) (o : op) : Prop :=
  match o with
  | Malloc n => 0 <= n <= 2 ^ 31 - 24
  | Release p =>
      exists l1 sz l2 fl,
        rep s (l1 ++ (p, sz, Alloc) :: l2) fl /\
        Forall linked (l1 ++ (p, sz, Alloc) :: l2)
  | Realloc p n =>
      0 <= n <= 2 ^ 31 - 160 /\
      exists l1 psz l2 fl,
        rep s (l1 ++ (p, psz, Alloc) :: l2) fl /\
        Forall linked (l1 ++ (p, psz, Alloc) :: l2) /\
        realloc_safe psz l2 (adjust_size n + 128)
  end.

(** An arena on which nothing has been laid out yet. *)
Definition fresh (s : state) : Prop :=
  mem_brk s = mem_heap s /\ 0 < mem_heap s /\
  mem_max_addr s < 2 ^ 32 /\ mem_max_addr s - mem_heap s < 2 ^ 31.

Inductive reach (s0 : state) : state -> Prop :=
| reach_init fuel s :
    fresh s0 -> (1 <= fuel)%nat -> mm_init fuel s0 = Ok 0 s -> reach s0 s
| reach_step fuel o r s s' :
    reach s0 s -> legal s o -> enough fuel s -> exec fuel o s = Ok r s' ->
    reach s0 s'.

(** [HDRP(PREV_BLKP(ptr))] and [HDRP(NEXT_BLKP(ptr))] as addresses. *)
Definition prev_hdr (s : state) (ptr : Z) : Z :=
  ptr - Z.land (load32 (mem s) (ptr - 8)) (Z.lnot 7) - 4.

Definition next_hdr (s : state) (ptr : Z) : Z :=
  ptr + Z.land (load32 (mem s) (ptr - 4)) (Z.lnot 7) - 4.

(** The three merging branches of [coalesce], each with the insertion and
    the return that end the function; [size] is the size read from the
    header of [ptr]. *)
Definition merge_next (fuel : nat) (ptr size : Z) : M Z :=
  delete_node ptr ;;;
  n1 <- NEXT_BLKP ptr ;;
  delete_node n1 ;;;
  n2 <- NEXT_BLKP ptr ;;
  nsz <- GET_SIZE (HDRP n2) ;;
  let size := wrap32 (size + nsz) in
  PUT (HDRP ptr) (PACK size 0) ;;;
  f <- FTRP ptr ;;
  PUT f (PACK size 0) ;;;
  insert_node fuel ptr size ;;;
  ret ptr.

Definition merge_prev (fuel : nat) (ptr size : Z) : M Z :=
  delete_node ptr ;;;
  p1 <- PREV_BLKP ptr ;;
  delete_node p1 ;;;
  p2 <- PREV_BLKP ptr ;;
  psz <- GET_SIZE (HDRP p2) ;;
  let size := wrap32 (size + psz) in
  f <- FTRP ptr ;;
  PUT f (PACK size 0) ;;;
  p3 <- PREV_BLKP ptr ;;
  PUT (HDRP p3) (PACK size 0) ;;;
  p4 <- PREV_BLKP ptr ;;
  insert_node fuel p4 size ;;;
  ret p4.

Definition merge_both (fuel : nat) (ptr size : Z) : M Z :=
  delete_node ptr ;;;
  p1 <- PREV_BLKP ptr ;;
  delete_node p1 ;;;
  n1 <- NEXT_BLKP ptr ;;
  delete_node n1 ;;;
  p2 <- PREV_BLKP ptr ;;
  psz <- GET_SIZE (HDRP p2) ;;
  n2 <- NEXT_BLKP ptr ;;
  nsz <- GET_SIZE (HDRP n2) ;;
  let size := wrap32 (size + wrap32 (psz + nsz)) in
  p3 <- PREV_BLKP ptr ;;
  PUT (HDRP p3) (PACK size 0) ;;;
  n3 <- NEXT_BLKP ptr ;;
  f <- FTRP n3 ;;
  PUT f (PACK size 0) ;;;
  p4 <- PREV_BLKP ptr ;;
  insert_node fuel p4 size ;;;
  ret p4.

(** No two blocks that follow one another are both free; [prev] is the
    status of the block before the first one. *)
Fixpoint coalesced_from (prev : status) (bs : list block) : Prop :=
  match bs with
  | [] => True
  | (_, _, st) :: r => ~ (prev = Free /\ st = Free) /\ coalesced_from st r
  end.

Definition coalesced (bs : list block) : Prop := coalesced_from Alloc bs.

Definition last_status (prev : status) (bs : list block) : status :=
  last (map snd bs) prev.

(** What [mm_malloc] does: it fails and changes nothing, no free block
    being large enough and the arena having no room for the extension; or
    it returns a block cut from a free block that was large enough, or
    from the extension when there was none. *)
Definition malloc_full_post (s : state) (bs : list block) (asize : Z)
           (r : Z) (s' : state) : Prop :=
  (r = 0 /\ s' = s /\
   (forall x sz, In (x, sz, Free) bs -> sz < asize) /\
   mem_max_addr s < mem_brk s + Z.max asize 4096) \/
  (exists bs' fl' rsz,
      rep s' bs' fl' /\ Forall linked bs' /\
      In (r, rsz, Alloc) bs' /\ asize <= rsz <= asize + 16 /\
      (forall y sy, In (y, sy, Alloc) bs' <->
                    In (y, sy, Alloc) bs \/ (y = r /\ sy = rsz)) /\
      (forall sy, ~ In (r, sy, Alloc) bs) /\
      same_heap s s' /\ keeps_payloads bs s s' /\
      ((mem_brk s' = mem_brk s /\
        exists x sz, In (x, sz, Free) bs /\ asize <= sz /\
                     x <= r /\ r + rsz <= x + sz) \/
       (mem_brk s' = mem_brk s + Z.max asize 4096 /\
        mem_brk s + Z.max asize 4096 <= mem_max_addr s /\
        forall x sz, In (x, sz, Free) bs -> sz < asize)) /\
      (coalesced bs -> coalesced bs')).


(** ** Concrete runs *)
(** An arena of [size] bytes at [lo] whose bytes all hold [fill]; nothing
    is laid out yet. *)
Definition arena (fill lo size : Z) : state :=
  mkState (fun _ => fill) lo lo (lo + size) (fun _ => 0).

Definition after {A} (c : M A) (s : state) : state :=
  match c s with Ok _ s' => s' | _ => s end.

Definition result {A} (c : M A) (s : state) : option A :=
  match c s with Ok a _ => Some a | _ => None end.

(** The blocks of a free list, from its head through the PRED words. *)
Fixpoint list_walk (fuel : nat) (p : Z) : M (list Z) :=
  match fuel with
  | O => timeout
  | S f => if p =? NULL then ret []
           else q <- PRED p ;; r <- list_walk f q ;; ret (p :: r)
  end.

Definition free_list (fuel : nat) (k : Z) : M (list Z) :=
  h <- get_list k ;; list_walk fuel h.

Fixpoint descending (l : list Z) : bool :=
  match l with
  | x :: r => match r with
              | y :: _ => (y <? x) && descending r
              | [] => true
              end
  | [] => true
  end.

Fixpoint ascending (l : list Z) : bool :=
  match l with
  | x :: r => match r with
              | y :: _ => (x <? y) && ascending r
              | [] => true
              end
  | [] => true
  end.

Definition heap0 : state := arena 255 65536 1048576.

Definition small_heap0 : state := arena 255 65536 1024.

(** Six blocks of 16 bytes; the third, the first and the fifth are freed. *)
Definition run_lifo : M (list Z) :=
  mm_init 100 ;;;
  a <- mm_malloc 100 16 ;;
  b <- mm_malloc 100 16 ;;
  c <- mm_malloc 100 16 ;;
  d <- mm_malloc 100 16 ;;
  e <- mm_malloc 100 16 ;;
  f <- mm_malloc 100 16 ;;
  mm_free 100 c ;;; mm_free 100 a ;;; mm_free 100 e ;;;
  free_list 100 4.

(** A block of 200 bytes is resized to 16 bytes: the pointer returned, the
    slack left, and the RA bit of the next header. *)
Definition run_shrink : M (Z * Z * Z) :=
  mm_init 100 ;;;
  x <- mm_malloc 100 200 ;;
  a <- mm_malloc 100 200 ;;
  q <- mm_realloc 100 a 16 ;;
  sz <- GET_SIZE (HDRP q) ;;
  n <- NEXT_BLKP q ;;
  t <- GET_TAG (HDRP n) ;;
  ret (q, sz - (adjust_size 16 + REALLOC_BUFFER), t).

Definition run_two_blocks : M (Z * Z) :=
  mm_init 100 ;;;
  a <- mm_malloc 100 16 ;;
  b <- mm_malloc 100 16 ;;
  ret (a, b).

(** Three blocks, the middle one freed, the first one resized to 100 bytes. *)
Definition run_grow_across : M Z :=
  mm_init 100 ;;;
  a <- mm_malloc 100 16 ;;
  b <- mm_malloc 100 8 ;;
  c <- mm_malloc 100 16 ;;
  mm_free 100 b ;;;
  mm_realloc 100 a 100.

(** The same run, followed by the release of the resized block: the
    address of the block after it and the RA bit of that block's header,
    before and after the release. *)
Definition run_free_after_grow : M (Z * Z * Z * Z) :=
  a <- run_grow_across ;;
  n <- NEXT_BLKP a ;;
  t <- GET_TAG (HDRP n) ;;
  mm_free 100 a ;;;
  n' <- NEXT_BLKP a ;;
  t' <- GET_TAG (HDRP n') ;;
  ret (n, t, n', t').

Definition st_init : state := after (mm_init 100) heap0.

Definition st_big : state := after (mm_init 100 ;;; mm_malloc 100 200) heap0.

(** A run of legal operations: three allocations, one release, and a
    resize of the last block, which grows in place. *)
Definition st_1 : state := after (exec 100 (Malloc 16)) st_init.
Definition st_2 : state := after (exec 100 (Malloc 8)) st_1.
Definition st_3 : state := after (exec 100 (Malloc 16)) st_2.
Definition st_4 : state := after (exec 100 (Release 65576)) st_3.
Definition st_5 : state := after (exec 100 (Realloc 65592 100)) st_4.

(** The heap after one allocation of 16 bytes, with the RA bit set and the
    allocation bit cleared by hand in the header of that block. *)
Definition st_tagged : state :=
  let s1 := after (mm_init 100 ;;; mm_malloc 100 16) heap0 in
  set_mem s1 (store32 (mem s1) 65548 26).

(** ** Observers used by the further properties *)
(** The heap read block by block from the payload address [p], as
    [NEXT_BLKP] steps through it: payload address, size and allocation bit
    of each block, up to the header of size 0. *)
Fixpoint heap_walk (fuel : nat) (p : Z) : M (list (Z * Z * Z)) :=
  match fuel with
  | O => timeout
  | S f =>
      sz <- GET_SIZE (HDRP p) ;;
      a <- GET_ALLOC (HDRP p) ;;
      if sz =? 0 then ret []
      else n <- NEXT_BLKP p ;; r <- heap_walk f n ;; ret ((p, sz, a) :: r)
  end.

Definition block_view (b : block) : Z * Z * Z :=
  (fst (fst b), snd (fst b), abit (snd b)).

(** The heap after init with its only block taken off its list. *)
Definition st_unlinked : state := after (delete_node 65552) st_init.

(** Operations other than [mm_realloc]. *)
Definition no_realloc (o : op) : Prop :=
  match o with
  | Realloc _ _ => False
  | _ => True
  end.

(** The states that [mm_init] and legal calls of [mm_malloc] and [mm_free]
    lead to. *)
Inductive reach_mf (s0 : state) : state -> Prop :=
| reach_mf_init fuel s :
    fresh s0 -> (1 <= fuel)%nat -> mm_init fuel s0 = Ok 0 s -> reach_mf s0 s
| reach_mf_step fuel o r s s' :
    reach_mf s0 s -> no_realloc o -> legal s o -> enough fuel s ->
    exec fuel o s = Ok r s' -> reach_mf s0 s'.

(** No two neighbours in the output of [heap_walk] have allocation bit 0;
    [prev] is the allocation bit of the block before the first one. *)
Fixpoint no_adjacent_free (prev : Z) (w : list (Z * Z * Z)) : Prop :=
  match w with
  | [] => True
  | (_, _, a) :: r => ~ (prev = 0 /\ a = 0) /\ no_adjacent_free a r
  end.

(** ** Words and bytes *)
Lemma wrap32_small x : 0 <= x < 2 ^ 32 -> wrap32 x = x.
Proof. intros; unfold wrap32; apply Z.mod_small; assumption. Qed.

Lemma wrap32_range x : 0 <= wrap32 x < 2 ^ 32.
Proof. unfold wrap32; apply Z.mod_pos_bound; lia. Qed.

Lemma to_int_small x : 0 <= x < 2 ^ 31 -> to_int x = x.
Proof.
  intros H; unfold to_int. rewrite wrap32_small by lia.
  destruct (Z.ltb_spec x (2 ^ 31)); lia.
Qed.

Lemma to_int_neg x : - 2 ^ 31 <= x < 0 -> to_int x = x.
Proof.
  intros H; unfold to_int, wrap32.
  replace (x mod 2 ^ 32) with (x + 2 ^ 32).
  - destruct (Z.ltb_spec (x + 2 ^ 32) (2 ^ 31)); lia.
  - apply Z.mod_unique with (q := -1); lia.
Qed.

Lemma load8_range m a : 0 <= load8 m a < 256.
Proof. unfold load8; apply Z.mod_pos_bound; lia. Qed.

Lemma load32_range m a : 0 <= load32 m a < 2 ^ 32.
Proof.
  unfold load32.
  pose proof (load8_range m a); pose proof (load8_range m (a + 1));
  pose proof (load8_range m (a + 2)); pose proof (load8_range m (a + 3)).
  lia.
Qed.

Lemma load32_ext m m' a :
  (forall i, 0 <= i < 4 -> m' (a + i) = m (a + i)) ->
  load32 m' a = load32 m a.
Proof.
  intros H; unfold load32, load8.
  rewrite <- (Z.add_0_r a) at 1 5.
  rewrite !H by lia. rewrite Z.add_0_r. reflexivity.
Qed.

Lemma store32_other m a v x : x < a \/ a + 4 <= x -> store32 m a v x = m x.
Proof.
  intros H; unfold store32.
  destruct (Z.leb_spec a x); destruct (Z.ltb_spec x (a + 4)); simpl; auto; lia.
Qed.

Lemma load32_store32_other m a v b :
  b + 4 <= a \/ a + 4 <= b -> load32 (store32 m a v) b = load32 m b.
Proof.
  intros H; apply load32_ext; intros i Hi; apply store32_other; lia.
Qed.

Lemma bytes_of_word w :
  0 <= w < 2 ^ 32 ->
  (w / 2 ^ 0) mod 256 + 2 ^ 8 * ((w / 2 ^ 8) mod 256)
  + 2 ^ 16 * ((w / 2 ^ 16) mod 256) + 2 ^ 24 * ((w / 2 ^ 24) mod 256) = w.
Proof.
  intros H.
  pose proof (Z.div_mod w 256 ltac:(lia)) as H0.
  pose proof (Z.div_mod (w / 256) 256 ltac:(lia)) as H1.
  pose proof (Z.div_mod (w / 256 / 256) 256 ltac:(lia)) as H2.
  rewrite !Z.div_div in H1, H2 by lia.
  rewrite !Z.div_div in H2 by lia.
  change (2 ^ 0) with 1; rewrite Z.div_1_r.
  change (2 ^ 8) with 256; change (2 ^ 16) with (256 * 256);
  change (2 ^ 24) with (256 * 256 * 256).
  assert (w / (256 * 256 * 256) < 256)
    by (apply Z.div_lt_upper_bound; lia).
  assert (0 <= w / (256 * 256 * 256)) by (apply Z.div_pos; lia).
  rewrite (Z.mod_small (w / (256 * 256 * 256))) by lia.
  lia.
Qed.

Lemma load32_store32_same m a v : load32 (store32 m a v) a = wrap32 v.
Proof.
  unfold load32, load8, store32.
  repeat match goal with
  | |- context [(?x <=? ?y) && (?z <? ?t)] =>
      destruct (Z.leb_spec x y); destruct (Z.ltb_spec z t); simpl; try lia
  end.
  replace (a - a) with 0 by lia; replace (a + 1 - a) with 1 by lia;
  replace (a + 2 - a) with 2 by lia; replace (a + 3 - a) with 3 by lia.
  rewrite !Z.mod_mod by lia.
  change (8 * 0) with 0; change (8 * 1) with 8; change (8 * 2) with 16;
  change (8 * 3) with 24.
  apply bytes_of_word. apply wrap32_range.
Qed.

Lemma copy_bytes_dst m dst src n i :
  0 <= i < n -> copy_bytes m dst src n (dst + i) = m (src + i).
Proof.
  intros H; unfold copy_bytes.
  destruct (Z.leb_spec dst (dst + i)); destruct (Z.ltb_spec (dst + i) (dst + n));
    simpl; try lia.
  f_equal; lia.
Qed.

Lemma copy_bytes_other m dst src n x :
  x < dst \/ dst + n <= x -> copy_bytes m dst src n x = m x.
Proof.
  intros H; unfold copy_bytes.
  destruct (Z.leb_spec dst x); destruct (Z.ltb_spec x (dst + n)); simpl; auto; lia.
Qed.

(** ** The tag codec on sizes that are multiples of 8 *)
Lemma land_1 x : Z.land x 1 = x mod 2.
Proof. change 1 with (Z.ones 1). rewrite Z.land_ones by lia. reflexivity. Qed.

Lemma land_lnot7 x : Z.land x (Z.lnot 7) = 8 * (x / 8).
Proof.
  change (Z.lnot 7) with (Z.lnot (Z.ones 3)).
  rewrite <- Z.ldiff_land, Z.ldiff_ones_r by lia.
  rewrite Z.shiftr_div_pow2, Z.shiftl_mul_pow2 by lia.
  change (2 ^ 3) with 8. lia.
Qed.

Lemma land_2 x : Z.land x 2 = Z.land (x mod 4) 2.
Proof.
  change 2 with (Z.land (Z.ones 2) 2) at 1.
  rewrite Z.land_assoc, Z.land_ones by lia. reflexivity.
Qed.

Lemma lor_small x t : x mod 8 = 0 -> 0 <= t < 8 -> Z.lor x t = x + t.
Proof.
  intros Hx Ht.
  rewrite <- Z.lxor_lor, <- Z.add_nocarry_lxor; auto;
  apply Z.bits_inj'; intros n Hn; rewrite Z.land_spec, Z.bits_0;
  (destruct (Z.lt_ge_cases n 3);
   [ replace x with (x / 8 * 2 ^ 3) by (change (2 ^ 3) with 8;
       pose proof (Z.div_mod x 8 ltac:(lia)); lia);
     rewrite Z.mul_pow2_bits_low by lia; reflexivity
   | replace (Z.testbit t n) with false; [apply andb_false_r|];
     destruct (Z.eq_dec t 0) as [->|]; [now rewrite Z.bits_0|];
     symmetry; apply Z.bits_above_log2; [lia|];
     apply Z.lt_le_trans with 3; [|lia];
     apply Z.log2_lt_pow2; simpl; lia ]).
Qed.

Lemma PACK_0 sz : sz mod 8 = 0 -> PACK sz 0 = sz.
Proof. intros; unfold PACK; simpl. rewrite lor_small; lia. Qed.

Lemma PACK_1 sz : sz mod 8 = 0 -> PACK sz 1 = sz + 1.
Proof. intros; unfold PACK; simpl. rewrite lor_small; lia. Qed.

Lemma size_of_tag sz lowbits :
  sz mod 8 = 0 -> 0 <= lowbits < 8 -> Z.land (sz + lowbits) (Z.lnot 7) = sz.
Proof.
  intros H Hl. rewrite land_lnot7.
  pose proof (Z.div_mod sz 8 ltac:(lia)).
  replace (sz + lowbits) with (lowbits + sz / 8 * 8) by lia.
  rewrite Z.div_add by lia. rewrite (Z.div_small lowbits) by lia. lia.
Qed.

Lemma alloc_of_tag sz a t :
  sz mod 8 = 0 -> (a = 0 \/ a = 1) -> (t = 0 \/ t = 2) ->
  Z.land (sz + a + t) 1 = a.
Proof.
  intros H Ha Ht. rewrite land_1.
  pose proof (Z.div_mod sz 8 ltac:(lia)).
  destruct Ht; subst t.
  - replace (sz + a + 0) with (a + (4 * (sz / 8)) * 2) by lia.
    rewrite Z.mod_add by lia. destruct Ha; subst; reflexivity.
  - replace (sz + a + 2) with (a + (4 * (sz / 8) + 1) * 2) by lia.
    rewrite Z.mod_add by lia. destruct Ha; subst; reflexivity.
Qed.

Lemma ratag_of_tag sz a t :
  sz mod 8 = 0 -> (a = 0 \/ a = 1) -> (t = 0 \/ t = 2) ->
  Z.land (sz + a + t) 2 = t.
Proof.
  intros H Ha Ht. rewrite land_2.
  pose proof (Z.div_mod sz 8 ltac:(lia)).
  replace (sz + a + t) with (a + t + (2 * (sz / 8)) * 4) by lia.
  rewrite Z.mod_add by lia.
  destruct Ha, Ht; subst; reflexivity.
Qed.

(** ** Rules of the weakest-precondition calculus *)
Lemma wp_ret {A} (a : A) Q s : Q a s -> wp (ret a) Q s.
Proof. exact (fun H => H). Qed.

Lemma wp_bind {A B} (c : M A) (k : A -> M B) Q s :
  wp c (fun a s' => wp (k a) Q s') s -> wp (bind c k) Q s.
Proof. unfold wp, bind. destruct (c s); auto. Qed.

Lemma wp_conseq {A} (c : M A) (Q Q' : A -> state -> Prop) s :
  wp c Q s -> (forall a s', Q a s' -> Q' a s') -> wp c Q' s.
Proof. unfold wp. destruct (c s); auto. Qed.

Lemma wp_ok {A} (c : M A) Q s :
  wp c Q s -> exists a s', c s = Ok a s' /\ Q a s'.
Proof. unfold wp. destruct (c s); try contradiction. eauto. Qed.

Lemma ok_wp {A} (c : M A) (Q : A -> state -> Prop) s a s' :
  c s = Ok a s' -> Q a s' -> wp c Q s.
Proof. unfold wp. intros ->. auto. Qed.

Lemma wp_inv {A} (c : M A) Q s a s' :
  wp c Q s -> c s = Ok a s' -> Q a s'.
Proof. unfold wp. intros H E. rewrite E in H. exact H. Qed.

Lemma valid_intro s a n :
  mem_heap s <= a -> a + n <= mem_brk s -> valid s a n = true.
Proof.
  intros; unfold valid. apply andb_true_intro; split; apply Z.leb_le; lia.
Qed.

Lemma wp_read32 p Q s :
  mem_heap s <= p -> p + 4 <= mem_brk s ->
  Q (load32 (mem s) p) s -> wp (read32 p) Q s.
Proof. intros; unfold wp, read32. rewrite valid_intro by lia. auto. Qed.

Lemma wp_write32 p v Q s :
  mem_heap s <= p -> p + 4 <= mem_brk s ->
  Q tt (set_mem s (store32 (mem s) p v)) -> wp (write32 p v) Q s.
Proof. intros; unfold wp, write32. rewrite valid_intro by lia. auto. Qed.

Lemma wp_get_list k Q s :
  Q (segregated_free_lists s k) s -> wp (get_list k) Q s.
Proof. exact (fun H => H). Qed.

Lemma wp_set_list k v Q s :
  Q tt (set_lists s (fun j => if j =? k then v else segregated_free_lists s j)) ->
  wp (set_list k v) Q s.
Proof. exact (fun H => H). Qed.

Lemma wp_GET_SIZE p Q s :
  mem_heap s <= p -> p + 4 <= mem_brk s ->
  Q (Z.land (load32 (mem s) p) (Z.lnot 7)) s -> wp (GET_SIZE p) Q s.
Proof.
  intros. unfold GET_SIZE, GET. apply wp_bind, wp_read32; auto.
Qed.

Lemma wp_GET_ALLOC p Q s :
  mem_heap s <= p -> p + 4 <= mem_brk s ->
  Q (Z.land (load32 (mem s) p) 1) s -> wp (GET_ALLOC p) Q s.
Proof.
  intros. unfold GET_ALLOC, GET. apply wp_bind, wp_read32; auto.
Qed.

Lemma wp_GET_TAG p Q s :
  mem_heap s <= p -> p + 4 <= mem_brk s ->
  Q (Z.land (load32 (mem s) p) 2) s -> wp (GET_TAG p) Q s.
Proof.
  intros. unfold GET_TAG, GET. apply wp_bind, wp_read32; auto.
Qed.

Lemma wp_PUT p v Q s :
  mem_heap s <= p -> p + 4 <= mem_brk s ->
  Q tt (set_mem s (store32 (mem s) p
                     (Z.lor v (Z.land (load32 (mem s) p) 2)))) ->
  wp (PUT p v) Q s.
Proof.
  intros. unfold PUT. apply wp_bind, wp_GET_TAG; auto.
  apply wp_write32; auto.
Qed.

Lemma wp_PUT_NOTAG p v Q s :
  mem_heap s <= p -> p + 4 <= mem_brk s ->
  Q tt (set_mem s (store32 (mem s) p v)) -> wp (PUT_NOTAG p v) Q s.
Proof. apply wp_write32. Qed.

Lemma wp_SET_PTR p v Q s :
  mem_heap s <= p -> p + 4 <= mem_brk s ->
  Q tt (set_mem s (store32 (mem s) p v)) -> wp (SET_PTR p v) Q s.
Proof. apply wp_write32. Qed.

Lemma wp_PRED p Q s :
  mem_heap s <= p -> p + 4 <= mem_brk s ->
  Q (load32 (mem s) p) s -> wp (PRED p) Q s.
Proof. apply wp_read32. Qed.

Lemma wp_SUCC p Q s :
  mem_heap s <= p + 4 -> p + 8 <= mem_brk s ->
  Q (load32 (mem s) (p + 4)) s -> wp (SUCC p) Q s.
Proof. intros. unfold SUCC, SUCC_PTR, WSIZE. apply wp_read32; auto; lia. Qed.

Lemma wp_FTRP p Q s :
  mem_heap s <= p - 4 -> p <= mem_brk s ->
  Q (p + Z.land (load32 (mem s) (p - 4)) (Z.lnot 7) - 8) s -> wp (FTRP p) Q s.
Proof.
  intros. unfold FTRP, HDRP, WSIZE, DSIZE.
  apply wp_bind, wp_GET_SIZE; auto; lia.
Qed.

Lemma wp_NEXT_BLKP p Q s :
  mem_heap s <= p - 4 -> p <= mem_brk s ->
  Q (p + Z.land (load32 (mem s) (p - 4)) (Z.lnot 7)) s -> wp (NEXT_BLKP p) Q s.
Proof.
  intros. unfold NEXT_BLKP, WSIZE.
  apply wp_bind, wp_GET_SIZE; auto; lia.
Qed.

Lemma wp_PREV_BLKP p Q s :
  mem_heap s <= p - 8 -> p - 4 <= mem_brk s ->
  Q (p - Z.land (load32 (mem s) (p - 8)) (Z.lnot 7)) s -> wp (PREV_BLKP p) Q s.
Proof.
  intros. unfold PREV_BLKP, DSIZE.
  apply wp_bind, wp_GET_SIZE; auto; lia.
Qed.

(** Correctness up to faults *)
Lemma wp_wlp {A} (F : Prop) (c : M A) Q s : wp c Q s -> wlp F c Q s.
Proof. unfold wp, wlp. destruct (c s); tauto. Qed.

Lemma wlp_ret {A} (F : Prop) (a : A) Q s : Q a s -> wlp F (ret a) Q s.
Proof. exact (fun H => H). Qed.

Lemma wlp_bind {A B} (F : Prop) (c : M A) (k : A -> M B) Q s :
  wlp F c (fun a s' => wlp F (k a) Q s') s -> wlp F (bind c k) Q s.
Proof. unfold wlp, bind. destruct (c s); auto. Qed.

Lemma wlp_conseq {A} (F : Prop) (c : M A) (Q Q' : A -> state -> Prop) s :
  wlp F c Q s -> (forall a s', Q a s' -> Q' a s') -> wlp F c Q' s.
Proof. unfold wlp. destruct (c s); auto. Qed.

Lemma wlp_inv {A} (F : Prop) (c : M A) Q s a s' :
  wlp F c Q s -> c s = Ok a s' -> Q a s'.
Proof. unfold wlp. intros H E. rewrite E in H. exact H. Qed.



Lemma wlp_memcpy (F : Prop) dst src n Q s :
  0 < n ->
  (~ (mem_heap s <= dst /\ dst + n <= mem_brk s) -> F) ->
  (mem_heap s <= dst -> dst + n <= mem_brk s ->
   Q tt (set_mem s (copy_bytes (mem s) dst src n))) ->
  wlp F (memcpy dst src n) Q s.
Proof.
  intros Hn HF H. unfold wlp, memcpy, valid.
  destruct (Z.eqb_spec n 0); [lia|].
  destruct (Z.leb_spec (mem_heap s) dst); simpl; [|apply HF; lia].
  destruct (Z.leb_spec (dst + n) (mem_brk s)); simpl; [|apply HF; lia].
  auto.
Qed.

(** ** Size classes *)
Lemma select_list_spec n : forall l s,
  0 <= s -> 0 <= l ->
  exists j, 0 <= j <= Z.of_nat n /\
            select_list n l s = (l + j, s / 2 ^ j) /\
            (forall i, 0 <= i < j -> s / 2 ^ i > 1 /\ l + i < 19) /\
            (j = Z.of_nat n \/ l + j >= 19 \/ s / 2 ^ j <= 1).
Proof.
  induction n as [|n IH]; intros l s Hs Hl.
  - exists 0. simpl. rewrite Z.div_1_r, Z.add_0_r.
    repeat split; try lia.
  - cbn [select_list]. unfold LISTLIMIT.
    destruct (Z.ltb_spec l (20 - 1)); destruct (Z.gtb_spec s 1); cbn [andb].
    + destruct (IH (l + 1) (Z.shiftr s 1)) as (j & Hj & E & Hall & Hstop).
      { rewrite Z.shiftr_div_pow2 by lia. apply Z.div_pos; lia. }
      { lia. }
      assert (Hdiv : forall i, 0 <= i -> Z.shiftr s 1 / 2 ^ i = s / 2 ^ (i + 1)).
      { intros i Hi. rewrite Z.shiftr_div_pow2 by lia.
        rewrite Z.div_div by (try apply Z.pow_pos_nonneg; lia).
        rewrite <- Z.pow_add_r by lia. f_equal. f_equal. lia. }
      exists (j + 1). split; [lia|]. split.
      { rewrite E. rewrite Hdiv by lia. f_equal. lia. }
      split.
      { intros i Hi. destruct (Z.eq_dec i 0) as [->|Hne].
        - rewrite Z.div_1_r. lia.
        - destruct (Hall (i - 1)) as [Ha Hb]; [lia|].
          rewrite Hdiv in Ha by lia. replace (i - 1 + 1) with i in Ha by lia. lia. }
      { rewrite Hdiv in Hstop by lia. lia. }
    + exists 0. rewrite Z.div_1_r, Z.add_0_r. repeat split; try lia.
    + exists 0. rewrite Z.div_1_r, Z.add_0_r. repeat split; try lia.
    + exists 0. rewrite Z.div_1_r, Z.add_0_r. repeat split; try lia.
Qed.

Lemma class_range sz : 0 <= sz -> 0 <= class sz < 20.
Proof.
  intros H. unfold class.
  destruct (select_list_spec 19 0 sz H ltac:(lia)) as (j & Hj & E & _).
  rewrite E. simpl. lia.
Qed.

Lemma shifted_le sz h :
  0 <= sz < 2 ^ 32 -> 16 <= h -> class h = class sz ->
  snd (select_list 19 0 sz) <= h.
Proof.
  intros Hsz Hh Hc. unfold class in Hc.
  destruct (select_list_spec 19 0 sz ltac:(lia) ltac:(lia))
    as (j & Hj & E & Hall & Hstop).
  destruct (select_list_spec 19 0 h ltac:(lia) ltac:(lia))
    as (jh & Hjh & Eh & Hallh & Hstoph).
  rewrite E, Eh in Hc. rewrite E. cbn [fst snd] in *.
  assert (jh = j) by lia. subst jh.
  destruct (Z.le_gt_cases (sz / 2 ^ j) 1); [lia|].
  assert (j = 19) by lia. subst j.
  destruct (Hallh 18 ltac:(lia)) as [H18 _].
  assert (h >= 2 ^ 19).
  { pose proof (Z.div_mod h (2 ^ 18) ltac:(lia)).
    pose proof (Z.mod_pos_bound h (2 ^ 18) ltac:(lia)).
    change (2 ^ 19) with (2 * 2 ^ 18). nia. }
  assert (sz / 2 ^ 19 < 2 ^ 13).
  { apply Z.div_lt_upper_bound; lia. }
  lia.
Qed.

(** ** Geometry of the block sequence *)
Lemma tags_sized m bs : Forall (tag_ok m) bs -> sized bs.
Proof.
  unfold sized. intros H. eapply Forall_impl; [|exact H].
  intros [[x sz] st] (H1 & _). exact H1.
Qed.

Lemma contig_app a l1 l2 e :
  contig a (l1 ++ l2) e <-> exists mid, contig a l1 mid /\ contig mid l2 e.
Proof.
  revert a. induction l1 as [|[[x sz] st] l1 IH]; intros a; simpl.
  - split.
    + intros H. exists a. auto.
    + intros (mid & -> & H). exact H.
  - rewrite IH. split.
    + intros (-> & mid & H1 & H2). exists mid. auto.
    + intros (mid & (-> & H1) & H2). split; eauto.
Qed.

Lemma contig_le a bs e : sized bs -> contig a bs e -> a <= e.
Proof.
  unfold sized. revert a. induction bs as [|[[x sz] st] bs IH]; intros a Hs; simpl.
  - lia.
  - apply Forall_cons_iff in Hs. destruct Hs as [Hsz Hs].
    intros (-> & H). apply IH in H; auto. simpl in *. lia.
Qed.

Lemma contig_len a bs e :
  sized bs -> contig a bs e -> 16 * Z.of_nat (length bs) <= e - a.
Proof.
  unfold sized. revert a. induction bs as [|[[x sz] st] bs IH]; intros a Hs.
  - simpl. lia.
  - apply Forall_cons_iff in Hs. destruct Hs as [Hsz Hs].
    intros (-> & H). apply IH in H; auto.
    change (length ((a, sz, st) :: bs)) with (S (length bs)).
    simpl in Hsz. lia.
Qed.

Lemma contig_bounds a bs e x sz st :
  sized bs -> contig a bs e -> In (x, sz, st) bs ->
  a <= x /\ x + sz <= e /\ 16 <= sz.
Proof.
  unfold sized. revert a. induction bs as [|[[y szy] sty] bs IH]; intros a Hs Hc Hin.
  - contradiction.
  - apply Forall_cons_iff in Hs. destruct Hs as [Hsz Hs].
    destruct Hc as (-> & Hc). simpl in Hsz.
    destruct Hin as [E|Hin].
    + inversion E; subst. pose proof (contig_le _ _ _ Hs Hc). lia.
    + specialize (IH _ Hs Hc Hin). lia.
Qed.

Lemma contig_sep a bs e x1 sz1 st1 x2 sz2 st2 :
  sized bs -> contig a bs e ->
  In (x1, sz1, st1) bs -> In (x2, sz2, st2) bs ->
  (x1, sz1, st1) = (x2, sz2, st2) \/ x1 + sz1 <= x2 \/ x2 + sz2 <= x1.
Proof.
  unfold sized. revert a. induction bs as [|[[y szy] sty] bs IH]; intros a Hs Hc H1 H2.
  - contradiction.
  - apply Forall_cons_iff in Hs. destruct Hs as [Hsz Hs].
    destruct Hc as (-> & Hc). simpl in Hsz.
    destruct H1 as [E1|H1], H2 as [E2|H2].
    + left. congruence.
    + inversion E1; subst.
      pose proof (contig_bounds _ _ _ _ _ _ Hs Hc H2). lia.
    + inversion E2; subst.
      pose proof (contig_bounds _ _ _ _ _ _ Hs Hc H1). lia.
    + eapply IH; eauto.
Qed.

Lemma contig_mid a l1 x sz st l2 e :
  contig a (l1 ++ (x, sz, st) :: l2) e ->
  contig a l1 x /\ contig (x + sz) l2 e.
Proof.
  rewrite contig_app. intros (mid & H1 & H2). simpl in H2.
  destruct H2 as (-> & H2). auto.
Qed.

Lemma contig_mid_intro a l1 x sz st l2 e :
  contig a l1 x -> contig (x + sz) l2 e ->
  contig a (l1 ++ (x, sz, st) :: l2) e.
Proof.
  intros H1 H2. rewrite contig_app. exists x. simpl. auto.
Qed.

Lemma contig_last a l x sz st e :
  contig a (l ++ [(x, sz, st)]) e -> x + sz = e.
Proof.
  intros H. apply contig_mid in H. simpl in H. tauto.
Qed.

Lemma sized_app l1 l2 : sized (l1 ++ l2) <-> sized l1 /\ sized l2.
Proof. unfold sized. apply Forall_app. Qed.

(** ** Doubly linked free lists *)
Lemma dll_frame m m' l : forall succ p,
  (forall z, In z l -> load32 m' z = load32 m z
                       /\ load32 m' (z + 4) = load32 m (z + 4)) ->
  dll m succ p l -> dll m' succ p l.
Proof.
  induction l as [|x l IH]; intros succ p Hf; simpl; auto.
  intros (-> & Hx & Hs & Hd).
  destruct (Hf x (or_introl eq_refl)) as [E1 E2].
  rewrite E1, E2. repeat split; auto.
  apply IH; auto. intros z Hz. apply Hf. right; exact Hz.
Qed.

Lemma dll_hd m l succ p : dll m succ p l -> p = hd 0 l.
Proof. destruct l; simpl; tauto. Qed.

Lemma dll_nonzero m l : forall succ p, dll m succ p l -> ~ In 0 l.
Proof.
  induction l as [|x l IH]; intros succ p; simpl; auto.
  intros (-> & Hx & Hs & Hd) [E|Hin]; [congruence|].
  eapply IH; eauto.
Qed.

Lemma last_cons {A} (a : A) l d : last (a :: l) d = last l a.
Proof.
  revert a d. induction l as [|b l IH]; intros a d; [reflexivity|].
  change (last (a :: b :: l) d) with (last (b :: l) d).
  rewrite (IH b d), (IH b a). reflexivity.
Qed.

Lemma last_nonempty {A} (l : list A) d d' : l <> [] -> last l d = last l d'.
Proof.
  destruct l as [|a l]; [congruence|]. intros _. rewrite !last_cons. reflexivity.
Qed.

Lemma last_in {A} (l : list A) d : l <> [] -> In (last l d) l.
Proof.
  induction l as [|a l IH]; [congruence|]. intros _.
  destruct l as [|b l]; [left; reflexivity|].
  right. change (last (a :: b :: l) d) with (last (b :: l) d).
  apply IH. congruence.
Qed.

(** The links of an element in the middle of a list. *)
Lemma dll_links m x f2 : forall f1 succ p,
  dll m succ p (f1 ++ x :: f2) ->
  load32 m x = hd 0 f2 /\ load32 m (x + 4) = last f1 succ.
Proof.
  induction f1 as [|a f1 IH]; intros succ p; simpl app.
  - simpl. intros (-> & Hx & Hs & Hd). split; auto.
    eapply dll_hd; eauto.
  - intros H. cbn [dll] in H. destruct H as (-> & Ha & Hs & Hd).
    apply IH in Hd. rewrite last_cons. exact Hd.
Qed.

(** Unlinking [x]: the SUCC word of the element after it and the PRED
    word of the element before it are redirected. *)
Lemma dll_unlink m m' x f2 : forall f1 succ p,
  dll m succ p (f1 ++ x :: f2) ->
  NoDup (f1 ++ x :: f2) ->
  (forall z, In z (f1 ++ f2) -> (f1 = [] \/ z <> last f1 0) ->
             load32 m' z = load32 m z) ->
  (forall z, In z (f1 ++ f2) -> (f2 = [] \/ z <> hd 0 f2) ->
             load32 m' (z + 4) = load32 m (z + 4)) ->
  (f1 <> [] -> load32 m' (last f1 0) = hd 0 f2) ->
  (f2 <> [] -> load32 m' (hd 0 f2 + 4) = last f1 succ) ->
  dll m' succ (hd (hd 0 f2) f1) (f1 ++ f2).
Proof.
  induction f1 as [|a f1 IH]; intros succ p Hd Hnd H1 H2 H3 H4.
  - simpl in *. destruct Hd as (-> & Hx & Hs & Hd).
    destruct f2 as [|y r]; [reflexivity|].
    cbn [dll hd] in *. destruct Hd as (Ey & Hy & Hsy & Hd).
    split; [reflexivity|]. split; [assumption|].
    split; [apply H4; congruence|].
    rewrite H1 by (try left; reflexivity).
    apply dll_frame with (m := m); auto.
    intros z Hz. inversion Hnd as [|? ? Hnx Hnd']; subst.
    inversion Hnd' as [|? ? Hny _]; subst.
    split; [apply H1; [right; exact Hz|left; reflexivity]|].
    apply H2; [right; exact Hz|]. right. intros ->. contradiction.
  - change ((a :: f1) ++ x :: f2) with (a :: (f1 ++ x :: f2)) in *.
    cbn [dll] in Hd. destruct Hd as (-> & Ha & Hs & Hd).
    inversion Hnd as [|? ? Hna Hnd']; subst.
    assert (Hna1 : ~ In a f1) by (intros Hin; apply Hna, in_or_app; auto).
    assert (Hna2 : ~ In a f2)
      by (intros Hin; apply Hna, in_or_app; right; right; auto).
    change ((a :: f1) ++ f2) with (a :: (f1 ++ f2)) in *.
    cbn [dll hd]. split; [reflexivity|]. split; [assumption|].
    split.
    { rewrite H2; auto. left; reflexivity.
      destruct f2 as [|y r]; [left; reflexivity|right].
      simpl. intros ->. apply Hna2. left; reflexivity. }
    assert (Epred : load32 m' a = hd (hd 0 f2) f1).
    { destruct f1 as [|b f1].
      - simpl. apply H3. congruence.
      - rewrite H1.
        + simpl in Hd. destruct Hd as (Hd & _). simpl. exact Hd.
        + left; reflexivity.
        + right. rewrite last_cons. intros E.
          apply Hna1. rewrite E. apply last_in. congruence. }
    rewrite Epred.
    apply IH with (p := load32 m a); auto.
    + intros z Hz Hl. apply H1; [right; exact Hz|].
      right. rewrite last_cons.
      destruct f1 as [|b f1].
      * simpl in *. intros ->. contradiction.
      * rewrite (last_nonempty (b :: f1) a 0) by congruence.
        destruct Hl as [Hl|Hl]; [congruence|exact Hl].
    + intros z Hz Hh. apply H2; [right; exact Hz|exact Hh].
    + intros Hne. rewrite <- H3 by congruence. rewrite last_cons.
      rewrite (last_nonempty f1 a 0); auto.
    + intros Hne. rewrite H4 by exact Hne. rewrite last_cons. reflexivity.
Qed.

(** Linking [x] in front of the list. *)
Lemma dll_push m m' x h l :
  dll m 0 h l -> x <> 0 ->
  load32 m' x = h -> load32 m' (x + 4) = 0 ->
  (l <> [] -> load32 m' (h + 4) = x) ->
  (forall z, In z l -> load32 m' z = load32 m z) ->
  (forall z, In z l -> z <> h -> load32 m' (z + 4) = load32 m (z + 4)) ->
  NoDup l ->
  dll m' 0 x (x :: l).
Proof.
  intros Hd Hx Hp Hs Hh H1 H2 Hnd.
  cbn [dll]. split; [reflexivity|]. split; [assumption|]. split; [assumption|].
  rewrite Hp. destruct l as [|y r]; [exact Hd|].
  cbn [dll] in *. destruct Hd as (-> & Hy & Hsy & Hd).
  split; [reflexivity|]. split; [assumption|].
  split; [apply Hh; congruence|].
  rewrite H1 by (left; reflexivity).
  apply dll_frame with (m := m); auto.
  intros z Hz. inversion Hnd; subst.
  split; [apply H1; right; exact Hz|].
  apply H2; [right; exact Hz|]. intros ->. contradiction.
Qed.

Lemma remove_mid (x : Z) f1 f2 :
  NoDup (f1 ++ x :: f2) -> remove Z.eq_dec x (f1 ++ x :: f2) = f1 ++ f2.
Proof.
  intros H. apply NoDup_remove_2 in H.
  rewrite remove_app. simpl. destruct (Z.eq_dec x x); [|congruence].
  rewrite !notin_remove; auto; intros Hin; apply H, in_or_app; auto.
Qed.

Lemma NoDup_remove_mid (x : Z) f1 f2 :
  NoDup (f1 ++ x :: f2) -> NoDup (f1 ++ f2).
Proof. apply NoDup_remove_1. Qed.

(** ** Facts read off the representation invariant *)
Lemma frame_refl L m : frame L m m.
Proof. intros a _. reflexivity. Qed.

Lemma frame_store L m m1 w v :
  frame L m m1 -> (exists z, In z L /\ z <= w /\ w + 4 <= z + 8) ->
  frame L m (store32 m1 w v).
Proof.
  intros H (z & Hz & Hw) a Ha. rewrite store32_other.
  - apply H, Ha.
  - specialize (Ha z Hz). lia.
Qed.

Lemma frame_load32 L m m' b :
  frame L m m' -> (forall z, In z L -> b + 4 <= z \/ z + 8 <= b) ->
  load32 m' b = load32 m b.
Proof.
  intros H Hb. apply load32_ext. intros i Hi. apply H.
  intros z Hz. specialize (Hb z Hz). lia.
Qed.

Lemma frame_mono L L' m m' :
  incl L L' -> frame L m m' -> frame L' m m'.
Proof. intros Hi H a Ha. apply H. intros z Hz. apply Ha, Hi, Hz. Qed.

Lemma rep_sized s bs fl : rep s bs fl -> sized bs.
Proof. intros H. eapply tags_sized, rep_tags; eauto. Qed.

Lemma rep_block s bs fl x sz st :
  rep s bs fl -> In (x, sz, st) bs ->
  mem_heap s + 16 <= x /\ x + sz <= mem_brk s /\ 16 <= sz /\ sz mod 8 = 0 /\
  sz < 2 ^ 31 /\
  load32 (mem s) (x - 4) = sz + abit st /\
  footer_ok (load32 (mem s) (x + sz - 8)) sz (abit st).
Proof.
  intros H Hin.
  pose proof (contig_bounds _ _ _ _ _ _ (rep_sized _ _ _ H) (rep_contig _ _ _ H) Hin)
    as (B1 & B2 & B3).
  pose proof (rep_tags _ _ _ H) as Ht. rewrite Forall_forall in Ht.
  specialize (Ht _ Hin). cbn in Ht. destruct Ht as (T1 & T2 & T3 & T4).
  pose proof (rep_max _ _ _ H). pose proof (rep_lo _ _ _ H).
  repeat split; auto; lia.
Qed.

Lemma rep_sep s bs fl x1 sz1 st1 x2 sz2 st2 :
  rep s bs fl -> In (x1, sz1, st1) bs -> In (x2, sz2, st2) bs ->
  (x1, sz1, st1) = (x2, sz2, st2) \/ x1 + sz1 <= x2 \/ x2 + sz2 <= x1.
Proof.
  intros H. eapply contig_sep; [eapply rep_sized|eapply rep_contig]; eauto.
Qed.

Lemma rep_fl_block s bs fl k y :
  rep s bs fl -> 0 <= k < 20 -> In y (fl k) ->
  exists sz, In (y, sz, Free) bs /\ class sz = k.
Proof. intros H Hk Hy. apply (rep_mem _ _ _ H k y Hk). exact Hy. Qed.

Lemma rep_fl_sep s bs fl k k' y y' :
  rep s bs fl -> 0 <= k < 20 -> 0 <= k' < 20 ->
  In y (fl k) -> In y' (fl k') ->
  (y = y' /\ k = k') \/ y + 16 <= y' \/ y' + 16 <= y.
Proof.
  intros H Hk Hk' Hy Hy'.
  destruct (rep_fl_block _ _ _ _ _ H Hk Hy) as (sz & Hin & Hc).
  destruct (rep_fl_block _ _ _ _ _ H Hk' Hy') as (sz' & Hin' & Hc').
  pose proof (rep_block _ _ _ _ _ _ H Hin).
  pose proof (rep_block _ _ _ _ _ _ H Hin').
  destruct (rep_sep _ _ _ _ _ _ _ _ _ H Hin Hin') as [E|Hs].
  - inversion E; subst. left. auto.
  - right. lia.
Qed.

Lemma tag_ok_status m x sz st st' :
  abit st = abit st' -> tag_ok m (x, sz, st) -> tag_ok m (x, sz, st').
Proof. unfold tag_ok. intros <-. auto. Qed.

Lemma contig_status a l1 x sz st st' l2 e :
  contig a (l1 ++ (x, sz, st) :: l2) e -> contig a (l1 ++ (x, sz, st') :: l2) e.
Proof.
  intros H. apply contig_mid in H. destruct H. apply contig_mid_intro; auto.
Qed.

(** Writes to link words of blocks leave every boundary tag alone. *)
Lemma tags_frame a bs e m m' L :
  contig a bs e -> Forall (tag_ok m) bs -> frame L m m' ->
  (forall z, In z L -> exists sz st, In (z, sz, st) bs) ->
  Forall (tag_ok m') bs.
Proof.
  intros Hc Ht Hf HL. pose proof (tags_sized _ _ Ht) as Hs.
  rewrite Forall_forall in *. intros [[x sz] st] Hin.
  specialize (Ht _ Hin). cbn in *. destruct Ht as (T1 & T2 & T3 & T4).
  pose proof (contig_bounds _ _ _ _ _ _ Hs Hc Hin).
  assert (E1 : load32 m' (x - 4) = load32 m (x - 4)).
  { eapply frame_load32; eauto. intros z Hz.
    destruct (HL z Hz) as (szz & stz & Hinz).
    pose proof (contig_bounds _ _ _ _ _ _ Hs Hc Hinz).
    destruct (contig_sep _ _ _ _ _ _ _ _ _ Hs Hc Hin Hinz) as [E|?];
      [inversion E; subst|]; lia. }
  assert (E2 : load32 m' (x + sz - 8) = load32 m (x + sz - 8)).
  { eapply frame_load32; eauto. intros z Hz.
    destruct (HL z Hz) as (szz & stz & Hinz).
    pose proof (contig_bounds _ _ _ _ _ _ Hs Hc Hinz).
    destruct (contig_sep _ _ _ _ _ _ _ _ _ Hs Hc Hin Hinz) as [E|?];
      [inversion E; subst|]; lia. }
  rewrite E1, E2. auto.
Qed.

Lemma in_mid_status {A} (l1 l2 : list A) b b' c :
  In c (l1 ++ b :: l2) -> c = b \/ In c (l1 ++ b' :: l2).
Proof.
  rewrite !in_app_iff. simpl. intuition.
Qed.

(** Addresses identify blocks. *)
Lemma rep_addr_inj s bs fl x sz st sz' st' :
  rep s bs fl -> In (x, sz, st) bs -> In (x, sz', st') bs ->
  sz = sz' /\ st = st'.
Proof.
  intros H H1 H2.
  pose proof (rep_block _ _ _ _ _ _ H H1).
  pose proof (rep_block _ _ _ _ _ _ H H2).
  destruct (rep_sep _ _ _ _ _ _ _ _ _ H H1 H2) as [E|?];
    [inversion E; auto|lia].
Qed.

Lemma rep_fl_length s bs fl k :
  rep s bs fl -> 0 <= k < 20 ->
  Z.of_nat (length (fl k)) < mem_brk s - mem_heap s.
Proof.
  intros H Hk.
  assert (Hincl : incl (fl k) (map (fun b : block => fst (fst b)) bs)).
  { intros y Hy. destruct (rep_fl_block _ _ _ _ _ H Hk Hy) as (sz & Hin & _).
    apply in_map_iff. exists (y, sz, Free). auto. }
  pose proof (NoDup_incl_length (rep_nodup _ _ _ H k Hk) Hincl) as Hl.
  rewrite length_map in Hl.
  pose proof (contig_len _ _ _ (rep_sized _ _ _ H) (rep_contig _ _ _ H)).
  lia.
Qed.

(** ** Taking a block off its list, abstractly *)
Lemma contig_others a l1 x sz st l2 e y sy ty :
  sized (l1 ++ (x, sz, st) :: l2) ->
  contig a (l1 ++ (x, sz, st) :: l2) e ->
  In (y, sy, ty) (l1 ++ l2) ->
  (y + sy <= x \/ x + sz <= y) /\ a <= y /\ y + sy <= e /\ 16 <= sy.
Proof.
  intros Hs Hc Hin. apply sized_app in Hs. destruct Hs as [Hs1 Hs2].
  apply Forall_cons_iff in Hs2. destruct Hs2 as [Hsz Hs2]. simpl in Hsz.
  apply contig_mid in Hc. destruct Hc as [Hc1 Hc2].
  pose proof (contig_le _ _ _ Hs1 Hc1). pose proof (contig_le _ _ _ Hs2 Hc2).
  apply in_app_iff in Hin. destruct Hin as [Hin|Hin].
  - pose proof (contig_bounds _ _ _ _ _ _ Hs1 Hc1 Hin). lia.
  - pose proof (contig_bounds _ _ _ _ _ _ Hs2 Hc2 Hin). lia.
Qed.

Lemma in_mid {A} (l1 l2 : list A) b c :
  In c (l1 ++ b :: l2) <-> c = b \/ In c (l1 ++ l2).
Proof. rewrite !in_app_iff. simpl. intuition. Qed.

Lemma rep_unlink s s' l1 x sz l2 fl f1 f2 :
  rep s (l1 ++ (x, sz, Free) :: l2) fl ->
  fl (class sz) = f1 ++ x :: f2 ->
  same_heap s s' -> mem_brk s' = mem_brk s ->
  frame (f1 ++ f2) (mem s) (mem s') ->
  (forall k, 0 <= k < 20 -> k <> class sz ->
             segregated_free_lists s' k = segregated_free_lists s k) ->
  segregated_free_lists s' (class sz) = hd (hd 0 f2) f1 ->
  (f1 <> [] -> load32 (mem s') (last f1 0) = hd 0 f2) ->
  (f2 <> [] -> load32 (mem s') (hd 0 f2 + 4) = last f1 0) ->
  (forall z, In z (f1 ++ f2) -> (f1 = [] \/ z <> last f1 0) ->
             load32 (mem s') z = load32 (mem s) z) ->
  (forall z, In z (f1 ++ f2) -> (f2 = [] \/ z <> hd 0 f2) ->
             load32 (mem s') (z + 4) = load32 (mem s) (z + 4)) ->
  rep s' (l1 ++ (x, sz, Unlinked) :: l2) (fl_del fl (class sz) x).
Proof.
  intros H Efl (Hheap & Hmax) Hbrk Hfr Hlists Hhead H3 H4 H1 H2.
  assert (Hx : In (x, sz, Free) (l1 ++ (x, sz, Free) :: l2))
    by (apply in_mid; auto).
  pose proof (rep_block _ _ _ _ _ _ H Hx) as Bx.
  assert (Hk0 : 0 <= class sz < 20) by (apply class_range; lia).
  assert (Hnd0 : NoDup (f1 ++ x :: f2)) by (rewrite <- Efl; apply (rep_nodup _ _ _ H); auto).
  assert (Hsub : forall z, In z (f1 ++ f2) -> In z (fl (class sz))).
  { intros z Hz. rewrite Efl. apply in_mid. auto. }
  assert (Hblk : forall z, In z (f1 ++ f2) ->
            exists szz stz, In (z, szz, stz) (l1 ++ (x, sz, Free) :: l2)).
  { intros z Hz. destruct (rep_fl_block _ _ _ _ _ H Hk0 (Hsub z Hz)) as (szz & Hin & _).
    eauto. }
  assert (Hload : forall b, mem_heap s <= b -> b + 4 <= mem_heap s + 16 \/ mem_brk s - 4 <= b ->
            load32 (mem s') b = load32 (mem s) b).
  { intros b Hb1 Hb2. eapply frame_load32; eauto. intros z Hz.
    destruct (Hblk z Hz) as (szz & stz & Hin).
    pose proof (rep_block _ _ _ _ _ _ H Hin). lia. }
  pose proof (rep_lo _ _ _ H). pose proof (rep_max _ _ _ H).
  pose proof (rep_prologue _ _ _ H) as [P1 P2].
  constructor.
  - lia.
  - lia.
  - rewrite Hheap, !Hload by lia. auto.
  - rewrite Hheap, Hbrk. eapply contig_status, rep_contig; eauto.
  - rewrite Hbrk, Hload by lia. eapply rep_epilogue; eauto.
  - assert (Ht : Forall (tag_ok (mem s')) (l1 ++ (x, sz, Free) :: l2)).
    { eapply tags_frame; eauto using rep_contig, rep_tags. }
    rewrite Forall_app in *. destruct Ht as [Ht1 Ht2]. split; auto.
    apply Forall_cons_iff in Ht2. destruct Ht2 as [Ht2 Ht3].
    constructor; auto.
  - intros k Hk. unfold fl_del. destruct (Z.eqb_spec k (class sz)) as [->|Hne].
    + rewrite Efl, remove_mid by auto. rewrite Hhead.
      eapply dll_unlink; eauto.
      rewrite <- Efl. apply (rep_dll _ _ _ H). auto.
    + rewrite Hlists by auto.
      apply dll_frame with (m := mem s); [|apply (rep_dll _ _ _ H); auto].
      intros z Hz.
      assert (Hfar : forall z', In z' (f1 ++ f2) -> z + 16 <= z' \/ z' + 16 <= z).
      { intros z' Hz'.
        destruct (rep_fl_sep _ _ _ _ _ _ _ H Hk Hk0 Hz (Hsub z' Hz')) as [[_ E]|?];
          [contradiction|lia]. }
      split; eapply frame_load32; eauto; intros z' Hz';
        specialize (Hfar z' Hz'); lia.
  - intros k Hk. unfold fl_del. destruct (Z.eqb_spec k (class sz)) as [->|Hne].
    + rewrite Efl, remove_mid by auto. eapply NoDup_remove_mid; eauto.
    + apply (rep_nodup _ _ _ H); auto.
  - intros k y Hk. unfold fl_del.
    pose proof (rep_mem _ _ _ H k y Hk) as Hm.
    pose proof (rep_sized _ _ _ H) as Hsz. pose proof (rep_contig _ _ _ H) as Hc.
    destruct (Z.eqb_spec k (class sz)) as [->|Hne].
    + split.
      * intros Hin. apply in_remove in Hin. destruct Hin as [Hin Hneq].
        apply Hm in Hin. destruct Hin as (sy & Hin & Hcl).
        exists sy. split; auto. apply in_mid in Hin. apply in_mid.
        destruct Hin as [E|Hin]; [inversion E; congruence|auto].
      * intros (sy & Hin & Hcl). apply in_mid in Hin.
        destruct Hin as [E|Hin]; [inversion E|].
        apply in_in_remove.
        -- pose proof (contig_others _ _ _ _ _ _ _ _ _ _ Hsz Hc Hin). lia.
        -- apply Hm. exists sy. split; auto. apply in_mid. auto.
    + rewrite Hm. split; intros (sy & Hin & Hcl); exists sy; split; auto;
        apply in_mid in Hin; apply in_mid;
        (destruct Hin as [E|Hin]; [inversion E; subst; congruence|auto]).
Qed.

(** ** delete_node *)
Lemma frame_keeps s s' bs fl L :
  rep s bs fl -> frame L (mem s) (mem s') ->
  (forall z, In z L -> exists sz st, In (z, sz, st) bs /\ st <> Alloc) ->
  keeps_payloads bs s s'.
Proof.
  intros H Hf HL x sz i Hin Hi. apply Hf. intros z Hz.
  destruct (HL z Hz) as (szz & stz & Hinz & Hst).
  pose proof (rep_block _ _ _ _ _ _ H Hin).
  pose proof (rep_block _ _ _ _ _ _ H Hinz).
  destruct (rep_sep _ _ _ _ _ _ _ _ _ H Hin Hinz) as [E|?];
    [inversion E; subst; congruence|lia].
Qed.

Lemma frame_keeps_headers s s' bs fl L :
  rep s bs fl -> frame L (mem s) (mem s') ->
  (forall z, In z L -> exists sz st, In (z, sz, st) bs /\ st <> Alloc) ->
  keeps_headers bs s s'.
Proof.
  intros H Hf HL x sz st Hin. eapply frame_load32; eauto. intros z Hz.
  destruct (HL z Hz) as (szz & stz & Hinz & Hst).
  pose proof (rep_block _ _ _ _ _ _ H Hin).
  pose proof (rep_block _ _ _ _ _ _ H Hinz).
  destruct (rep_sep _ _ _ _ _ _ _ _ _ H Hin Hinz) as [E|?];
    [inversion E; subst; lia|lia].
Qed.

Lemma header_size sz a : sz mod 8 = 0 -> (a = 0 \/ a = 1) ->
  Z.land (sz + a) (Z.lnot 7) = sz.
Proof. intros. apply size_of_tag; auto; lia. Qed.

Lemma abit_cases st : abit st = 0 \/ abit st = 1.
Proof. destruct st; simpl; auto. Qed.

Lemma footer_size w sz a : sz mod 8 = 0 -> (a = 0 \/ a = 1) ->
  footer_ok w sz a -> Z.land w (Z.lnot 7) = sz.
Proof.
  intros Hsz Ha [->| ->].
  - apply size_of_tag; auto; lia.
  - rewrite <- Z.add_assoc. apply size_of_tag; auto; lia.
Qed.

Lemma exists_last_or_nil {A} (l : list A) :
  l = [] \/ exists g z, l = g ++ [z].
Proof.
  induction l as [|a l IH] using rev_ind; [left; reflexivity|right; eauto].
Qed.

Lemma delete_node_spec s l1 x sz l2 fl :
  rep s (l1 ++ (x, sz, Free) :: l2) fl ->
  wp (delete_node x)
     (fun _ s' =>
        rep s' (l1 ++ (x, sz, Unlinked) :: l2) (fl_del fl (class sz) x) /\
        same_heap s s' /\ mem_brk s' = mem_brk s /\
        keeps_payloads (l1 ++ (x, sz, Free) :: l2) s s' /\
        frame (fl (class sz)) (mem s) (mem s')) s.
Proof.
  intros H.
  assert (Hx : In (x, sz, Free) (l1 ++ (x, sz, Free) :: l2))
    by (apply in_mid; auto).
  pose proof (rep_block _ _ _ _ _ _ H Hx) as (B1 & B2 & B3 & B4 & B5 & B6 & B7).
  assert (Hk0 : 0 <= class sz < 20) by (apply class_range; lia).
  assert (Hxin : In x (fl (class sz))).
  { apply (rep_mem _ _ _ H); auto. eauto. }
  destruct (in_split _ _ Hxin) as (f1 & f2 & Efl).
  pose proof (rep_dll _ _ _ H _ Hk0) as Hd. rewrite Efl in Hd.
  destruct (dll_links _ _ _ _ _ _ Hd) as [Lp Ls].
  pose proof (dll_nonzero _ _ _ _ Hd) as Hnz.
  assert (Hsep : forall w w', In w (fl (class sz)) -> In w' (fl (class sz)) ->
            w = w' \/ w + 16 <= w' \/ w' + 16 <= w).
  { intros w w' Hw Hw'.
    destruct (rep_fl_sep _ _ _ _ _ _ _ H Hk0 Hk0 Hw Hw') as [[]|]; auto. }
  assert (Hbnd : forall w, In w (fl (class sz)) ->
            mem_heap s + 16 <= w /\ w + 16 <= mem_brk s /\ 0 < w < 2 ^ 32).
  { intros w Hw. destruct (rep_fl_block _ _ _ _ _ H Hk0 Hw) as (sw & Hin & _).
    pose proof (rep_block _ _ _ _ _ _ H Hin).
    pose proof (rep_max _ _ _ H). pose proof (rep_lo _ _ _ H). lia. }
  assert (Hfl : forall z, In z (f1 ++ f2) ->
            exists szz stz, In (z, szz, stz) (l1 ++ (x, sz, Free) :: l2) /\ stz <> Alloc).
  { intros z Hz. assert (Hz' : In z (fl (class sz))) by (rewrite Efl; apply in_mid; auto).
    destruct (rep_fl_block _ _ _ _ _ H Hk0 Hz') as (szz & Hin & _).
    exists szz, Free. split; auto. discriminate. }
  rewrite Efl in Hsep, Hbnd.
  pose proof (Hbnd x ltac:(apply in_mid; auto)) as Bx.
  unfold delete_node, HDRP, PRED_PTR, SUCC_PTR, NULL; unfold WSIZE.
  apply wp_bind, wp_GET_SIZE; try lia.
  rewrite B6. simpl abit. rewrite header_size by auto.
  change (fst (select_list 19 0 sz)) with (class sz).
  apply wp_bind, wp_PRED; try lia. rewrite Lp.
  destruct f2 as [|y f2]; cbn [hd] in *.
  - (* no predecessor *)
    change (negb (0 =? 0)) with false. cbv iota.
    apply wp_bind, wp_SUCC; try lia. rewrite Ls.
    destruct (exists_last_or_nil f1) as [->|(g & z & ->)].
    + (* list becomes empty *)
      simpl last. change (negb (0 =? 0)) with false. cbv iota.
      apply wp_set_list.
      assert (Hfr : frame ([] ++ []) (mem s) (mem s)) by apply frame_refl.
      split; [|split; [split; reflexivity|split; [reflexivity|]]].
      * eapply rep_unlink with (f1 := []) (f2 := []); eauto; sts;
          try (split; reflexivity); try reflexivity; try congruence.
        -- intros k Hk Hne. destruct (Z.eqb_spec k (class sz)); congruence.
        -- rewrite Z.eqb_refl. reflexivity.
      * split; [eapply frame_keeps; eauto|].
        eapply frame_mono; [|exact Hfr]. rewrite Efl. clear.
        intros w Hw. rewrite !in_app_iff in *. simpl in *. tauto.
    + (* x was last: its successor becomes last *)
      rewrite last_last in *.
      assert (Hz : In z ((g ++ [z]) ++ x :: [])) by (rewrite !in_app_iff; simpl; auto).
      assert (z <> 0) by (intros ->; contradiction).
      pose proof (Hbnd z Hz).
      replace (negb (z =? 0)) with true by (symmetry; apply negb_true_iff, Z.eqb_neq; auto).
      cbv iota.
      apply wp_bind, wp_SUCC; try lia. rewrite Ls.
      apply wp_SET_PTR; try lia.
      assert (Hfr : frame ((g ++ [z]) ++ []) (mem s) (store32 (mem s) z 0)).
      { apply frame_store; [apply frame_refl|]. exists z. split; [|lia].
        rewrite !in_app_iff; simpl; auto. }
      split; [|split; [split; reflexivity|split; [reflexivity|]]].
      * eapply rep_unlink with (f1 := g ++ [z]) (f2 := []); eauto; sts;
          try (split; reflexivity); try reflexivity; try congruence.
        -- rewrite (dll_hd _ _ _ _ Hd); destruct g; reflexivity.
        -- intros _. rewrite last_last. apply load32_store32_same.
        -- intros w Hw [Hl|Hl]; [destruct g; discriminate|].
           rewrite last_last in Hl. apply load32_store32_other.
           assert (Hw' : In w ((g ++ [z]) ++ x :: [])).
           { rewrite app_nil_r in Hw. apply in_or_app. auto. }
           destruct (Hsep w z Hw' Hz); [congruence|lia].
        -- intros w Hw _. apply load32_store32_other.
           assert (Hw' : In w ((g ++ [z]) ++ x :: [])).
           { rewrite app_nil_r in Hw. apply in_or_app. auto. }
           destruct (Hsep w z Hw' Hz); [subst; lia|lia].
      * split; [eapply frame_keeps; eauto|].
        eapply frame_mono; [|exact Hfr]. rewrite Efl. clear.
        intros w Hw. rewrite !in_app_iff in *. simpl in *. tauto.
  - (* there is a predecessor y *)
    assert (Hy : In y (f1 ++ x :: y :: f2)) by (rewrite !in_app_iff; simpl; auto).
    assert (y <> 0) by (intros ->; contradiction).
    pose proof (Hbnd y Hy).
    assert (Hxl : In x (f1 ++ x :: y :: f2)) by (apply in_mid; auto).
    assert (Hxy : x + 16 <= y \/ y + 16 <= x).
    { destruct (Hsep x y Hxl Hy) as [E|]; [|lia].
      pose proof (rep_nodup _ _ _ H _ Hk0) as Hnd. rewrite Efl in Hnd.
      apply NoDup_remove_2 in Hnd. exfalso. apply Hnd.
      rewrite E. apply in_or_app. right. left. reflexivity. }
    replace (negb (y =? 0)) with true by (symmetry; apply negb_true_iff, Z.eqb_neq; auto).
    cbv iota.
    apply wp_bind, wp_SUCC; try lia. rewrite Ls.
    destruct (exists_last_or_nil f1) as [->|(g & z & ->)].
    + (* x was the head *)
      simpl last. change (negb (0 =? 0)) with false. cbv iota.
      apply wp_bind, wp_PRED; try lia. rewrite Lp.
      apply wp_bind, wp_SET_PTR; try lia. sts.
      apply wp_bind, wp_PRED; sts; try lia.
      rewrite load32_store32_other by lia. rewrite Lp.
      apply wp_set_list.
      assert (Hfr : frame ([] ++ y :: f2) (mem s) (store32 (mem s) (y + 4) 0)).
      { apply frame_store; [apply frame_refl|]. exists y. split; [|lia].
        simpl; auto. }
      split; [|split; [split; reflexivity|split; [reflexivity|]]].
      * eapply rep_unlink with (f1 := []) (f2 := y :: f2); eauto; sts;
          try (split; reflexivity); try reflexivity; try congruence.
        -- intros k Hk Hne. destruct (Z.eqb_spec k (class sz)); congruence.
        -- rewrite Z.eqb_refl. reflexivity.
        -- intros _. simpl. apply load32_store32_same.
        -- intros w Hw _. apply load32_store32_other.
           assert (Hw' : In w ([] ++ x :: y :: f2)) by (simpl in *; tauto).
           destruct (Hsep w y Hw' Hy); [subst; lia|lia].
        -- intros w Hw [Hl|Hl]; [discriminate|]. simpl in Hl.
           apply load32_store32_other.
           assert (Hw' : In w ([] ++ x :: y :: f2)) by (simpl in *; tauto).
           destruct (Hsep w y Hw' Hy); [congruence|lia].
      * split; [eapply frame_keeps; eauto|].
        eapply frame_mono; [|exact Hfr]. rewrite Efl. clear.
        intros w Hw. rewrite !in_app_iff in *. simpl in *. tauto.
    + (* x in the middle *)
      rewrite last_last in *.
      assert (Hz : In z ((g ++ [z]) ++ x :: y :: f2)) by (rewrite !in_app_iff; simpl; auto).
      assert (z <> 0) by (intros ->; contradiction).
      pose proof (Hbnd z Hz).
      assert (Hxz : x + 16 <= z \/ z + 16 <= x).
      { destruct (Hsep x z Hxl Hz) as [E|]; [|lia].
        pose proof (rep_nodup _ _ _ H _ Hk0) as Hnd. rewrite Efl in Hnd.
        apply NoDup_remove_2 in Hnd. exfalso. apply Hnd.
        rewrite E. apply in_or_app. left. apply in_or_app. right. left. reflexivity. }
      assert (Hyz : y + 16 <= z \/ z + 16 <= y).
      { destruct (Hsep y z Hy Hz) as [E|]; [|lia].
        pose proof (rep_nodup _ _ _ H _ Hk0) as Hnd. rewrite Efl in Hnd.
        rewrite <- app_assoc in Hnd. apply NoDup_remove_2 in Hnd.
        exfalso. apply Hnd. rewrite <- E. apply in_or_app. right. right. left. reflexivity. }
      replace (negb (z =? 0)) with true by (symmetry; apply negb_true_iff, Z.eqb_neq; auto).
      cbv iota.
      apply wp_bind, wp_PRED; try lia. rewrite Lp.
      apply wp_bind, wp_SUCC; try lia. rewrite Ls.
      apply wp_bind, wp_SET_PTR; try lia. sts.
      apply wp_bind, wp_SUCC; sts; try lia.
      rewrite load32_store32_other by lia. rewrite Ls.
      apply wp_bind, wp_PRED; sts; try lia.
      rewrite load32_store32_other by lia. rewrite Lp.
      apply wp_SET_PTR; sts; try lia.
      assert (Hfr : frame ((g ++ [z]) ++ y :: f2) (mem s)
                      (store32 (store32 (mem s) (y + 4) z) z y)).
      { apply frame_store; [apply frame_store; [apply frame_refl|]|].
        - exists y. split; [|lia]. rewrite !in_app_iff; simpl; auto.
        - exists z. split; [|lia]. rewrite !in_app_iff; simpl; auto. }
      split; [|split; [split; reflexivity|split; [reflexivity|]]].
      * eapply rep_unlink with (f1 := g ++ [z]) (f2 := y :: f2); eauto; sts;
          try (split; reflexivity); try reflexivity; try congruence.
        -- rewrite (dll_hd _ _ _ _ Hd); destruct g; reflexivity.
        -- intros _. rewrite last_last. simpl hd.
           rewrite load32_store32_same. apply wrap32_small. lia.
        -- intros _. rewrite last_last. simpl hd.
           rewrite load32_store32_other by lia.
           rewrite load32_store32_same. apply wrap32_small. lia.
        -- intros w Hw [Hl|Hl]; [destruct g; discriminate|].
           rewrite last_last in Hl.
           assert (Hw' : In w ((g ++ [z]) ++ x :: y :: f2)).
           { apply in_app_iff in Hw. apply in_or_app. simpl in *. tauto. }
           rewrite load32_store32_other
             by (destruct (Hsep w z Hw' Hz); [congruence|lia]).
           apply load32_store32_other.
           destruct (Hsep w y Hw' Hy); [subst; lia|lia].
        -- intros w Hw [Hl|Hl]; [discriminate|]. simpl in Hl.
           assert (Hw' : In w ((g ++ [z]) ++ x :: y :: f2)).
           { apply in_app_iff in Hw. apply in_or_app. simpl in *. tauto. }
           rewrite load32_store32_other
             by (destruct (Hsep w z Hw' Hz); [subst; lia|lia]).
           apply load32_store32_other.
           destruct (Hsep w y Hw' Hy); [congruence|lia].
      * split; [eapply frame_keeps; eauto|].
        eapply frame_mono; [|exact Hfr]. rewrite Efl. clear.
        intros w Hw. rewrite !in_app_iff in *. simpl in *. tauto.
Qed.

(** ** insert_node *)
Lemma rep_unlinked_notin s l1 x sz l2 fl k :
  rep s (l1 ++ (x, sz, Unlinked) :: l2) fl -> 0 <= k < 20 -> ~ In x (fl k).
Proof.
  intros H Hk Hin.
  destruct (rep_fl_block _ _ _ _ _ H Hk Hin) as (sz' & Hin' & _).
  assert (Hx : In (x, sz, Unlinked) (l1 ++ (x, sz, Unlinked) :: l2))
    by (apply in_mid; auto).
  destruct (rep_addr_inj _ _ _ _ _ _ _ _ H Hx Hin'). discriminate.
Qed.

Lemma rep_link s s' l1 x sz l2 fl :
  rep s (l1 ++ (x, sz, Unlinked) :: l2) fl ->
  same_heap s s' -> mem_brk s' = mem_brk s ->
  frame (x :: fl (class sz)) (mem s) (mem s') ->
  (forall k, 0 <= k < 20 -> k <> class sz ->
             segregated_free_lists s' k = segregated_free_lists s k) ->
  segregated_free_lists s' (class sz) = x ->
  load32 (mem s') x = segregated_free_lists s (class sz) ->
  load32 (mem s') (x + 4) = 0 ->
  (fl (class sz) <> [] ->
   load32 (mem s') (segregated_free_lists s (class sz) + 4) = x) ->
  (forall z, In z (fl (class sz)) -> load32 (mem s') z = load32 (mem s) z) ->
  (forall z, In z (fl (class sz)) -> z <> segregated_free_lists s (class sz) ->
             load32 (mem s') (z + 4) = load32 (mem s) (z + 4)) ->
  rep s' (l1 ++ (x, sz, Free) :: l2) (fl_ins fl (class sz) x).
Proof.
  intros H (Hheap & Hmax) Hbrk Hfr Hlists Hhead Hp Hs Hh H1 H2.
  assert (Hx : In (x, sz, Unlinked) (l1 ++ (x, sz, Unlinked) :: l2))
    by (apply in_mid; auto).
  pose proof (rep_block _ _ _ _ _ _ H Hx) as Bx.
  assert (Hk0 : 0 <= class sz < 20) by (apply class_range; lia).
  assert (Hblk : forall z, In z (x :: fl (class sz)) ->
            exists szz stz, In (z, szz, stz) (l1 ++ (x, sz, Unlinked) :: l2)).
  { intros z [<-|Hz]; [eauto|].
    destruct (rep_fl_block _ _ _ _ _ H Hk0 Hz) as (szz & Hin & _). eauto. }
  assert (Hload : forall b, mem_heap s <= b -> b + 4 <= mem_heap s + 16 \/ mem_brk s - 4 <= b ->
            load32 (mem s') b = load32 (mem s) b).
  { intros b Hb1 Hb2. eapply frame_load32; eauto. intros z Hz.
    destruct (Hblk z Hz) as (szz & stz & Hin).
    pose proof (rep_block _ _ _ _ _ _ H Hin). lia. }
  pose proof (rep_lo _ _ _ H). pose proof (rep_max _ _ _ H).
  pose proof (rep_prologue _ _ _ H) as [P1 P2].
  pose proof (rep_sized _ _ _ H) as Hsz. pose proof (rep_contig _ _ _ H) as Hc.
  constructor.
  - lia.
  - lia.
  - rewrite Hheap, !Hload by lia. auto.
  - rewrite Hheap, Hbrk. eapply contig_status; eauto.
  - rewrite Hbrk, Hload by lia. eapply rep_epilogue; eauto.
  - assert (Ht : Forall (tag_ok (mem s')) (l1 ++ (x, sz, Unlinked) :: l2)).
    { eapply tags_frame; eauto using rep_tags. }
    rewrite Forall_app in *. destruct Ht as [Ht1 Ht2]. split; auto.
    apply Forall_cons_iff in Ht2. destruct Ht2 as [Ht2 Ht3].
    constructor; auto.
  - intros k Hk. unfold fl_ins. destruct (Z.eqb_spec k (class sz)) as [->|Hne].
    + rewrite Hhead. eapply dll_push; eauto.
      * apply (rep_dll _ _ _ H); auto.
      * lia.
      * apply (rep_nodup _ _ _ H); auto.
    + rewrite Hlists by auto.
      apply dll_frame with (m := mem s); [|apply (rep_dll _ _ _ H); auto].
      intros z Hz.
      destruct (rep_fl_block _ _ _ _ _ H Hk Hz) as (szz & Hinz & Hcz).
      pose proof (rep_block _ _ _ _ _ _ H Hinz).
      assert (Hfar : forall z', In z' (x :: fl (class sz)) -> z + 16 <= z' \/ z' + 16 <= z).
      { intros z' [<-|Hz'].
        - destruct (rep_sep _ _ _ _ _ _ _ _ _ H Hinz Hx) as [E|?];
            [inversion E|lia].
        - destruct (rep_fl_sep _ _ _ _ _ _ _ H Hk Hk0 Hz Hz') as [[_ E]|?];
            [contradiction|lia]. }
      split; eapply frame_load32; eauto; intros z' Hz';
        specialize (Hfar z' Hz'); lia.
  - intros k Hk. unfold fl_ins. destruct (Z.eqb_spec k (class sz)) as [->|Hne].
    + constructor; [eapply rep_unlinked_notin; eauto|apply (rep_nodup _ _ _ H); auto].
    + apply (rep_nodup _ _ _ H); auto.
  - intros k y Hk. unfold fl_ins.
    pose proof (rep_mem _ _ _ H k y Hk) as Hm.
    destruct (Z.eqb_spec k (class sz)) as [->|Hne].
    + split.
      * intros [<-|Hin].
        -- exists sz. split; auto. apply in_mid; auto.
        -- apply Hm in Hin. destruct Hin as (sy & Hin & Hcl).
           exists sy. split; auto. apply in_mid in Hin. apply in_mid.
           destruct Hin as [E|Hin]; [inversion E|auto].
      * intros (sy & Hin & Hcl). apply in_mid in Hin.
        destruct Hin as [E|Hin]; [inversion E; left; reflexivity|].
        right. apply Hm. exists sy. split; auto. apply in_mid. auto.
    + rewrite Hm. split; intros (sy & Hin & Hcl); exists sy; split; auto;
        apply in_mid in Hin; apply in_mid;
        (destruct Hin as [E|Hin]; [inversion E; subst; congruence|auto]).
Qed.

Lemma insert_node_spec fuel s l1 x sz l2 fl :
  rep s (l1 ++ (x, sz, Unlinked) :: l2) fl -> (1 <= fuel)%nat ->
  wp (insert_node fuel x sz)
     (fun _ s' =>
        rep s' (l1 ++ (x, sz, Free) :: l2) (fl_ins fl (class sz) x) /\
        same_heap s s' /\ mem_brk s' = mem_brk s /\
        keeps_payloads (l1 ++ (x, sz, Unlinked) :: l2) s s' /\
        frame (x :: fl (class sz)) (mem s) (mem s')) s.
Proof.
  intros H Hfuel.
  assert (Hx : In (x, sz, Unlinked) (l1 ++ (x, sz, Unlinked) :: l2))
    by (apply in_mid; auto).
  pose proof (rep_block _ _ _ _ _ _ H Hx) as (B1 & B2 & B3 & B4 & B5 & B6 & B7).
  assert (Hk0 : 0 <= class sz < 20) by (apply class_range; lia).
  pose proof (rep_dll _ _ _ H _ Hk0) as Hd.
  pose proof (rep_lo _ _ _ H). pose proof (rep_max _ _ _ H).
  assert (HL : forall z, In z (x :: fl (class sz)) ->
            exists szz stz, In (z, szz, stz) (l1 ++ (x, sz, Unlinked) :: l2) /\ stz <> Alloc).
  { intros z [<-|Hz]; [exists sz, Unlinked; split; auto; discriminate|].
    destruct (rep_fl_block _ _ _ _ _ H Hk0 Hz) as (szz & Hin & _).
    exists szz, Free. split; auto. discriminate. }
  unfold insert_node.
  destruct (select_list 19 0 sz) as [list sh] eqn:Esel.
  assert (Elist : list = class sz) by (unfold class; rewrite Esel; reflexivity).
  assert (Esh : sh = snd (select_list 19 0 sz)) by (rewrite Esel; reflexivity).
  subst list.
  apply wp_bind, wp_get_list.
  destruct fuel as [|fuel]; [lia|]. cbn [insert_walk].
  unfold HDRP, PRED_PTR, SUCC_PTR, NULL; unfold WSIZE.
  assert (Hcases : fl (class sz) = [] \/ exists h r, fl (class sz) = h :: r)
    by (destruct (fl (class sz)); eauto).
  destruct Hcases as [Efl|(h & r & Efl)].
  - (* empty list *)
    rewrite Efl in Hd. simpl in Hd. rewrite Hd. change (0 =? 0) with true. cbv iota.
    apply wp_bind, wp_ret. change (negb (0 =? 0)) with false. cbv iota.
    apply wp_bind, wp_SET_PTR; try lia. sts.
    apply wp_bind, wp_SET_PTR; sts; try lia.
    apply wp_set_list.
    assert (Hfr : frame (x :: fl (class sz)) (mem s)
                    (store32 (store32 (mem s) x 0) (x + 4) 0)).
    { apply frame_store; [apply frame_store; [apply frame_refl|]|];
        exists x; (split; [left; reflexivity|lia]). }
    split; [|split; [split; reflexivity|split; [reflexivity|]]].
    + eapply rep_link; eauto; sts; try (split; reflexivity); try reflexivity;
        rewrite ?Efl; try congruence.
      * intros k Hk Hne. destruct (Z.eqb_spec k (class sz)); congruence.
      * rewrite Z.eqb_refl. reflexivity.
      * rewrite load32_store32_other by lia. rewrite load32_store32_same, Hd.
        reflexivity.
      * apply load32_store32_same.
      * intros z [].
      * intros z [].
    + split; [eapply frame_keeps; eauto|exact Hfr].
  - (* the block goes in front of the head h *)
    rewrite Efl in Hd. cbn [dll] in Hd. destruct Hd as (Eh & Hh0 & Hsucc & Hd).
    assert (Hhin : In h (fl (class sz))) by (rewrite Efl; left; reflexivity).
    destruct (rep_fl_block _ _ _ _ _ H Hk0 Hhin) as (hsz & Hinh & Hch).
    pose proof (rep_block _ _ _ _ _ _ H Hinh) as (C1 & C2 & C3 & C4 & C5 & C6 & C7).
    assert (Hxh : x + 16 <= h \/ h + 16 <= x).
    { destruct (rep_sep _ _ _ _ _ _ _ _ _ H Hx Hinh) as [E|?]; [inversion E|lia]. }
    rewrite Eh.
    replace (h =? 0) with false by (symmetry; apply Z.eqb_neq; auto). cbv iota.
    apply wp_bind, wp_bind, wp_GET_SIZE; try lia.
    rewrite C6. simpl abit. rewrite header_size by auto.
    replace (sh >? hsz) with false.
    2:{ symmetry. rewrite Z.gtb_ltb. apply Z.ltb_ge. subst sh.
        apply shifted_le; auto; lia. }
    cbv iota. apply wp_ret.
    replace (negb (h =? 0)) with true
      by (symmetry; apply negb_true_iff, Z.eqb_neq; auto).
    change (negb (0 =? 0)) with false. cbv iota.
    apply wp_bind, wp_SET_PTR; try lia. sts.
    apply wp_bind, wp_SET_PTR; sts; try lia.
    apply wp_bind, wp_SET_PTR; sts; try lia.
    apply wp_set_list.
    assert (Hfr : frame (x :: fl (class sz)) (mem s)
              (store32 (store32 (store32 (mem s) x h) (h + 4) x) (x + 4) 0)).
    { apply frame_store; [apply frame_store; [apply frame_store; [apply frame_refl|]|]|].
      - exists x. split; [left; reflexivity|lia].
      - exists h. split; [right; exact Hhin|lia].
      - exists x. split; [left; reflexivity|lia]. }
    assert (Hsep : forall z, In z (fl (class sz)) ->
              (z = h \/ z + 16 <= h \/ h + 16 <= z) /\ (x + 16 <= z \/ z + 16 <= x)).
    { intros z Hz. split.
      - destruct (rep_fl_sep _ _ _ _ _ _ _ H Hk0 Hk0 Hz Hhin) as [[]|]; auto.
      - destruct (rep_fl_block _ _ _ _ _ H Hk0 Hz) as (szz & Hinz & _).
        pose proof (rep_block _ _ _ _ _ _ H Hinz).
        destruct (rep_sep _ _ _ _ _ _ _ _ _ H Hx Hinz) as [E|?]; [inversion E|lia]. }
    split; [|split; [split; reflexivity|split; [reflexivity|]]].
    + eapply rep_link; eauto; sts; try (split; reflexivity); try reflexivity.
      * intros k Hk Hne. destruct (Z.eqb_spec k (class sz)); congruence.
      * rewrite Z.eqb_refl. reflexivity.
      * rewrite !load32_store32_other by lia.
        rewrite load32_store32_same, Eh. apply wrap32_small. lia.
      * apply load32_store32_same.
      * intros _. rewrite Eh. rewrite load32_store32_other by lia.
        rewrite load32_store32_same. apply wrap32_small. lia.
      * intros z Hz. destruct (Hsep z Hz).
        rewrite !load32_store32_other by lia. reflexivity.
      * intros z Hz Hne. rewrite Eh in Hne. destruct (Hsep z Hz).
        rewrite !load32_store32_other by lia. reflexivity.
    + split; [eapply frame_keeps; eauto|exact Hfr].
Qed.

(** ** Rewriting the tags of a run of blocks *)
Lemma land2_cases w : Z.land w 2 = 0 \/ Z.land w 2 = 2.
Proof.
  rewrite land_2.
  pose proof (Z.mod_pos_bound w 4 ltac:(lia)).
  assert (C : w mod 4 = 0 \/ w mod 4 = 1 \/ w mod 4 = 2 \/ w mod 4 = 3) by lia.
  destruct C as [ -> | [ -> | [ -> | -> ] ] ]; auto.
Qed.

Lemma PACK_bit sz a : sz mod 8 = 0 -> (a = 0 \/ a = 1) -> PACK sz a = sz + a.
Proof.
  intros H [->| ->]; [rewrite PACK_0|rewrite PACK_1]; auto; lia.
Qed.

Lemma put_value sz a w :
  sz mod 8 = 0 -> (a = 0 \/ a = 1) ->
  footer_ok (Z.lor (PACK sz a) (Z.land w 2)) sz a.
Proof.
  intros Hsz Ha. unfold footer_ok.
  destruct (land2_cases w) as [->| ->].
  - left. rewrite Z.lor_0_r. apply PACK_bit; auto.
  - right. unfold PACK. destruct Ha as [->| ->]; simpl Z.land.
    + rewrite Z.lor_0_r. rewrite lor_small; auto; lia.
    + rewrite <- Z.lor_assoc. simpl (Z.lor 1 2). rewrite lor_small; auto; lia.
Qed.

Lemma put_value_hdr sz a w :
  sz mod 8 = 0 -> (a = 0 \/ a = 1) -> Z.land w 2 = 0 ->
  Z.lor (PACK sz a) (Z.land w 2) = sz + a.
Proof.
  intros Hsz Ha ->. rewrite Z.lor_0_r. apply PACK_bit; auto.
Qed.

Lemma header_tag sz a : sz mod 8 = 0 -> (a = 0 \/ a = 1) -> Z.land (sz + a) 2 = 0.
Proof.
  intros. replace (sz + a) with (sz + a + 0) by lia. apply ratag_of_tag; auto.
Qed.

Lemma header_alloc sz a : sz mod 8 = 0 -> (a = 0 \/ a = 1) -> Z.land (sz + a) 1 = a.
Proof.
  intros. replace (sz + a) with (sz + a + 0) by lia. apply alloc_of_tag; auto.
Qed.

Lemma size_of_size sz : sz mod 8 = 0 -> Z.land sz (Z.lnot 7) = sz.
Proof. intros. rewrite <- (Z.add_0_r sz) at 1. apply size_of_tag; auto; lia. Qed.

Lemma tag_of_size sz : sz mod 8 = 0 -> Z.land sz 2 = 0.
Proof. intros. rewrite <- (Z.add_0_r sz). apply header_tag; auto. Qed.

Lemma alloc_of_size sz : sz mod 8 = 0 -> Z.land sz 1 = 0.
Proof. intros. rewrite <- (Z.add_0_r sz). apply header_alloc; auto. Qed.

Lemma footer_ok_range w sz a :
  0 <= sz < 2 ^ 31 -> (a = 0 \/ a = 1) -> footer_ok w sz a -> 0 <= w < 2 ^ 32.
Proof. intros Hsz Ha [->| ->]; lia. Qed.

(** Rewriting the boundary tags of a run of blocks that are not linked
    into any list: everything outside the run is untouched. *)
Lemma rep_replace s s' l1 mid mid' l2 fl a e :
  rep s (l1 ++ mid ++ l2) fl ->
  contig (mem_heap s + 16) l1 a -> contig a mid e -> contig a mid' e ->
  same_heap s s' -> mem_brk s' = mem_brk s ->
  segregated_free_lists s' = segregated_free_lists s ->
  no_free mid -> no_free mid' ->
  Forall (tag_ok (mem s')) mid' ->
  (forall i, i < a - 4 \/ e - 4 <= i -> mem s' i = mem s i) ->
  rep s' (l1 ++ mid' ++ l2) fl.
Proof.
  intros H Hc1 Hcm Hcm' (Hheap & Hmax) Hbrk Hlists Hnf Hnf' Htm Hfr.
  pose proof (rep_sized _ _ _ H) as Hsz.
  apply sized_app in Hsz. destruct Hsz as [Hs1 Hsz].
  apply sized_app in Hsz. destruct Hsz as [Hsm Hs2].
  pose proof (rep_contig _ _ _ H) as Hc.
  apply contig_app in Hc. destruct Hc as (a' & Hc1' & Hc).
  apply contig_app in Hc. destruct Hc as (e' & Hcm_ & Hc2).
  assert (Ha : a' = a).
  { clear - Hc1 Hc1'. revert Hc1 Hc1'. generalize (mem_heap s + 16).
    induction l1 as [|[[x sz] st] l1 IH]; simpl; intros z; [congruence|].
    intros [_ A] [_ B]. eauto. }
  subst a'.
  assert (He : e' = e).
  { clear - Hcm Hcm_. revert Hcm Hcm_. generalize a.
    induction mid as [|[[x sz] st] mid IH]; simpl; intros z; [congruence|].
    intros [_ A] [_ B]. eauto. }
  subst e'.
  pose proof (contig_le _ _ _ Hs1 Hc1). pose proof (contig_le _ _ _ Hsm Hcm).
  pose proof (contig_le _ _ _ Hs2 Hc2).
  pose proof (rep_lo _ _ _ H). pose proof (rep_max _ _ _ H).
  pose proof (rep_prologue _ _ _ H) as [P1 P2].
  pose proof (rep_tags _ _ _ H) as Ht.
  apply Forall_app in Ht. destruct Ht as [Ht1 Ht].
  apply Forall_app in Ht. destruct Ht as [_ Ht2].
  assert (Hload : forall b, b + 4 <= a - 4 \/ e - 4 <= b ->
            load32 (mem s') b = load32 (mem s) b).
  { intros b Hb. apply load32_ext. intros i Hi. apply Hfr. lia. }
  constructor.
  - lia.
  - lia.
  - rewrite Hheap, !Hload by lia. auto.
  - rewrite Hheap, Hbrk. apply contig_app. exists a. split; auto.
    apply contig_app. exists e. auto.
  - rewrite Hbrk, Hload by lia. eapply rep_epilogue; eauto.
  - apply Forall_app. split; [|apply Forall_app; split; auto].
    + rewrite Forall_forall in *. intros [[x sz] st] Hin.
      specialize (Ht1 _ Hin). cbn in *.
      pose proof (contig_bounds _ _ _ _ _ _ Hs1 Hc1 Hin).
      rewrite !Hload by lia. auto.
    + rewrite Forall_forall in *. intros [[x sz] st] Hin.
      specialize (Ht2 _ Hin). cbn in *.
      pose proof (contig_bounds _ _ _ _ _ _ Hs2 Hc2 Hin).
      rewrite !Hload by lia. auto.
  - intros k Hk. rewrite Hlists.
    apply dll_frame with (m := mem s); [|apply (rep_dll _ _ _ H); auto].
    intros z Hz.
    destruct (rep_fl_block _ _ _ _ _ H Hk Hz) as (szz & Hinz & _).
    apply in_app_iff in Hinz. destruct Hinz as [Hinz|Hinz].
    + pose proof (contig_bounds _ _ _ _ _ _ Hs1 Hc1 Hinz).
      rewrite !Hload by lia. auto.
    + apply in_app_iff in Hinz. destruct Hinz as [Hinz|Hinz].
      * exfalso. eapply Hnf; eauto.
      * pose proof (contig_bounds _ _ _ _ _ _ Hs2 Hc2 Hinz).
        rewrite !Hload by lia. auto.
  - apply (rep_nodup _ _ _ H).
  - intros k y Hk. rewrite (rep_mem _ _ _ H k y Hk).
    split; intros (sy & Hin & Hcl); exists sy; split; auto;
      rewrite !in_app_iff in *;
      (destruct Hin as [Hin|[Hin|Hin]]; auto; exfalso;
       first [eapply Hnf; eauto; fail | eapply Hnf'; eauto]).
Qed.

(** Bytes of allocated payloads outside the rewritten run survive. *)
Lemma replace_keeps s s' l1 mid l2 fl a e :
  rep s (l1 ++ mid ++ l2) fl ->
  contig (mem_heap s + 16) l1 a -> contig a mid e ->
  (forall i, i < a - 4 \/ e - 4 <= i -> mem s' i = mem s i) ->
  (forall x sz i, In (x, sz, Alloc) mid -> x <= i < x + sz - 8 ->
                  mem s' i = mem s i) ->
  keeps_payloads (l1 ++ mid ++ l2) s s'.
Proof.
  intros H Hc1 Hcm Hfr Hmid x sz i Hin Hi.
  pose proof (rep_sized _ _ _ H) as Hsz.
  apply sized_app in Hsz. destruct Hsz as [Hs1 Hsz].
  apply sized_app in Hsz. destruct Hsz as [Hsm Hs2].
  pose proof (rep_contig _ _ _ H) as Hc.
  apply contig_app in Hc. destruct Hc as (a' & Hc1' & Hc).
  apply contig_app in Hc. destruct Hc as (e' & Hcm_ & Hc2).
  assert (Ha : a' = a).
  { clear - Hc1 Hc1'. revert Hc1 Hc1'. generalize (mem_heap s + 16).
    induction l1 as [|[[y sy] st] l1 IH]; simpl; intros z; [congruence|].
    intros [_ A] [_ B]. eauto. }
  subst a'.
  assert (He : e' = e).
  { clear - Hcm Hcm_. revert Hcm Hcm_. generalize a.
    induction mid as [|[[y sy] st] mid IH]; simpl; intros z; [congruence|].
    intros [_ A] [_ B]. eauto. }
  subst e'.
  rewrite !in_app_iff in Hin. destruct Hin as [Hin|[Hin|Hin]].
  - pose proof (contig_bounds _ _ _ _ _ _ Hs1 Hc1 Hin). apply Hfr. lia.
  - eapply Hmid; eauto.
  - pose proof (contig_bounds _ _ _ _ _ _ Hs2 Hc2 Hin). apply Hfr. lia.
Qed.

(** What the words around a block say about its physical neighbours. *)
(** ** The physical neighbours of a block *)
Lemma prev_view s l1 x sz st l2 fl :
  rep s (l1 ++ (x, sz, st) :: l2) fl ->
  exists pv pa,
    Z.land (load32 (mem s) (x - 8)) (Z.lnot 7) = pv /\
    Z.land (load32 (mem s) (x - pv - 4)) 1 = pa /\
    Z.land (load32 (mem s) (x - pv - 4)) 2 = 0 /\
    mem_heap s + 4 <= x - pv - 4 /\ 8 <= pv /\
    ((l1 = [] /\ pa = 1) \/
     (exists l1' p psz stp, l1 = l1' ++ [(p, psz, stp)] /\ pv = psz /\
                            p = x - psz /\ pa = abit stp)).
Proof.
  intros H. pose proof (rep_contig _ _ _ H) as Hc.
  pose proof (rep_prologue _ _ _ H) as [P1 P2].
  destruct (exists_last_or_nil l1) as [->|(l1' & [[p psz] stp] & ->)].
  - simpl in Hc. destruct Hc as [Ex _].
    exists 8, 1. subst x.
    replace (mem_heap s + 16 - 8 - 4) with (mem_heap s + 4) by lia.
    replace (mem_heap s + 16 - 8) with (mem_heap s + 8) by lia.
    rewrite P1, P2. repeat split; try reflexivity; try lia. left; auto.
  - assert (Hp : In (p, psz, stp) ((l1' ++ [(p, psz, stp)]) ++ (x, sz, st) :: l2)).
    { rewrite !in_app_iff. simpl. auto. }
    pose proof (rep_block _ _ _ _ _ _ H Hp) as (B1 & B2 & B3 & B4 & B5 & B6 & B7).
    apply contig_mid in Hc. destruct Hc as [Hc _].
    apply contig_last in Hc.
    exists psz, (abit stp).
    replace (x - 8) with (p + psz - 8) by lia.
    rewrite (footer_size _ _ _ B4 (abit_cases stp) B7).
    replace (x - psz - 4) with (p - 4) by lia. rewrite B6.
    rewrite header_alloc, header_tag by (auto using abit_cases).
    repeat split; try lia. right. exists l1', p, psz, stp.
    repeat split; auto; lia.
Qed.

Lemma next_view s l1 x sz st l2 fl :
  rep s (l1 ++ (x, sz, st) :: l2) fl ->
  exists na,
    Z.land (load32 (mem s) (x + sz - 4)) 1 = na /\
    x + sz <= mem_brk s /\
    ((l2 = [] /\ na = 1 /\ load32 (mem s) (x + sz - 4) = 1) \/
     (exists n nsz stn l2', l2 = (n, nsz, stn) :: l2' /\ n = x + sz /\
                            na = abit stn /\
                            load32 (mem s) (x + sz - 4) = nsz + abit stn)).
Proof.
  intros H. pose proof (rep_contig _ _ _ H) as Hc.
  apply contig_mid in Hc. destruct Hc as [_ Hc].
  destruct l2 as [|[[n nsz] stn] l2'].
  - simpl in Hc. exists 1. rewrite Hc, (rep_epilogue _ _ _ H).
    repeat split; try lia. left; auto.
  - simpl in Hc. destruct Hc as [En Hc].
    assert (Hn : In (n, nsz, stn) (l1 ++ (x, sz, st) :: (n, nsz, stn) :: l2')).
    { rewrite !in_app_iff. simpl. auto. }
    pose proof (rep_block _ _ _ _ _ _ H Hn) as (B1 & B2 & B3 & B4 & B5 & B6 & B7).
    exists (abit stn). replace (x + sz - 4) with (n - 4) by lia. rewrite B6.
    rewrite header_alloc by (auto using abit_cases).
    repeat split; try lia. right. exists n, nsz, stn, l2'.
    repeat split; auto; lia.
Qed.

Lemma linked_abit st : st <> Unlinked -> (abit st = 1 <-> st = Alloc) /\ (abit st = 0 <-> st = Free).
Proof. destruct st; simpl; intuition congruence. Qed.

(** ** coalesce *)
Lemma app_mid2 {A} (l1 : list A) a l : l1 ++ a :: l = (l1 ++ [a]) ++ l.
Proof. rewrite <- app_assoc. reflexivity. Qed.

Lemma prev_cases s l1 x pa :
  Forall linked l1 ->
  ((l1 = [] /\ pa = 1) \/
   (exists l1' p psz stp, l1 = l1' ++ [(p, psz, stp)] /\
                          Z.land (load32 (mem s) (x - 8)) (Z.lnot 7) = psz /\
                          p = x - psz /\ pa = abit stp)) ->
  (pa = 1 /\ prev_is_alloc l1) \/
  (pa = 0 /\ exists l1' p psz, l1 = l1' ++ [(p, psz, Free)] /\
                               Z.land (load32 (mem s) (x - 8)) (Z.lnot 7) = psz /\
                               p = x - psz).
Proof.
  intros Hl [[-> ->]|(l1' & p & psz & stp & -> & Epv & Ep & ->)].
  - left. split; auto. intros l1' p psz st' E. destruct l1'; discriminate.
  - apply Forall_app in Hl. destruct Hl as [_ Hl].
    apply Forall_cons_iff in Hl. destruct Hl as [Hl _]. unfold linked in Hl. simpl in Hl.
    destruct stp; try congruence.
    + left. split; auto. intros l1'' p' psz' st' E.
      apply app_inj_tail in E. destruct E as [_ E]. congruence.
    + right. split; auto. exists l1', p, psz. auto.
Qed.

Lemma next_cases s x sz l2 na :
  Forall linked l2 ->
  ((l2 = [] /\ na = 1 /\ load32 (mem s) (x + sz - 4) = 1) \/
   (exists n nsz stn l2', l2 = (n, nsz, stn) :: l2' /\ n = x + sz /\
                          na = abit stn /\
                          load32 (mem s) (x + sz - 4) = nsz + abit stn)) ->
  (na = 1 /\ next_is_alloc l2) \/
  (na = 0 /\ exists n nsz l2', l2 = (n, nsz, Free) :: l2' /\ n = x + sz).
Proof.
  intros Hl [( -> & -> & _)|(n & nsz & stn & l2' & -> & En & -> & Eh)].
  - left. split; auto. intros n nsz st' l2' E. discriminate.
  - apply Forall_cons_iff in Hl. destruct Hl as [Hl _]. unfold linked in Hl. simpl in Hl.
    destruct stn; try congruence.
    + left. split; auto. intros n' nsz' st' l2'' E. congruence.
    + right. split; auto. exists n, nsz, l2'. auto.
Qed.

Ltac use_spec L :=
  apply wp_bind; eapply wp_conseq; [eapply L; eauto|].

Lemma in_alloc_mid l1 (b : block) l2 y sy :
  snd b <> Alloc ->
  (In (y, sy, Alloc) (l1 ++ b :: l2) <-> In (y, sy, Alloc) (l1 ++ l2)).
Proof.
  intros Hb. rewrite !in_app_iff. simpl. intuition. subst b. simpl in Hb. congruence.
Qed.

Lemma insert_frame_inside s s' l1 x sz l2 fl k a :
  rep s (l1 ++ (x, sz, Unlinked) :: l2) fl ->
  frame (x :: fl k) (mem s) (mem s') -> 0 <= k < 20 ->
  x + 8 <= a -> a + 4 <= x + sz ->
  load32 (mem s') a = load32 (mem s) a.
Proof.
  intros H Hf Hk Ha1 Ha2. eapply frame_load32; eauto.
  intros z [<-|Hz]; [lia|].
  destruct (rep_fl_block _ _ _ _ _ H Hk Hz) as (szz & Hinz & _).
  assert (Hx : In (x, sz, Unlinked) (l1 ++ (x, sz, Unlinked) :: l2)) by (clear; inapp).
  pose proof (rep_block _ _ _ _ _ _ H Hinz).
  destruct (rep_sep _ _ _ _ _ _ _ _ _ H Hx Hinz) as [E|?]; [inversion E|lia].
Qed.

Lemma insert_frame_block s s' bs fl k x sz y sy st a :
  rep s bs fl -> In (x, sz, Unlinked) bs -> In (y, sy, st) bs ->
  st <> Free -> y <> x ->
  frame (x :: fl k) (mem s) (mem s') -> 0 <= k < 20 ->
  y - 4 <= a -> a + 4 <= y + sy - 4 ->
  load32 (mem s') a = load32 (mem s) a.
Proof.
  intros H Hx Hy Hst Hyx Hf Hk Ha1 Ha2. eapply frame_load32; eauto.
  pose proof (rep_block _ _ _ _ _ _ H Hy).
  intros z [<-|Hz].
  - pose proof (rep_block _ _ _ _ _ _ H Hx).
    destruct (rep_sep _ _ _ _ _ _ _ _ _ H Hx Hy) as [E|?];
      [inversion E; congruence|lia].
  - destruct (rep_fl_block _ _ _ _ _ H Hk Hz) as (szz & Hinz & _).
    pose proof (rep_block _ _ _ _ _ _ H Hinz).
    destruct (rep_sep _ _ _ _ _ _ _ _ _ H Hinz Hy) as [E|?];
      [inversion E; congruence|lia].
Qed.

Lemma delete_frame_header s s' bs fl k y sy st :
  rep s bs fl -> frame (fl k) (mem s) (mem s') -> 0 <= k < 20 ->
  In (y, sy, st) bs ->
  load32 (mem s') (y - 4) = load32 (mem s) (y - 4).
Proof.
  intros H Hf Hk Hin.
  eapply (frame_keeps_headers s s' bs fl (fl k)); eauto.
  intros z Hz. destruct (rep_fl_block _ _ _ _ _ H Hk Hz) as (szz & Hinz & _).
  exists szz, Free. split; auto. discriminate.
Qed.

Lemma coalesce_next fuel s l1 x sz n nsz l2' fl :
  rep s (l1 ++ (x, sz, Free) :: (n, nsz, Free) :: l2') fl ->
  (1 <= fuel)%nat ->
  wp (delete_node x ;;;
      n1 <- NEXT_BLKP x ;;
      delete_node n1 ;;;
      n2 <- NEXT_BLKP x ;;
      nsz' <- GET_SIZE (HDRP n2) ;;
      let size := wrap32 (sz + nsz') in
      PUT (HDRP x) (PACK size 0) ;;;
      f <- FTRP x ;;
      PUT f (PACK size 0) ;;;
      insert_node fuel x size ;;;
      ret x)
     (fun r s' =>
        r = x /\
        rep s' (l1 ++ (x, sz + nsz, Free) :: l2')
            (fl_ins (fl_del (fl_del fl (class sz) x) (class nsz) n)
                    (class (sz + nsz)) x) /\
        same_heap s s' /\ mem_brk s' = mem_brk s /\
        keeps_payloads (l1 ++ (x, sz, Free) :: (n, nsz, Free) :: l2') s s' /\
        load32 (mem s') (n - 4) = load32 (mem s) (n - 4)) s.
Proof.
  intros H Hfuel.
  pose proof (rep_contig _ _ _ H) as Hc0. apply contig_mid in Hc0.
  destruct Hc0 as [Hc1 Hc2]. simpl in Hc2. destruct Hc2 as [En Hc2].
  assert (Hn0 : In (n, nsz, Free) (l1 ++ (x, sz, Free) :: (n, nsz, Free) :: l2'))
    by (clear; inapp).
  assert (Hk1 : 0 <= class sz < 20).
  { apply class_range.
    assert (Hx0 : In (x, sz, Free) (l1 ++ (x, sz, Free) :: (n, nsz, Free) :: l2'))
      by (clear; inapp).
    pose proof (rep_block _ _ _ _ _ _ H Hx0). lia. }
  assert (Hk2 : 0 <= class nsz < 20).
  { apply class_range. pose proof (rep_block _ _ _ _ _ _ H Hn0). lia. }
  use_spec delete_node_spec. intros [] s1 (R1 & [Hh1 Hm1] & Hb1 & K1 & T1).
  assert (Hx1 : In (x, sz, Unlinked) (l1 ++ (x, sz, Unlinked) :: (n, nsz, Free) :: l2'))
    by (clear; inapp).
  assert (Hn1 : In (n, nsz, Free) (l1 ++ (x, sz, Unlinked) :: (n, nsz, Free) :: l2'))
    by (clear; inapp).
  pose proof (rep_block _ _ _ _ _ _ R1 Hx1) as (B1 & B2 & B3 & B4 & B5 & B6 & B7).
  pose proof (rep_block _ _ _ _ _ _ R1 Hn1) as (C1 & C2 & C3 & C4 & C5 & C6 & C7).
  simpl abit in *. rewrite Z.add_0_r in *.
  unfold HDRP; unfold WSIZE.
  apply wp_bind, wp_NEXT_BLKP; try lia.
  rewrite B6, size_of_size by auto.
  replace (x + sz) with n by lia.
  rewrite app_mid2 in R1.
  use_spec delete_node_spec. intros [] s2 (R2 & [Hh2 Hm2] & Hb2 & K2 & T2).
  rewrite <- app_mid2 in R1. rewrite <- app_assoc in R2. cbn [app] in R2.
  assert (Hx2 : In (x, sz, Unlinked) (l1 ++ (x, sz, Unlinked) :: (n, nsz, Unlinked) :: l2'))
    by (clear; inapp).
  assert (Hn2 : In (n, nsz, Unlinked) (l1 ++ (x, sz, Unlinked) :: (n, nsz, Unlinked) :: l2'))
    by (clear; inapp).
  pose proof (rep_block _ _ _ _ _ _ R2 Hx2) as (D1 & D2 & D3 & D4 & D5 & D6 & D7).
  pose proof (rep_block _ _ _ _ _ _ R2 Hn2) as (E1 & E2 & E3 & E4 & E5 & E6 & E7).
  simpl abit in *. rewrite Z.add_0_r in *.
  apply wp_bind, wp_NEXT_BLKP; try lia.
  rewrite D6, size_of_size by auto.
  replace (x + sz) with n by lia.
  apply wp_bind, wp_GET_SIZE; try lia.
  rewrite E6, size_of_size by auto. cbv zeta.
  pose proof (rep_max _ _ _ R2). pose proof (rep_lo _ _ _ R2).
  assert (Hsum : 0 <= sz + nsz < 2 ^ 31) by lia.
  rewrite (wrap32_small (sz + nsz)) by lia.
  assert (Hmod : (sz + nsz) mod 8 = 0).
  { rewrite Z.add_mod, D4, E4 by lia. reflexivity. }
  apply wp_bind, wp_PUT; try lia. rewrite D6.
  rewrite put_value_hdr by (auto using tag_of_size).
  rewrite Z.add_0_r. sts.
  apply wp_bind, wp_FTRP; sts; try lia.
  rewrite load32_store32_same, (wrap32_small (sz + nsz)) by lia.
  rewrite size_of_size by auto.
  apply wp_bind, wp_PUT; sts; try lia.
  set (m4 := store32 _ (x + (sz + nsz) - 8) _).
  set (s4 := set_mem (set_mem s2 _) m4).
  assert (Hfr : forall i, i < x - 4 \/ (x + (sz + nsz)) - 4 <= i -> mem s4 i = mem s2 i).
  { intros i Hi. unfold s4, m4. sts. rewrite !store32_other by lia. reflexivity. }
  assert (R4 : rep s4 (l1 ++ [(x, sz + nsz, Unlinked)] ++ l2')
                 (fl_del (fl_del fl (class sz) x) (class nsz) n)).
  { eapply rep_replace with (s := s2) (a := x) (e := x + (sz + nsz))
                            (mid := [(x, sz, Unlinked); (n, nsz, Unlinked)]);
      eauto.
    - rewrite Hh2, Hh1. exact Hc1.
    - simpl. repeat split; lia.
    - simpl. repeat split; lia.
    - split; reflexivity.
    - intros y sy [E|[E|[]]]; inversion E.
    - intros y sy [E|[]]; inversion E.
    - constructor; [|constructor]. cbn. unfold s4, m4. sts.
      repeat split; try lia.
      + rewrite load32_store32_other by lia.
        rewrite load32_store32_same. rewrite wrap32_small; lia.
      + rewrite load32_store32_same.
        rewrite wrap32_small; [apply put_value; auto|].
        eapply footer_ok_range; [| |apply put_value]; auto; lia. }
  cbn [app] in R4.
  use_spec insert_node_spec. intros [] s5 (R5 & [Hh5 Hm5] & Hb5 & K5 & T5).
  apply wp_ret. split; [reflexivity|]. split; [exact R5|].
  unfold s4 in *. sts.
  split; [split; congruence|]. split; [congruence|]. split.
  { intros y sy i Hin Hi.
    assert (Hy : In (y, sy, Alloc) (l1 ++ l2')) by (clear - Hin; inapp).
    rewrite (K5 y sy i) by (auto; clear - Hy; inapp).
    rewrite Hfr.
    - rewrite (K2 y sy i) by (auto; clear - Hy; inapp).
      apply (K1 y sy i); auto.
    - apply in_app_iff in Hy. destruct Hy as [Hy|Hy].
      + pose proof (contig_bounds _ _ _ _ _ _
                      (proj1 (proj1 (sized_app _ _) (rep_sized _ _ _ H))) Hc1 Hy). lia.
      + pose proof (rep_sized _ _ _ H) as Hs. apply sized_app in Hs.
        destruct Hs as [_ Hs]. apply Forall_cons_iff in Hs. destruct Hs as [_ Hs].
        apply Forall_cons_iff in Hs. destruct Hs as [_ Hs].
        pose proof (contig_bounds _ _ _ _ _ _ Hs Hc2 Hy). lia. }
  rewrite (insert_frame_inside _ _ _ _ _ _ _ _ (n - 4) R4 T5)
    by (try apply class_range; sts; lia).
  sts. unfold m4. rewrite !load32_store32_other by lia.
  rewrite (delete_frame_header _ _ _ _ _ _ _ _ R1 T2 Hk2 Hn1).
  apply (delete_frame_header _ _ _ _ _ _ _ _ H T1 Hk1 Hn0).
Qed.

Lemma coalesce_prev fuel s l1' p psz x sz l2 fl :
  rep s (l1' ++ (p, psz, Free) :: (x, sz, Free) :: l2) fl ->
  (1 <= fuel)%nat ->
  wp (delete_node x ;;;
      p1 <- PREV_BLKP x ;;
      delete_node p1 ;;;
      p2 <- PREV_BLKP x ;;
      psz' <- GET_SIZE (HDRP p2) ;;
      let size := wrap32 (sz + psz') in
      f <- FTRP x ;;
      PUT f (PACK size 0) ;;;
      p3 <- PREV_BLKP x ;;
      PUT (HDRP p3) (PACK size 0) ;;;
      p4 <- PREV_BLKP x ;;
      insert_node fuel p4 size ;;;
      ret p4)
     (fun r s' =>
        r = p /\
        rep s' (l1' ++ (p, sz + psz, Free) :: l2)
            (fl_ins (fl_del (fl_del fl (class sz) x) (class psz) p)
                    (class (sz + psz)) p) /\
        same_heap s s' /\ mem_brk s' = mem_brk s /\
        keeps_payloads (l1' ++ (p, psz, Free) :: (x, sz, Free) :: l2) s s') s.
Proof.
  intros H Hfuel.
  pose proof (rep_contig _ _ _ H) as Hc0. apply contig_mid in Hc0.
  destruct Hc0 as [Hc1 Hc2]. simpl in Hc2. destruct Hc2 as [Ex Hc2].
  rewrite app_mid2 in H.
  use_spec delete_node_spec. intros [] s1 (R1 & [Hh1 Hm1] & Hb1 & K1 & T1).
  rewrite <- app_mid2 in H, R1, K1.
  assert (Hx1 : In (x, sz, Unlinked) (l1' ++ (p, psz, Free) :: (x, sz, Unlinked) :: l2))
    by (clear; inapp).
  assert (Hp1 : In (p, psz, Free) (l1' ++ (p, psz, Free) :: (x, sz, Unlinked) :: l2))
    by (clear; inapp).
  pose proof (rep_block _ _ _ _ _ _ R1 Hx1) as (B1 & B2 & B3 & B4 & B5 & B6 & B7).
  pose proof (rep_block _ _ _ _ _ _ R1 Hp1) as (C1 & C2 & C3 & C4 & C5 & C6 & C7).
  simpl abit in *. rewrite Z.add_0_r in *.
  unfold HDRP; unfold WSIZE.
  apply wp_bind, wp_PREV_BLKP; try lia.
  replace (x - 8) with (p + psz - 8) by lia.
  rewrite (footer_size _ psz 0) by auto.
  replace (x - psz) with p by lia.
  use_spec delete_node_spec. intros [] s2 (R2 & [Hh2 Hm2] & Hb2 & K2 & T2).
  assert (Hx2 : In (x, sz, Unlinked) (l1' ++ (p, psz, Unlinked) :: (x, sz, Unlinked) :: l2))
    by (clear; inapp).
  assert (Hp2 : In (p, psz, Unlinked) (l1' ++ (p, psz, Unlinked) :: (x, sz, Unlinked) :: l2))
    by (clear; inapp).
  pose proof (rep_block _ _ _ _ _ _ R2 Hx2) as (D1 & D2 & D3 & D4 & D5 & D6 & D7).
  pose proof (rep_block _ _ _ _ _ _ R2 Hp2) as (E1 & E2 & E3 & E4 & E5 & E6 & E7).
  simpl abit in *. rewrite Z.add_0_r in *.
  apply wp_bind, wp_PREV_BLKP; try lia.
  replace (x - 8) with (p + psz - 8) by lia.
  rewrite (footer_size _ psz 0) by auto.
  replace (x - psz) with p by lia.
  apply wp_bind, wp_GET_SIZE; try lia.
  rewrite E6, size_of_size by auto. cbv zeta.
  pose proof (rep_max _ _ _ R2). pose proof (rep_lo _ _ _ R2).
  assert (Hsum : 0 <= sz + psz < 2 ^ 31) by lia.
  rewrite (wrap32_small (sz + psz)) by lia.
  assert (Hmod : (sz + psz) mod 8 = 0).
  { rewrite Z.add_mod, D4, E4 by lia. reflexivity. }
  apply wp_bind, wp_FTRP; try lia.
  rewrite D6, size_of_size by auto.
  apply wp_bind, wp_PUT; try lia. sts.
  set (v3 := Z.lor (PACK (sz + psz) 0) _).
  assert (Hv3 : footer_ok v3 (sz + psz) 0) by (apply put_value; auto).
  assert (Hv3r : 0 <= v3 < 2 ^ 32)
    by (apply (footer_ok_range v3 (sz + psz) 0); [lia|auto|exact Hv3]).
  apply wp_bind, wp_PREV_BLKP; sts; try lia.
  rewrite load32_store32_other by lia.
  replace (x - 8) with (p + psz - 8) by lia.
  rewrite (footer_size _ psz 0) by auto.
  replace (x - psz) with p by lia.
  apply wp_bind, wp_PUT; sts; try lia.
  rewrite (load32_store32_other _ _ _ (p - 4)) by lia. rewrite E6.
  rewrite put_value_hdr by (auto using tag_of_size). rewrite Z.add_0_r.
  apply wp_bind, wp_PREV_BLKP; sts; try lia.
  rewrite !load32_store32_other by lia.
  replace (x - 8) with (p + psz - 8) by lia.
  rewrite (footer_size _ psz 0) by auto.
  replace (x - psz) with p by lia.
  set (m4 := store32 _ (p - 4) _).
  set (s4 := set_mem (set_mem s2 _) m4).
  assert (Hfr : forall i, i < p - 4 \/ (p + (sz + psz)) - 4 <= i -> mem s4 i = mem s2 i).
  { intros i Hi. unfold s4, m4. sts. rewrite !store32_other by lia. reflexivity. }
  assert (R4 : rep s4 (l1' ++ [(p, sz + psz, Unlinked)] ++ l2)
                 (fl_del (fl_del fl (class sz) x) (class psz) p)).
  { eapply rep_replace with (s := s2) (a := p) (e := p + (sz + psz))
                            (mid := [(p, psz, Unlinked); (x, sz, Unlinked)]);
      eauto.
    - rewrite Hh2, Hh1. exact Hc1.
    - simpl. repeat split; lia.
    - simpl. repeat split; lia.
    - split; reflexivity.
    - intros y sy [E|[E|[]]]; inversion E.
    - intros y sy [E|[]]; inversion E.
    - constructor; [|constructor]. cbn. unfold s4, m4. sts.
      repeat split; try lia.
      + rewrite load32_store32_same. rewrite wrap32_small; lia.
      + rewrite load32_store32_other by lia.
        replace (p + (sz + psz) - 8) with (x + sz - 8) by lia.
        rewrite load32_store32_same.
        rewrite wrap32_small; auto. }
  cbn [app] in R4.
  use_spec insert_node_spec. intros [] s5 (R5 & [Hh5 Hm5] & Hb5 & K5 & T5).
  apply wp_ret. split; [reflexivity|]. split; [exact R5|].
  unfold s4 in *. sts.
  split; [split; congruence|]. split; [congruence|].
  intros y sy i Hin Hi.
  assert (Hy : In (y, sy, Alloc) (l1' ++ l2)) by (clear - Hin; inapp).
  rewrite (K5 y sy i) by (auto; clear - Hy; inapp).
  rewrite Hfr.
  - rewrite (K2 y sy i) by (auto; clear - Hy; inapp).
    apply (K1 y sy i); auto.
  - apply in_app_iff in Hy. destruct Hy as [Hy|Hy].
    + pose proof (contig_bounds _ _ _ _ _ _
                    (proj1 (proj1 (sized_app _ _) (rep_sized _ _ _ H))) Hc1 Hy). lia.
    + pose proof (rep_sized _ _ _ H) as Hs. apply sized_app in Hs.
      destruct Hs as [_ Hs]. apply Forall_cons_iff in Hs. destruct Hs as [_ Hs].
      apply Forall_cons_iff in Hs. destruct Hs as [_ Hs].
      pose proof (contig_bounds _ _ _ _ _ _ Hs Hc2 Hy). lia.
Qed.

Lemma coalesce_both fuel s l1' p psz x sz n nsz l2' fl :
  rep s (l1' ++ (p, psz, Free) :: (x, sz, Free) :: (n, nsz, Free) :: l2') fl ->
  (1 <= fuel)%nat ->
  wp (delete_node x ;;;
      p1 <- PREV_BLKP x ;;
      delete_node p1 ;;;
      n1 <- NEXT_BLKP x ;;
      delete_node n1 ;;;
      p2 <- PREV_BLKP x ;;
      psz' <- GET_SIZE (HDRP p2) ;;
      n2 <- NEXT_BLKP x ;;
      nsz' <- GET_SIZE (HDRP n2) ;;
      let size := wrap32 (sz + wrap32 (psz' + nsz')) in
      p3 <- PREV_BLKP x ;;
      PUT (HDRP p3) (PACK size 0) ;;;
      n3 <- NEXT_BLKP x ;;
      f <- FTRP n3 ;;
      PUT f (PACK size 0) ;;;
      p4 <- PREV_BLKP x ;;
      insert_node fuel p4 size ;;;
      ret p4)
     (fun r s' =>
        r = p /\
        rep s' (l1' ++ (p, sz + (psz + nsz), Free) :: l2')
            (fl_ins (fl_del (fl_del (fl_del fl (class sz) x) (class psz) p)
                            (class nsz) n)
                    (class (sz + (psz + nsz))) p) /\
        same_heap s s' /\ mem_brk s' = mem_brk s /\
        keeps_payloads
          (l1' ++ (p, psz, Free) :: (x, sz, Free) :: (n, nsz, Free) :: l2') s s' /\
        load32 (mem s') (n - 4) = load32 (mem s) (n - 4)) s.
Proof.
  intros H Hfuel.
  pose proof (rep_contig _ _ _ H) as Hc0. apply contig_mid in Hc0.
  destruct Hc0 as [Hc1 Hc2]. simpl in Hc2. destruct Hc2 as [Ex [En Hc2]].
  assert (Hn0 : In (n, nsz, Free)
                  (l1' ++ (p, psz, Free) :: (x, sz, Free) :: (n, nsz, Free) :: l2'))
    by (clear; inapp).
  assert (Hx0 : In (x, sz, Free)
                  (l1' ++ (p, psz, Free) :: (x, sz, Free) :: (n, nsz, Free) :: l2'))
    by (clear; inapp).
  assert (Hp0 : In (p, psz, Free)
                  (l1' ++ (p, psz, Free) :: (x, sz, Free) :: (n, nsz, Free) :: l2'))
    by (clear; inapp).
  assert (Hk1 : 0 <= class sz < 20)
    by (apply class_range; pose proof (rep_block _ _ _ _ _ _ H Hx0); lia).
  assert (Hk2 : 0 <= class psz < 20)
    by (apply class_range; pose proof (rep_block _ _ _ _ _ _ H Hp0); lia).
  assert (Hk3 : 0 <= class nsz < 20)
    by (apply class_range; pose proof (rep_block _ _ _ _ _ _ H Hn0); lia).
  pose proof H as H0.
  rewrite app_mid2 in H.
  use_spec delete_node_spec. intros [] s1 (R1 & [Hh1 Hm1] & Hb1 & K1 & T1).
  rewrite <- app_mid2 in H, R1, K1.
  assert (Hx1 : In (x, sz, Unlinked)
                  (l1' ++ (p, psz, Free) :: (x, sz, Unlinked) :: (n, nsz, Free) :: l2'))
    by (clear; inapp).
  assert (Hp1 : In (p, psz, Free)
                  (l1' ++ (p, psz, Free) :: (x, sz, Unlinked) :: (n, nsz, Free) :: l2'))
    by (clear; inapp).
  pose proof (rep_block _ _ _ _ _ _ R1 Hx1) as (B1 & B2 & B3 & B4 & B5 & B6 & B7).
  pose proof (rep_block _ _ _ _ _ _ R1 Hp1) as (C1 & C2 & C3 & C4 & C5 & C6 & C7).
  simpl abit in *. rewrite Z.add_0_r in *.
  unfold HDRP; unfold WSIZE.
  apply wp_bind, wp_PREV_BLKP; try lia.
  replace (x - 8) with (p + psz - 8) by lia.
  rewrite (footer_size _ psz 0) by auto.
  replace (x - psz) with p by lia.
  use_spec delete_node_spec. intros [] s2 (R2 & [Hh2 Hm2] & Hb2 & K2 & T2).
  assert (Hx2 : In (x, sz, Unlinked)
                  (l1' ++ (p, psz, Unlinked) :: (x, sz, Unlinked) :: (n, nsz, Free) :: l2'))
    by (clear; inapp).
  pose proof (rep_block _ _ _ _ _ _ R2 Hx2) as (D1 & D2 & D3 & D4 & D5 & D6 & D7).
  simpl abit in *. rewrite Z.add_0_r in *.
  apply wp_bind, wp_NEXT_BLKP; try lia.
  rewrite D6, size_of_size by auto.
  replace (x + sz) with n by lia.
  rewrite app_mid2, (app_mid2 _ (x, sz, Unlinked)) in R2.
  use_spec delete_node_spec. intros [] s3 (R3 & [Hh3 Hm3] & Hb3 & K3 & T3).
  rewrite <- (app_mid2 _ (x, sz, Unlinked)), <- app_mid2 in R3.
  assert (Hx3 : In (x, sz, Unlinked)
                  (l1' ++ (p, psz, Unlinked) :: (x, sz, Unlinked) :: (n, nsz, Unlinked) :: l2'))
    by (clear; inapp).
  assert (Hp3 : In (p, psz, Unlinked)
                  (l1' ++ (p, psz, Unlinked) :: (x, sz, Unlinked) :: (n, nsz, Unlinked) :: l2'))
    by (clear; inapp).
  assert (Hn3 : In (n, nsz, Unlinked)
                  (l1' ++ (p, psz, Unlinked) :: (x, sz, Unlinked) :: (n, nsz, Unlinked) :: l2'))
    by (clear; inapp).
  pose proof (rep_block _ _ _ _ _ _ R3 Hx3) as (E1 & E2 & E3 & E4 & E5 & E6 & E7).
  pose proof (rep_block _ _ _ _ _ _ R3 Hp3) as (F1 & F2 & F3 & F4 & F5 & F6 & F7).
  pose proof (rep_block _ _ _ _ _ _ R3 Hn3) as (G1 & G2 & G3 & G4 & G5 & G6 & G7).
  simpl abit in *. rewrite Z.add_0_r in *.
  pose proof (rep_max _ _ _ R3). pose proof (rep_lo _ _ _ R3).
  apply wp_bind, wp_PREV_BLKP; try lia.
  replace (x - 8) with (p + psz - 8) by lia.
  rewrite (footer_size _ psz 0) by auto.
  replace (x - psz) with p by lia.
  apply wp_bind, wp_GET_SIZE; try lia.
  rewrite F6, size_of_size by auto.
  apply wp_bind, wp_NEXT_BLKP; try lia.
  rewrite E6, size_of_size by auto.
  replace (x + sz) with n by lia.
  apply wp_bind, wp_GET_SIZE; try lia.
  rewrite G6, size_of_size by auto. cbv zeta.
  assert (Hsum : 0 <= sz + (psz + nsz) < 2 ^ 31) by lia.
  rewrite (wrap32_small (psz + nsz)) by lia.
  rewrite (wrap32_small (sz + (psz + nsz))) by lia.
  assert (Hmod : (sz + (psz + nsz)) mod 8 = 0).
  { rewrite Z.add_mod, E4 by lia. rewrite (Z.add_mod psz), F4, G4 by lia. reflexivity. }
  apply wp_bind, wp_PREV_BLKP; try lia.
  replace (x - 8) with (p + psz - 8) by lia.
  rewrite (footer_size _ psz 0) by auto.
  replace (x - psz) with p by lia.
  apply wp_bind, wp_PUT; try lia. rewrite F6.
  rewrite put_value_hdr by (auto using tag_of_size). rewrite Z.add_0_r. sts.
  apply wp_bind, wp_NEXT_BLKP; sts; try lia.
  rewrite load32_store32_other by lia.
  rewrite E6, size_of_size by auto.
  replace (x + sz) with n by lia.
  apply wp_bind, wp_FTRP; sts; try lia.
  rewrite load32_store32_other by lia.
  rewrite G6, size_of_size by auto.
  apply wp_bind, wp_PUT; sts; try lia.
  set (v4 := Z.lor (PACK (sz + (psz + nsz)) 0) _).
  assert (Hv4 : footer_ok v4 (sz + (psz + nsz)) 0) by (apply put_value; auto).
  assert (Hv4r : 0 <= v4 < 2 ^ 32)
    by (apply (footer_ok_range v4 (sz + (psz + nsz)) 0); [lia|auto|exact Hv4]).
  apply wp_bind, wp_PREV_BLKP; sts; try lia.
  rewrite !load32_store32_other by lia.
  replace (x - 8) with (p + psz - 8) by lia.
  rewrite (footer_size _ psz 0) by auto.
  replace (x - psz) with p by lia.
  set (m4 := store32 _ (n + nsz - 8) _).
  set (s4 := set_mem (set_mem s3 _) m4).
  assert (Hfr : forall i, i < p - 4 \/ (p + (sz + (psz + nsz))) - 4 <= i ->
                          mem s4 i = mem s3 i).
  { intros i Hi. unfold s4, m4. sts. rewrite !store32_other by lia. reflexivity. }
  assert (R4 : rep s4 (l1' ++ [(p, sz + (psz + nsz), Unlinked)] ++ l2')
                 (fl_del (fl_del (fl_del fl (class sz) x) (class psz) p) (class nsz) n)).
  { eapply rep_replace with (s := s3) (a := p) (e := p + (sz + (psz + nsz)))
        (mid := [(p, psz, Unlinked); (x, sz, Unlinked); (n, nsz, Unlinked)]);
      eauto.
    - rewrite Hh3, Hh2, Hh1. exact Hc1.
    - simpl. repeat split; lia.
    - simpl. repeat split; lia.
    - split; reflexivity.
    - intros y sy [E|[E|[E|[]]]]; inversion E.
    - intros y sy [E|[]]; inversion E.
    - constructor; [|constructor]. cbn. unfold s4, m4. sts.
      repeat split; try lia.
      + rewrite load32_store32_other by lia.
        rewrite load32_store32_same. rewrite wrap32_small; lia.
      + replace (p + (sz + (psz + nsz)) - 8) with (n + nsz - 8) by lia.
        rewrite load32_store32_same.
        rewrite wrap32_small; auto. }
  cbn [app] in R4.
  use_spec insert_node_spec. intros [] s5 (R5 & [Hh5 Hm5] & Hb5 & K5 & T5).
  apply wp_ret. split; [reflexivity|]. split; [exact R5|].
  unfold s4 in *. sts.
  split; [split; congruence|]. split; [congruence|]. split.
  { intros y sy i Hin Hi.
    assert (Hy : In (y, sy, Alloc) (l1' ++ l2')) by (clear - Hin; inapp).
    rewrite (K5 y sy i) by (auto; clear - Hy; inapp).
    rewrite Hfr.
    - rewrite (K3 y sy i) by (auto; clear - Hy; inapp).
      rewrite (K2 y sy i) by (auto; clear - Hy; inapp).
      apply (K1 y sy i); auto.
    - apply in_app_iff in Hy. destruct Hy as [Hy|Hy].
      + pose proof (contig_bounds _ _ _ _ _ _
                      (proj1 (proj1 (sized_app _ _) (rep_sized _ _ _ H))) Hc1 Hy). lia.
      + pose proof (rep_sized _ _ _ H) as Hs. apply sized_app in Hs.
        destruct Hs as [_ Hs]. apply Forall_cons_iff in Hs. destruct Hs as [_ Hs].
        apply Forall_cons_iff in Hs. destruct Hs as [_ Hs].
        apply Forall_cons_iff in Hs. destruct Hs as [_ Hs].
        pose proof (contig_bounds _ _ _ _ _ _ Hs Hc2 Hy). lia. }
  rewrite (insert_frame_inside _ _ _ _ _ _ _ _ (n - 4) R4 T5)
    by (try apply class_range; sts; lia).
  sts. unfold m4. rewrite !load32_store32_other by lia.
  assert (Hn2 : In (n, nsz, Free)
                  (((l1' ++ [(p, psz, Unlinked)]) ++ [(x, sz, Unlinked)]) ++
                   (n, nsz, Free) :: l2')) by (clear; inapp).
  rewrite (delete_frame_header _ _ _ _ _ _ _ _ R2 T3 Hk3 Hn2).
  assert (Hn1 : In (n, nsz, Free)
                  (l1' ++ (p, psz, Free) :: (x, sz, Unlinked) :: (n, nsz, Free) :: l2'))
    by (clear; inapp).
  rewrite (delete_frame_header _ _ _ _ _ _ _ _ R1 T2 Hk2 Hn1).
  apply (delete_frame_header _ _ _ _ _ _ _ _ H0 T1 Hk1 Hn0).
Qed.

Lemma coalesce_spec fuel s l1 x sz l2 fl :
  rep s (l1 ++ (x, sz, Free) :: l2) fl ->
  Forall linked (l1 ++ (x, sz, Free) :: l2) ->
  (1 <= fuel)%nat ->
  wp (coalesce fuel x)
     (fun r s' =>
        exists bs' fl',
          coalesce_case l1 x sz l2 fl r bs' fl' /\
          rep s' bs' fl' /\
          same_heap s s' /\ mem_brk s' = mem_brk s /\
          keeps_payloads (l1 ++ (x, sz, Free) :: l2) s s' /\
          (forall n nsz l2', l2 = (n, nsz, Free) :: l2' ->
             load32 (mem s') (n - 4) = load32 (mem s) (n - 4))) s.
Proof.
  intros H Hl Hfuel.
  destruct (prev_view _ _ _ _ _ _ _ H)
    as (pv & pa & Epv & Epa & Etag & Bp1 & Bp2 & Hprev).
  destruct (next_view _ _ _ _ _ _ _ H) as (na & Ena & Bn & Hnext).
  assert (Hx : In (x, sz, Free) (l1 ++ (x, sz, Free) :: l2)) by (clear; inapp).
  pose proof (rep_block _ _ _ _ _ _ H Hx) as (B1 & B2 & B3 & B4 & B5 & B6 & B7).
  simpl abit in *. rewrite Z.add_0_r in *.
  apply Forall_app in Hl. destruct Hl as [Hl1 Hl2].
  apply Forall_cons_iff in Hl2. destruct Hl2 as [_ Hl2].
  assert (Hp : (pa = 1 /\ prev_is_alloc l1) \/
               (pa = 0 /\ exists l1' p psz, l1 = l1' ++ [(p, psz, Free)] /\
                  Z.land (load32 (mem s) (x - 8)) (Z.lnot 7) = psz /\ p = x - psz)).
  { apply prev_cases; auto.
    destruct Hprev as [?|(l1' & p & psz & stp & ? & ? & ? & ?)]; [left; auto|right].
    exists l1', p, psz, stp. repeat split; auto. congruence. }
  assert (Hn : (na = 1 /\ next_is_alloc l2) \/
               (na = 0 /\ exists n nsz l2', l2 = (n, nsz, Free) :: l2' /\ n = x + sz)).
  { eapply next_cases; eauto. }
  unfold coalesce, HDRP; unfold WSIZE.
  apply wp_bind, wp_PREV_BLKP; try lia. rewrite Epv.
  apply wp_bind, wp_GET_ALLOC; try lia. rewrite Epa.
  apply wp_bind, wp_NEXT_BLKP; try lia. rewrite B6, size_of_size by auto.
  apply wp_bind, wp_GET_ALLOC; try lia. rewrite Ena.
  apply wp_bind, wp_GET_SIZE; try lia. rewrite B6, size_of_size by auto.
  apply wp_bind, wp_PREV_BLKP; try lia. rewrite Epv.
  apply wp_bind, wp_GET_TAG; try lia. rewrite Etag.
  change (negb (0 =? 0)) with false. cbv iota.
  destruct Hp as [[-> Hpa]|(-> & l1' & p & psz & -> & Ep & Exp)];
    destruct Hn as [[-> Hna]|(-> & n & nsz & l2' & -> & Exn)];
    cbn [Z.eqb negb andb].
  - apply wp_ret. exists (l1 ++ (x, sz, Free) :: l2), fl.
    split; [constructor; auto|]. split; auto.
    split; [split; reflexivity|]. split; [reflexivity|].
    split; [intros y sy i _ _; reflexivity|]. intros; reflexivity.
  - eapply wp_conseq; [apply coalesce_next; eauto|].
    intros r s' (-> & R & Hh & Hb & K & T). do 2 eexists.
    split; [eapply CC_next; eauto|].
    split; [exact R|split; [exact Hh|split; [exact Hb|split; [exact K|]]]].
    intros n' nsz' l2'' E. inversion E; subst. exact T.
  - rewrite <- app_assoc in H. cbn [app] in H.
    eapply wp_conseq; [apply coalesce_prev; eauto|].
    intros r s' (-> & R & Hh & Hb & K). do 2 eexists.
    split; [eapply CC_prev; eauto|]. rewrite <- app_assoc. cbn [app].
    split; [exact R|split; [exact Hh|split; [exact Hb|split; [exact K|]]]].
    intros n' nsz' l2'' E. specialize (Hna _ _ _ _ E). discriminate.
  - rewrite <- app_assoc in H. cbn [app] in H.
    eapply wp_conseq; [apply coalesce_both; eauto|].
    intros r s' (-> & R & Hh & Hb & K & T). do 2 eexists.
    split; [eapply CC_both; eauto|]. rewrite <- app_assoc. cbn [app].
    split; [exact R|split; [exact Hh|split; [exact Hb|split; [exact K|]]]].
    intros n' nsz' l2'' E. inversion E; subst. exact T.
Qed.

(** ** place *)
Lemma mod8_sub a b : a mod 8 = 0 -> b mod 8 = 0 -> (a - b) mod 8 = 0.
Proof.
  intros Ha Hb. rewrite Zminus_mod, Ha, Hb. reflexivity.
Qed.

Lemma mod8_add a b : a mod 8 = 0 -> b mod 8 = 0 -> (a + b) mod 8 = 0.
Proof.
  intros Ha Hb. rewrite Z.add_mod, Ha, Hb by lia. reflexivity.
Qed.

Lemma place_spec fuel s l1 x sz l2 fl asize :
  rep s (l1 ++ (x, sz, Free) :: l2) fl ->
  16 <= asize <= sz -> asize mod 8 = 0 -> (1 <= fuel)%nat ->
  wp (place fuel x asize)
     (fun r s' =>
        exists bs' fl',
          place_case l1 x sz asize l2 fl r bs' fl' /\
          rep s' bs' fl' /\
          same_heap s s' /\ mem_brk s' = mem_brk s /\
          keeps_payloads (l1 ++ (x, sz, Free) :: l2) s s' /\
          (16 < sz - asize ->
           load32 (mem s') (x + sz - 8)
           = if asize >=? 100 then asize + 1 else sz - asize)) s.
Proof.
  intros H Ha Hamod Hfuel.
  assert (Hx : In (x, sz, Free) (l1 ++ (x, sz, Free) :: l2)) by (clear; inapp).
  pose proof (rep_block _ _ _ _ _ _ H Hx) as (B1 & B2 & B3 & B4 & B5 & B6 & B7).
  simpl abit in *. rewrite Z.add_0_r in *.
  pose proof (rep_contig _ _ _ H) as Hc0. apply contig_mid in Hc0.
  destruct Hc0 as [Hc1 Hc2].
  pose proof (rep_sized _ _ _ H) as Hsz0. apply sized_app in Hsz0.
  destruct Hsz0 as [Hs1 Hs2]. apply Forall_cons_iff in Hs2. destruct Hs2 as [_ Hs2].
  unfold place, HDRP; unfold WSIZE, DSIZE.
  apply wp_bind, wp_GET_SIZE; try lia. rewrite B6, size_of_size by auto.
  rewrite (wrap32_small (sz - asize)) by lia.
  use_spec delete_node_spec. intros [] s1 (R1 & [Hh1 Hm1] & Hb1 & K1 & T1).
  assert (Hx1 : In (x, sz, Unlinked) (l1 ++ (x, sz, Unlinked) :: l2)) by (clear; inapp).
  pose proof (rep_block _ _ _ _ _ _ R1 Hx1) as (C1 & C2 & C3 & C4 & C5 & C6 & C7).
  simpl abit in *. rewrite Z.add_0_r in *.
  pose proof (rep_max _ _ _ R1). pose proof (rep_lo _ _ _ R1).
  assert (Hrmod : (sz - asize) mod 8 = 0) by (apply mod8_sub; auto).
  assert (Kout : forall (s4 : state),
             (forall i, i < x - 4 \/ x + sz - 4 <= i -> mem s4 i = mem s1 i) ->
             forall y sy i, In (y, sy, Alloc) (l1 ++ l2) -> y <= i < y + sy - 8 ->
                            mem s4 i = mem s i).
  { intros s4 Hfr y sy i Hy Hi.
    rewrite Hfr.
    - apply (K1 y sy i); auto. clear - Hy. inapp.
    - apply in_app_iff in Hy. destruct Hy as [Hy|Hy].
      + pose proof (contig_bounds _ _ _ _ _ _ Hs1 Hc1 Hy). lia.
      + pose proof (contig_bounds _ _ _ _ _ _ Hs2 Hc2 Hy). lia. }
  destruct (Z.leb_spec (sz - asize) (8 * 2)) as [Hr|Hr].
  - (* the whole block is handed out *)
    apply wp_bind, wp_PUT; try lia. rewrite C6.
    rewrite put_value_hdr by (auto using tag_of_size). sts.
    apply wp_bind, wp_FTRP; sts; try lia.
    rewrite load32_store32_same, (wrap32_small (sz + 1)) by lia.
    rewrite (header_size sz 1) by auto.
    apply wp_bind, wp_PUT; sts; try lia.
    apply wp_ret.
    set (v := Z.lor (PACK sz 1) _).
    assert (Hv : footer_ok v sz 1) by (apply put_value; auto).
    assert (Hvr : 0 <= v < 2 ^ 32)
      by (apply (footer_ok_range v sz 1); [lia|auto|exact Hv]).
    set (s4 := set_mem (set_mem s1 _) _).
    assert (Hfr : forall i, i < x - 4 \/ x + sz - 4 <= i -> mem s4 i = mem s1 i).
    { intros i Hi. unfold s4. sts. rewrite !store32_other by lia. reflexivity. }
    exists (l1 ++ [(x, sz, Alloc)] ++ l2), (fl_del fl (class sz) x).
    split; [apply PC_whole; lia|].
    split; [|split; [split; assumption|split; [assumption|split; [|intros; lia]]]].
    + eapply rep_replace with (s := s1) (a := x) (e := x + sz)
                              (mid := [(x, sz, Unlinked)]); eauto.
      * rewrite Hh1. exact Hc1.
      * simpl. repeat split; lia.
      * simpl. repeat split; lia.
      * split; reflexivity.
      * intros y sy [E|[]]; inversion E.
      * intros y sy [E|[]]; inversion E.
      * constructor; [|constructor]. cbn. unfold s4. sts.
        repeat split; try lia.
        -- rewrite load32_store32_other by lia.
           rewrite load32_store32_same. rewrite wrap32_small; lia.
        -- rewrite load32_store32_same. rewrite wrap32_small; auto.
    + intros y sy i Hy Hi. eapply Kout; eauto. clear - Hy. inapp.
  - destruct (Z.geb_spec asize 100) as [Hbig|Hsmall].
    + (* allocation at the upper end *)
      remember (sz - asize) as r eqn:Er.
      apply wp_bind, wp_PUT; try lia. rewrite C6.
      rewrite put_value_hdr by (auto using tag_of_size). rewrite Z.add_0_r. sts.
      apply wp_bind, wp_FTRP; sts; try lia.
      rewrite load32_store32_same, (wrap32_small r) by lia.
      rewrite size_of_size by auto.
      apply wp_bind, wp_PUT; sts; try lia.
      set (v := Z.lor (PACK r 0) _).
      assert (Hv : footer_ok v r 0) by (apply put_value; auto).
      assert (Hvr : 0 <= v < 2 ^ 32)
        by (apply (footer_ok_range v r 0); [lia|auto|exact Hv]).
      apply wp_bind, wp_NEXT_BLKP; sts; try lia.
      rewrite load32_store32_other by lia.
      rewrite load32_store32_same, (wrap32_small r) by lia.
      rewrite size_of_size by auto.
      apply wp_bind, wp_PUT_NOTAG; sts; try lia.
      rewrite PACK_1 by auto.
      apply wp_bind, wp_NEXT_BLKP; sts; try lia.
      rewrite !(load32_store32_other _ _ _ (x - 4)) by lia.
      rewrite load32_store32_same, (wrap32_small r) by lia.
      rewrite size_of_size by auto.
      apply wp_bind, wp_FTRP; sts; try lia.
      rewrite load32_store32_same, (wrap32_small (asize + 1)) by lia.
      rewrite (header_size asize 1) by auto.
      apply wp_bind, wp_PUT_NOTAG; sts; try lia.
      set (s4 := set_mem _ _).
      assert (Hfr : forall i, i < x - 4 \/ x + sz - 4 <= i -> mem s4 i = mem s1 i).
      { intros i Hi. unfold s4. sts. rewrite !store32_other by lia. reflexivity. }
      assert (R4 : rep s4 (l1 ++ [(x, r, Unlinked); (x + r, asize, Alloc)] ++ l2)
                     (fl_del fl (class sz) x)).
      { eapply rep_replace with (s := s1) (a := x) (e := x + sz)
                                (mid := [(x, sz, Unlinked)]); eauto.
        - rewrite Hh1. exact Hc1.
        - simpl. repeat split; lia.
        - simpl. repeat split; lia.
        - split; reflexivity.
        - intros y sy [E|[]]; inversion E.
        - intros y sy [E|[E|[]]]; inversion E.
        - constructor; [|constructor; [|constructor]]; cbn; unfold s4; sts;
            repeat split; try lia.
          + rewrite !(load32_store32_other _ _ _ (x - 4)) by lia.
            rewrite load32_store32_same. rewrite wrap32_small; lia.
          + rewrite !(load32_store32_other _ _ _ (x + r - 8)) by lia.
            rewrite load32_store32_same. rewrite wrap32_small; auto.
          + rewrite !(load32_store32_other _ _ _ (x + r - 4)) by lia.
            rewrite load32_store32_same. rewrite wrap32_small; lia.
          + left. rewrite load32_store32_same. rewrite wrap32_small; lia. }
      cbn [app] in R4.
      use_spec insert_node_spec. intros [] s5 (R5 & [Hh5 Hm5] & Hb5 & K5 & T5).
      assert (Hx5 : In (x, r, Free) (l1 ++ (x, r, Free) :: (x + r, asize, Alloc) :: l2))
        by (clear; inapp).
      pose proof (rep_block _ _ _ _ _ _ R5 Hx5) as (D1 & D2 & D3 & D4 & D5 & D6 & D7).
      simpl abit in *. rewrite Z.add_0_r in *.
      apply wp_NEXT_BLKP; try lia.
      rewrite D6, size_of_size by auto.
      exists (l1 ++ (x, r, Free) :: (x + r, asize, Alloc) :: l2),
             (fl_ins (fl_del fl (class sz) x) (class r) x).
      split; [subst r; apply PC_upper; lia|]. split; [exact R5|].
      assert (Hft : load32 (mem s5) (x + sz - 8) = asize + 1).
      { assert (Hu : In (x, r, Unlinked)
                        (l1 ++ (x, r, Unlinked) :: (x + r, asize, Alloc) :: l2))
          by (clear; inapp).
        assert (Hup : In (x + r, asize, Alloc)
                         (l1 ++ (x, r, Unlinked) :: (x + r, asize, Alloc) :: l2))
          by (clear; inapp).
        rewrite (insert_frame_block _ _ _ _ _ _ _ _ _ _ (x + sz - 8) R4 Hu Hup
                   ltac:(discriminate) ltac:(lia) T5)
          by (try apply class_range; lia).
        unfold s4. sts. replace (x + sz - 8) with (x + r + asize - 8) by lia.
        rewrite load32_store32_same. apply wrap32_small. lia. }
      unfold s4 in *. sts.
      split; [split; congruence|]. split; [congruence|]. split.
      { intros y sy i Hy Hi.
        assert (Hy' : In (y, sy, Alloc) (l1 ++ l2)) by (clear - Hy; inapp).
        rewrite (K5 y sy i) by (auto; clear - Hy'; inapp).
        eapply Kout; eauto. }
      intros _. replace (asize >=? 100) with true
        by (symmetry; apply Z.geb_le; lia).
      exact Hft.
    + (* allocation at the lower end *)
      remember (sz - asize) as r eqn:Er.
      apply wp_bind, wp_PUT; try lia. rewrite C6.
      rewrite put_value_hdr by (auto using tag_of_size). sts.
      apply wp_bind, wp_FTRP; sts; try lia.
      rewrite load32_store32_same, (wrap32_small (asize + 1)) by lia.
      rewrite (header_size asize 1) by auto.
      apply wp_bind, wp_PUT; sts; try lia.
      set (v := Z.lor (PACK asize 1) _).
      assert (Hv : footer_ok v asize 1) by (apply put_value; auto).
      assert (Hvr : 0 <= v < 2 ^ 32)
        by (apply (footer_ok_range v asize 1); [lia|auto|exact Hv]).
      apply wp_bind, wp_NEXT_BLKP; sts; try lia.
      rewrite load32_store32_other by lia.
      rewrite load32_store32_same, (wrap32_small (asize + 1)) by lia.
      rewrite (header_size asize 1) by auto.
      apply wp_bind, wp_PUT_NOTAG; sts; try lia.
      rewrite PACK_0 by auto.
      apply wp_bind, wp_NEXT_BLKP; sts; try lia.
      rewrite !(load32_store32_other _ _ _ (x - 4)) by lia.
      rewrite load32_store32_same, (wrap32_small (asize + 1)) by lia.
      rewrite (header_size asize 1) by auto.
      apply wp_bind, wp_FTRP; sts; try lia.
      rewrite load32_store32_same, (wrap32_small r) by lia.
      rewrite size_of_size by auto.
      apply wp_bind, wp_PUT_NOTAG; sts; try lia.
      apply wp_bind, wp_NEXT_BLKP; sts; try lia.
      rewrite !(load32_store32_other _ _ _ (x - 4)) by lia.
      rewrite load32_store32_same, (wrap32_small (asize + 1)) by lia.
      rewrite (header_size asize 1) by auto.
      set (s4 := set_mem _ _).
      assert (Hfr : forall i, i < x - 4 \/ x + sz - 4 <= i -> mem s4 i = mem s1 i).
      { intros i Hi. unfold s4. sts. rewrite !store32_other by lia. reflexivity. }
      assert (R4 : rep s4 (l1 ++ [(x, asize, Alloc); (x + asize, r, Unlinked)] ++ l2)
                     (fl_del fl (class sz) x)).
      { eapply rep_replace with (s := s1) (a := x) (e := x + sz)
                                (mid := [(x, sz, Unlinked)]); eauto.
        - rewrite Hh1. exact Hc1.
        - simpl. repeat split; lia.
        - simpl. repeat split; lia.
        - split; reflexivity.
        - intros y sy [E|[]]; inversion E.
        - intros y sy [E|[E|[]]]; inversion E.
        - constructor; [|constructor; [|constructor]]; cbn; unfold s4; sts;
            repeat split; try lia.
          + rewrite !(load32_store32_other _ _ _ (x - 4)) by lia.
            rewrite load32_store32_same. rewrite wrap32_small; lia.
          + rewrite !(load32_store32_other _ _ _ (x + asize - 8)) by lia.
            rewrite load32_store32_same. rewrite wrap32_small; auto.
          + rewrite !(load32_store32_other _ _ _ (x + asize - 4)) by lia.
            rewrite load32_store32_same. rewrite wrap32_small; lia.
          + left.
            rewrite load32_store32_same. rewrite wrap32_small; lia. }
      cbn [app] in R4. rewrite app_mid2 in R4.
      use_spec insert_node_spec. intros [] s5 (R5 & [Hh5 Hm5] & Hb5 & K5 & T5).
      rewrite <- app_mid2 in R5.
      apply wp_ret.
      exists (l1 ++ (x, asize, Alloc) :: (x + asize, r, Free) :: l2),
             (fl_ins (fl_del fl (class sz) x) (class r) (x + asize)).
      split; [subst r; apply PC_lower; lia|]. split; [exact R5|].
      assert (Hft : load32 (mem s5) (x + sz - 8) = r).
      { rewrite (insert_frame_inside _ _ _ _ _ _ _ _ (x + sz - 8) R4 T5)
          by (try apply class_range; lia).
        unfold s4. sts. replace (x + sz - 8) with (x + asize + r - 8) by lia.
        rewrite load32_store32_same. apply wrap32_small. lia. }
      unfold s4 in *. sts.
      split; [split; congruence|]. split; [congruence|]. split.
      { intros y sy i Hy Hi.
        assert (Hy' : In (y, sy, Alloc) (l1 ++ l2)) by (clear - Hy; inapp).
        rewrite (K5 y sy i) by (auto; clear - Hy'; inapp).
        eapply Kout; eauto. }
      intros _. replace (asize >=? 100) with false
        by (symmetry; rewrite Z.geb_leb; apply Z.leb_gt; lia).
      subst r. exact Hft.
Qed.

(** ** extend_heap *)
Lemma ALIGN_spec size :
  0 <= size <= 2 ^ 32 - 8 ->
  ALIGN size mod 8 = 0 /\ size <= ALIGN size < size + 8.
Proof.
  intros H. unfold ALIGN, ALIGNMENT. rewrite wrap32_small by lia.
  rewrite land_lnot7.
  pose proof (Z.div_mod (size + (8 - 1)) 8 ltac:(lia)).
  pose proof (Z.mod_pos_bound (size + (8 - 1)) 8 ltac:(lia)).
  split; [|lia].
  rewrite Z.mul_comm. apply Z.mod_mul. lia.
Qed.

Lemma ALIGN_fix size :
  0 <= size < 2 ^ 32 - 8 -> size mod 8 = 0 -> ALIGN size = size.
Proof.
  intros H Hm. unfold ALIGN, ALIGNMENT. rewrite wrap32_small by lia.
  rewrite land_lnot7.
  pose proof (Z.div_mod size 8 ltac:(lia)).
  replace (size + (8 - 1)) with (7 + (size / 8) * 8) by lia.
  rewrite Z.div_add by lia. change (7 / 8) with 0. lia.
Qed.

(** A fresh block on top of the heap. *)
Lemma rep_append s s' bs fl asize :
  rep s bs fl ->
  16 <= asize -> asize mod 8 = 0 ->
  same_heap s s' -> mem_brk s' = mem_brk s + asize ->
  mem_brk s + asize <= mem_max_addr s ->
  segregated_free_lists s' = segregated_free_lists s ->
  (forall i, i < mem_brk s - 4 -> mem s' i = mem s i) ->
  load32 (mem s') (mem_brk s - 4) = asize ->
  footer_ok (load32 (mem s') (mem_brk s + asize - 8)) asize 0 ->
  load32 (mem s') (mem_brk s + asize - 4) = 1 ->
  rep s' (bs ++ [(mem_brk s, asize, Unlinked)]) fl.
Proof.
  intros H Ha Hmod (Hheap & Hmax) Hbrk Hfit Hlists Hfr Hh Hf He.
  pose proof (rep_sized _ _ _ H) as Hs.
  pose proof (rep_contig _ _ _ H) as Hc.
  pose proof (contig_le _ _ _ Hs Hc).
  pose proof (rep_lo _ _ _ H). pose proof (rep_max _ _ _ H).
  pose proof (rep_prologue _ _ _ H) as [P1 P2].
  assert (Hload : forall b, b + 4 <= mem_brk s - 4 ->
            load32 (mem s') b = load32 (mem s) b).
  { intros b Hb. apply load32_ext. intros i Hi. apply Hfr. lia. }
  constructor.
  - lia.
  - lia.
  - rewrite Hheap, !Hload by lia. auto.
  - rewrite Hheap, Hbrk. apply contig_app. exists (mem_brk s). split; auto.
    simpl. auto.
  - rewrite Hbrk. exact He.
  - apply Forall_app. split.
    + pose proof (rep_tags _ _ _ H) as Ht.
      rewrite Forall_forall in *. intros [[x sz] st] Hin.
      specialize (Ht _ Hin). cbn in *.
      pose proof (contig_bounds _ _ _ _ _ _ Hs Hc Hin).
      rewrite !Hload by lia. auto.
    + constructor; [|constructor]. cbn. rewrite Z.add_0_r. auto.
  - intros k Hk. rewrite Hlists.
    apply dll_frame with (m := mem s); [|apply (rep_dll _ _ _ H); auto].
    intros z Hz.
    destruct (rep_fl_block _ _ _ _ _ H Hk Hz) as (szz & Hinz & _).
    pose proof (contig_bounds _ _ _ _ _ _ Hs Hc Hinz).
    rewrite !Hload by lia. auto.
  - apply (rep_nodup _ _ _ H).
  - intros k y Hk. rewrite (rep_mem _ _ _ H k y Hk).
    split; intros (sy & Hin & Hcl); exists sy; split; auto.
    + apply in_or_app. auto.
    + apply in_app_iff in Hin. destruct Hin as [Hin|[E|[]]]; [auto|inversion E].
Qed.

Lemma coalesce_case_facts l1 x sz l2 fl r bs' fl' :
  coalesce_case l1 x sz l2 fl r bs' fl' ->
  Forall linked (l1 ++ (x, sz, Free) :: l2) ->
  sized (l1 ++ (x, sz, Free) :: l2) ->
  exists la rsz lb,
    bs' = la ++ (r, rsz, Free) :: lb /\ sz <= rsz /\ Forall linked bs' /\
    (forall y sy, In (y, sy, Alloc) bs' <->
                  In (y, sy, Alloc) (l1 ++ (x, sz, Free) :: l2)).
Proof.
  intros Hcc Hl Hs. unfold sized in Hs.
  destruct Hcc as [Hp Hn|n nsz l2' Hp ->|l1' p psz -> Hn|l1' p psz n nsz l2' -> ->];
    rewrite ?Forall_app, ?Forall_cons_iff in *; cbn [fst snd] in *.
  - exists l1, sz, l2. repeat split; rewrite ?Forall_app, ?Forall_cons_iff;
      try tauto; try lia.
  - exists l1, (sz + nsz), l2'.
    repeat split; rewrite ?Forall_app, ?Forall_cons_iff; try tauto; try lia;
      unfold linked; cbn; try (intuition congruence); clear; inapp.
  - exists l1', (sz + psz), l2.
    repeat split; rewrite ?Forall_app, ?Forall_cons_iff; try tauto; try lia;
      unfold linked; cbn; try (intuition congruence); clear; inapp.
  - exists l1', (sz + (psz + nsz)), l2'.
    repeat split; rewrite ?Forall_app, ?Forall_cons_iff; try tauto; try lia;
      unfold linked; cbn; try (intuition congruence); clear; inapp.
Qed.

Lemma wp_mem_sbrk incr Q s :
  0 <= incr < 2 ^ 31 ->
  (mem_max_addr s < mem_brk s + incr -> Q SBRK_FAIL s) ->
  (mem_brk s + incr <= mem_max_addr s ->
   Q (mem_brk s) (set_brk s (mem_brk s + incr))) ->
  wp (mem_sbrk incr) Q s.
Proof.
  intros Hi Hfail Hok. unfold wp, mem_sbrk. rewrite to_int_small by lia.
  destruct (Z.ltb_spec incr 0); [lia|].
  destruct (Z.ltb_spec (mem_max_addr s) (mem_brk s + incr)); simpl; auto.
Qed.

Lemma extend_heap_spec fuel s bs fl size :
  rep s bs fl -> Forall linked bs -> (1 <= fuel)%nat ->
  16 <= ALIGN size < 2 ^ 31 -> ALIGN size mod 8 = 0 ->
  wp (extend_heap fuel size)
     (fun r s' =>
        (mem_max_addr s < mem_brk s + ALIGN size /\ r = 0 /\ s' = s) \/
        (mem_brk s + ALIGN size <= mem_max_addr s /\
         exists bs' fl',
           coalesce_case bs (mem_brk s) (ALIGN size) []
                         (fl_ins fl (class (ALIGN size)) (mem_brk s)) r bs' fl' /\
           rep s' bs' fl' /\ same_heap s s' /\
           mem_brk s' = mem_brk s + ALIGN size /\
           keeps_payloads bs s s')) s.
Proof.
  intros H Hl Hfuel Ha Hmod. unfold extend_heap, NULL.
  remember (ALIGN size) as asize eqn:Easize.
  pose proof (rep_lo _ _ _ H). pose proof (rep_max _ _ _ H).
  pose proof (rep_sized _ _ _ H) as Hs. pose proof (rep_contig _ _ _ H) as Hc.
  pose proof (contig_le _ _ _ Hs Hc).
  apply wp_bind, wp_mem_sbrk; [lia| |].
  - intros Hfail. rewrite Z.eqb_refl. apply wp_ret. left. auto.
  - intros Hok.
    assert (Hne : mem_brk s <> SBRK_FAIL).
    { change SBRK_FAIL with 4294967295. lia. }
    apply Z.eqb_neq in Hne. rewrite Hne.
    unfold HDRP; unfold WSIZE.
    apply wp_bind, wp_PUT_NOTAG; sts; try lia.
    rewrite PACK_0 by auto.
    apply wp_bind, wp_FTRP; sts; try lia.
    rewrite load32_store32_same, (wrap32_small asize), size_of_size by (auto; lia).
    apply wp_bind, wp_PUT_NOTAG; sts; try lia.
    apply wp_bind, wp_NEXT_BLKP; sts; try lia.
    rewrite load32_store32_other by lia.
    rewrite load32_store32_same, (wrap32_small asize), size_of_size by (auto; lia).
    apply wp_bind, wp_PUT_NOTAG; sts; try lia.
    change (PACK 0 1) with 1.
    set (s4 := set_mem _ _).
    assert (Hfr : forall i, i < mem_brk s - 4 -> mem s4 i = mem s i).
    { intros i Hi. unfold s4. sts. rewrite !store32_other by lia. reflexivity. }
    assert (R4 : rep s4 (bs ++ [(mem_brk s, asize, Unlinked)]) fl).
    { eapply rep_append with (s := s); eauto; unfold s4; sts;
        try reflexivity; try lia.
      - split; reflexivity.
      - rewrite !load32_store32_other by lia.
        rewrite load32_store32_same. apply wrap32_small. lia.
      - left. rewrite load32_store32_other by lia.
        rewrite load32_store32_same. rewrite wrap32_small; lia.
      - rewrite load32_store32_same. reflexivity. }
    use_spec insert_node_spec. intros [] s5 (R5 & [Hh5 Hm5] & Hb5 & K5 & T5).
    eapply wp_conseq.
    { eapply coalesce_spec; eauto.
      apply Forall_app. split; auto. constructor; [|constructor].
      unfold linked. simpl. discriminate. }
    intros r s6 (bs' & fl' & Hcc & R6 & [Hh6 Hm6] & Hb6 & K6 & T6).
    right. split; [lia|]. exists bs', fl'.
    split; [exact Hcc|]. split; [exact R6|].
    unfold s4 in *. sts.
    split; [split; congruence|]. split; [congruence|].
    intros y sy i Hy Hi.
    rewrite (K6 y sy i) by (auto; clear - Hy; inapp).
    rewrite (K5 y sy i) by (auto; clear - Hy; inapp).
    apply Hfr.
    pose proof (contig_bounds _ _ _ _ _ _ Hs Hc Hy). lia.
Qed.

(** ** mm_malloc *)
Lemma adjust_size_spec size :
  0 < size <= 2 ^ 31 - 24 ->
  16 <= adjust_size size < 2 ^ 31 /\ adjust_size size mod 8 = 0 /\
  size + 8 <= adjust_size size /\ adjust_size size <= size + 15.
Proof.
  intros H. unfold adjust_size, DSIZE.
  destruct (Z.leb_spec size 8).
  - repeat split; try reflexivity; lia.
  - rewrite wrap32_small by lia.
    destruct (ALIGN_spec (size + 8) ltac:(lia)) as [Hm Hr].
    repeat split; auto; lia.
Qed.

Lemma enough_fuel fuel s bs fl :
  rep s bs fl -> enough fuel s -> (1 <= fuel)%nat.
Proof.
  intros H He. unfold enough in He.
  pose proof (contig_le _ _ _ (rep_sized _ _ _ H) (rep_contig _ _ _ H)). lia.
Qed.

Lemma fit_walk_spec s bs fl k asize :
  rep s bs fl -> 0 <= k < 20 ->
  forall l succ p fuel,
    dll (mem s) succ p l -> incl l (fl k) -> (length l < fuel)%nat ->
    wp (fit_walk fuel asize p)
       (fun r s' => s' = s /\
                    (r = 0 \/ exists sz, In (r, sz, Free) bs /\ asize <= sz)) s.
Proof.
  intros H Hk. induction l as [|x l IH]; intros succ p fuel Hd Hi Hf.
  - simpl in Hd. subst p. destruct fuel; [simpl in Hf; lia|].
    simpl. apply wp_ret. auto.
  - cbn [dll] in Hd. destruct Hd as (-> & Hx & Hs & Hd).
    destruct fuel as [|fuel]; [simpl in Hf; lia|].
    cbn [fit_walk]. unfold NULL, HDRP; unfold WSIZE.
    replace (x =? 0) with false by (symmetry; apply Z.eqb_neq; auto).
    assert (Hxin : In x (fl k)) by (apply Hi; left; reflexivity).
    destruct (rep_fl_block _ _ _ _ _ H Hk Hxin) as (sz & Hin & _).
    pose proof (rep_block _ _ _ _ _ _ H Hin) as (B1 & B2 & B3 & B4 & B5 & B6 & B7).
    simpl abit in *. rewrite Z.add_0_r in *.
    apply wp_bind, wp_GET_SIZE; try lia. rewrite B6, size_of_size by auto.
    destruct (Z.gtb_spec asize sz).
    + apply wp_bind, wp_PRED; try lia.
      eapply IH; [exact Hd| |simpl in Hf; lia].
      intros z Hz. apply Hi. right. exact Hz.
    + apply wp_bind, wp_GET_TAG; try lia. rewrite B6, tag_of_size by auto.
      change (negb (0 =? 0)) with false. cbv iota.
      apply wp_ret. split; auto. right. exists sz. split; [exact Hin|lia].
Qed.

Lemma find_fit_spec s bs fl fuel asize :
  rep s bs fl -> enough fuel s ->
  forall n searchsize list,
    list + Z.of_nat n = 20 -> 0 <= list ->
    wp (find_fit n fuel asize searchsize list NULL)
       (fun r s' => s' = s /\
                    (r = 0 \/ exists sz, In (r, sz, Free) bs /\ asize <= sz)) s.
Proof.
  intros H He. induction n as [|n IH]; intros searchsize list Hn Hl.
  - simpl. apply wp_ret. auto.
  - cbn [find_fit]. apply wp_bind, wp_get_list.
    assert (Hk : 0 <= list < 20) by lia.
    destruct ((list =? LISTLIMIT - 1)
              || (searchsize <=? 1) && negb (segregated_free_lists s list =? NULL)).
    + apply wp_bind. eapply wp_conseq.
      * eapply fit_walk_spec with (l := fl list); eauto.
        -- apply (rep_dll _ _ _ H); auto.
        -- apply incl_refl.
        -- pose proof (rep_fl_length _ _ _ _ H Hk). unfold enough in He. lia.
      * intros r s' (-> & Hr).
        destruct (Z.eqb_spec r NULL) as [->|Hne]; cbn [negb].
        -- apply IH; lia.
        -- apply wp_ret. auto.
    + apply IH; lia.
Qed.

Lemma place_case_facts s l1 x sz asize l2 fl r bs' fl' :
  place_case l1 x sz asize l2 fl r bs' fl' ->
  rep s (l1 ++ (x, sz, Free) :: l2) fl ->
  Forall linked (l1 ++ (x, sz, Free) :: l2) ->
  16 <= asize <= sz ->
  exists rsz,
    In (r, rsz, Alloc) bs' /\ asize <= rsz /\ Forall linked bs' /\
    (forall sy, ~ In (r, sy, Alloc) (l1 ++ (x, sz, Free) :: l2)) /\
    (forall y sy, In (y, sy, Alloc) (l1 ++ (x, sz, Free) :: l2) ->
                  In (y, sy, Alloc) bs').
Proof.
  intros Hpc H Hl Ha.
  assert (Hx : In (x, sz, Free) (l1 ++ (x, sz, Free) :: l2)) by (clear; inapp).
  assert (Hnot : forall r' sy, x <= r' < x + sz ->
            ~ In (r', sy, Alloc) (l1 ++ (x, sz, Free) :: l2)).
  { intros r' sy Hr Hin.
    pose proof (rep_block _ _ _ _ _ _ H Hin).
    destruct (rep_sep _ _ _ _ _ _ _ _ _ H Hx Hin) as [E|?]; [inversion E|lia]. }
  destruct Hpc as [Hr|Hr Hb|Hr Hb].
  - exists sz. split; [clear; inapp|]. split; [lia|]. split; [|split].
    + rewrite Forall_app, Forall_cons_iff in *. unfold linked in *. cbn in *.
      intuition congruence.
    + intros sy. apply Hnot. lia.
    + intros y sy Hin. clear - Hin. inapp.
  - exists asize. split; [clear; inapp|]. split; [lia|]. split; [|split].
    + rewrite Forall_app, !Forall_cons_iff in *. unfold linked in *. cbn in *.
      intuition congruence.
    + intros sy. apply Hnot. lia.
    + intros y sy Hin. clear - Hin. inapp.
  - exists asize. split; [clear; inapp|]. split; [lia|]. split; [|split].
    + rewrite Forall_app, !Forall_cons_iff in *. unfold linked in *. cbn in *.
      intuition congruence.
    + intros sy. apply Hnot. lia.
    + intros y sy Hin. clear - Hin. inapp.
Qed.

Lemma mm_malloc_spec fuel s bs fl size :
  rep s bs fl -> Forall linked bs -> enough fuel s ->
  0 < size <= 2 ^ 31 - 24 ->
  wp (mm_malloc fuel size) (malloc_post s bs (adjust_size size)) s.
Proof.
  intros H Hl He Hsize.
  pose proof (enough_fuel _ _ _ _ H He) as Hfuel.
  destruct (adjust_size_spec size Hsize) as (A1 & A2 & A3 & A4).
  unfold mm_malloc, NULL.
  replace (size =? 0) with false by (symmetry; apply Z.eqb_neq; lia).
  remember (adjust_size size) as asize eqn:Easize.
  apply wp_bind. eapply wp_conseq.
  { eapply find_fit_spec with (n := 20%nat) (list := 0); eauto; lia. }
  intros r0 s0 (-> & Hr0).
  assert (Hplace : forall s1 bs1 fl1 x sz l1 l2,
             rep s1 (l1 ++ (x, sz, Free) :: l2) fl1 ->
             Forall linked (l1 ++ (x, sz, Free) :: l2) ->
             asize <= sz ->
             same_heap s s1 -> mem_brk s <= mem_brk s1 ->
             keeps_payloads bs s s1 ->
             (forall y sy, In (y, sy, Alloc) bs <->
                           In (y, sy, Alloc) (l1 ++ (x, sz, Free) :: l2)) ->
             bs1 = l1 ++ (x, sz, Free) :: l2 ->
             wp (place fuel x asize) (malloc_post s bs asize) s1).
  { intros s1 bs1 fl1 x sz l1 l2 R1 L1 Hsz [Hh1 Hm1] Hb1 K1 Hal _.
    eapply wp_conseq; [eapply place_spec; eauto; lia|].
    intros r s2 (bs2 & fl2 & Hpc & R2 & [Hh2 Hm2] & Hb2 & K2 & _).
    destruct (place_case_facts _ _ _ _ _ _ _ _ _ _ Hpc R1 L1 ltac:(lia))
      as (rsz & Hin & Hrsz & L2 & Hnew & Hmono).
    right. exists bs2, fl2, rsz.
    split; [exact R2|]. split; [exact L2|]. split; [exact Hin|].
    split; [lia|]. split; [|split; [|split; [|split]]].
    - intros sy Hsy. apply (Hnew sy). apply Hal. exact Hsy.
    - intros y sy Hy. apply Hmono, Hal, Hy.
    - split; congruence.
    - lia.
    - intros y sy i Hy Hi. rewrite (K2 y sy i); [apply (K1 y sy i); auto| |auto].
      apply Hal. exact Hy. }
  destruct (Z.eqb_spec r0 0) as [->|Hne].
  - (* no fit: extend the heap *)
    apply wp_bind.
    assert (Eext : wrap32 (MAX (to_int asize) (to_int CHUNKSIZE))
                   = Z.max asize 4096).
    { rewrite to_int_small by lia. change (to_int CHUNKSIZE) with 4096.
      unfold MAX. destruct (Z.gtb_spec asize 4096); rewrite wrap32_small; lia. }
    rewrite Eext.
    assert (Emod : Z.max asize 4096 mod 8 = 0).
    { destruct (Z.max_spec asize 4096) as [[_ ->]|[_ ->]]; auto. }
    assert (Eal : ALIGN (Z.max asize 4096) = Z.max asize 4096)
      by (apply ALIGN_fix; auto; lia).
    eapply wp_conseq.
    { eapply extend_heap_spec; eauto; rewrite Eal; auto; lia. }
    intros e s1 [(Hfail & -> & ->)|(Hok & bs1 & fl1 & Hcc & R1 & [Hh1 Hm1] & Hb1 & K1)].
    + rewrite Z.eqb_refl. apply wp_ret. left. auto.
    + rewrite Eal in *.
      assert (Hl1 : Forall linked (bs ++ [(mem_brk s, Z.max asize 4096, Free)])).
      { apply Forall_app. split; auto. constructor; [|constructor].
        unfold linked. simpl. discriminate. }
      assert (Hs1 : sized (bs ++ [(mem_brk s, Z.max asize 4096, Free)])).
      { apply sized_app. split; [eapply rep_sized; eauto|].
        constructor; [simpl; lia|constructor]. }
      destruct (coalesce_case_facts _ _ _ _ _ _ _ _ Hcc Hl1 Hs1)
        as (la & rsz & lb & -> & Hrsz & L1 & Hal).
      assert (Hein : In (e, rsz, Free) (la ++ (e, rsz, Free) :: lb)) by (clear; inapp).
      pose proof (rep_block _ _ _ _ _ _ R1 Hein).
      pose proof (rep_lo _ _ _ R1).
      replace (e =? 0) with false by (symmetry; apply Z.eqb_neq; lia).
      eapply Hplace; eauto; try lia.
      * split; assumption.
      * intros y sy. rewrite Hal. clear. inapp.
  - destruct Hr0 as [?|(sz & Hin & Hsz)]; [contradiction|].
    destruct (in_split _ _ Hin) as (l1 & l2 & ->).
    eapply Hplace; eauto; try lia.
    + split; reflexivity.
    + intros y sy i _ _. reflexivity.
    + intros y sy. tauto.
Qed.

(** ** mm_free and mm_init *)
Lemma mm_free_spec fuel s l1 p sz l2 fl :
  rep s (l1 ++ (p, sz, Alloc) :: l2) fl ->
  Forall linked (l1 ++ (p, sz, Alloc) :: l2) ->
  (1 <= fuel)%nat ->
  wp (mm_free fuel p) (fun _ s' => free_post s l1 p sz l2 fl s') s.
Proof.
  intros H Hl Hfuel.
  assert (Hp : In (p, sz, Alloc) (l1 ++ (p, sz, Alloc) :: l2)) by (clear; inapp).
  pose proof (rep_block _ _ _ _ _ _ H Hp) as (B1 & B2 & B3 & B4 & B5 & B6 & B7).
  simpl abit in *.
  pose proof (rep_contig _ _ _ H) as Hc0. apply contig_mid in Hc0.
  destruct Hc0 as [Hc1 Hc2].
  pose proof (rep_sized _ _ _ H) as Hsz0. apply sized_app in Hsz0.
  destruct Hsz0 as [Hs1 Hs2]. apply Forall_cons_iff in Hs2. destruct Hs2 as [_ Hs2].
  pose proof (rep_max _ _ _ H). pose proof (rep_lo _ _ _ H).
  unfold mm_free, REMOVE_RATAG, GET, HDRP; unfold WSIZE.
  apply wp_bind, wp_GET_SIZE; try lia. rewrite B6, (header_size sz 1) by auto.
  apply wp_bind, wp_NEXT_BLKP; try lia. rewrite B6, (header_size sz 1) by auto.
  apply wp_bind, wp_bind, wp_read32; try lia. apply wp_ret.
  apply wp_bind, wp_PUT; try lia. rewrite B6.
  rewrite put_value_hdr by (auto using header_tag). rewrite Z.add_0_r. sts.
  apply wp_bind, wp_FTRP; sts; try lia.
  rewrite load32_store32_same, (wrap32_small sz), size_of_size by (auto; lia).
  apply wp_bind, wp_PUT; sts; try lia.
  set (v := Z.lor (PACK sz 0) _).
  assert (Hv : footer_ok v sz 0) by (apply put_value; auto).
  assert (Hvr : 0 <= v < 2 ^ 32)
    by (apply (footer_ok_range v sz 0); [lia|auto|exact Hv]).
  set (s4 := set_mem (set_mem s _) _).
  assert (Hfr : forall i, i < p - 4 \/ p <= i < p + sz - 8 \/ p + sz - 4 <= i ->
                          mem s4 i = mem s i).
  { intros i Hi. unfold s4. sts. rewrite !store32_other by lia. reflexivity. }
  assert (R4 : rep s4 (l1 ++ [(p, sz, Unlinked)] ++ l2) fl).
  { eapply rep_replace with (s := s) (a := p) (e := p + sz)
                            (mid := [(p, sz, Alloc)]); eauto.
    - simpl. repeat split; lia.
    - simpl. repeat split; lia.
    - split; reflexivity.
    - intros y sy [E|[]]; inversion E.
    - intros y sy [E|[]]; inversion E.
    - constructor; [|constructor]. cbn. unfold s4. sts.
      repeat split; try lia.
      + rewrite load32_store32_other by lia.
        rewrite load32_store32_same. rewrite wrap32_small; lia.
      + rewrite load32_store32_same. rewrite wrap32_small; auto.
    - intros i Hi. apply Hfr. lia. }
  cbn [app] in R4.
  use_spec insert_node_spec. intros [] s5 (R5 & [Hh5 Hm5] & Hb5 & K5 & T5).
  assert (L5 : Forall linked (l1 ++ (p, sz, Free) :: l2)).
  { rewrite Forall_app, Forall_cons_iff in *. unfold linked in *. cbn in *.
    intuition congruence. }
  apply wp_bind. eapply wp_conseq; [eapply coalesce_spec; eauto|].
  intros r s6 (bs' & fl' & Hcc & R6 & [Hh6 Hm6] & Hb6 & K6 & T6).
  apply wp_ret. exists r, bs', fl'.
  destruct (coalesce_case_facts _ _ _ _ _ _ _ _ Hcc L5 (rep_sized _ _ _ R5))
    as (la & rsz & lb & Ebs & Hrsz & L6 & Hal).
  assert (Hal' : forall y sy, In (y, sy, Alloc) bs' <-> In (y, sy, Alloc) (l1 ++ l2)).
  { intros y sy. rewrite Hal. clear. inapp. }
  unfold s4 in *. sts.
  split; [exact Hcc|]. split; [exact R6|]. split; [exact L6|].
  split; [split; congruence|]. split; [congruence|]. split; [|split; [exact Hal'|]].
  - intros y sy i Hy Hi.
    rewrite (K6 y sy i) by (auto; clear - Hy; inapp).
    rewrite (K5 y sy i) by (auto; clear - Hy; inapp).
    apply Hfr.
    apply in_app_iff in Hy. destruct Hy as [Hy|Hy].
    + pose proof (contig_bounds _ _ _ _ _ _ Hs1 Hc1 Hy). lia.
    + pose proof (contig_bounds _ _ _ _ _ _ Hs2 Hc2 Hy). lia.
  - destruct l2 as [|[[n nsz] stn] l2'].
    + simpl in Hc2. replace (p + sz - 4) with (mem_brk s6 - 4) by lia.
      rewrite (rep_epilogue _ _ _ R6). reflexivity.
    + simpl in Hc2. destruct Hc2 as [En Hc2].
      replace (p + sz - 4) with (n - 4) by lia.
      destruct stn.
      * assert (Hn6 : In (n, nsz, Alloc) bs') by (apply Hal'; clear; inapp).
        pose proof (rep_block _ _ _ _ _ _ R6 Hn6) as (_ & _ & _ & N4 & _ & N6 & _).
        rewrite N6. apply header_tag; auto.
      * rewrite (T6 n nsz l2' eq_refl).
        assert (Hn5 : In (n, nsz, Free) (l1 ++ (p, sz, Free) :: (n, nsz, Free) :: l2'))
          by (clear; inapp).
        pose proof (rep_block _ _ _ _ _ _ R5 Hn5) as (_ & _ & _ & N4 & _ & N6 & _).
        rewrite N6. apply header_tag; auto.
      * exfalso. rewrite Forall_app, !Forall_cons_iff in Hl.
        unfold linked in Hl. cbn in Hl. intuition congruence.
Qed.

Lemma to_int_not_m1 x : 0 <= x < 2 ^ 32 - 1 -> to_int x <> -1.
Proof.
  intros H. unfold to_int. rewrite wrap32_small by lia.
  destruct (Z.ltb_spec x (2 ^ 31)); lia.
Qed.

Lemma mm_init_spec fuel s :
  mem_brk s = mem_heap s -> 0 < mem_heap s ->
  mem_max_addr s < 2 ^ 32 -> mem_max_addr s - mem_heap s < 2 ^ 31 ->
  (1 <= fuel)%nat ->
  wp (mm_init fuel)
     (fun r s' =>
        (r = -1 /\ mem_max_addr s < mem_heap s + 80) \/
        (r = 0 /\ mem_heap s + 80 <= mem_max_addr s /\
         rep s' [(mem_heap s + 16, 64, Free)] (init_fl (mem_heap s)) /\
         same_heap s s' /\ mem_brk s' = mem_heap s + 80)) s.
Proof.
  intros Hb Hlo Hmax Hspan Hfuel.
  unfold mm_init, clear_lists. apply wp_bind. unfold wp at 1.
  apply wp_bind, wp_mem_sbrk; sts; [unfold WSIZE; lia| |].
  - intros Hfail. change (to_int SBRK_FAIL =? -1) with true. cbv iota.
    apply wp_ret. left. split; auto. unfold WSIZE in Hfail. lia.
  - intros Hok. unfold WSIZE in Hok.
    replace (to_int (mem_brk s) =? -1) with false
      by (symmetry; apply Z.eqb_neq, to_int_not_m1; lia).
    unfold WSIZE, DSIZE.
    apply wp_bind, wp_PUT_NOTAG; sts; try lia.
    apply wp_bind, wp_PUT_NOTAG; sts; try lia.
    apply wp_bind, wp_PUT_NOTAG; sts; try lia.
    apply wp_bind, wp_PUT_NOTAG; sts; try lia.
    change (PACK 8 1) with 9. change (PACK 0 1) with 1.
    set (s4 := set_mem _ _).
    assert (R4 : rep s4 [] (fun _ => [])).
    { unfold s4. constructor; sts.
      - lia.
      - lia.
      - split.
        + rewrite !load32_store32_other by lia.
          replace (mem_brk s + 1 * 4) with (mem_heap s + 4) by lia.
          apply load32_store32_same.
        + rewrite !load32_store32_other by lia.
          replace (mem_brk s + 2 * 4) with (mem_heap s + 8) by lia.
          apply load32_store32_same.
      - simpl. lia.
      - replace (mem_brk s + 4 * 4 - 4) with (mem_brk s + 3 * 4) by lia.
        apply load32_store32_same.
      - constructor.
      - intros k Hk. simpl.
        destruct (Z.leb_spec 0 k); destruct (Z.ltb_spec k LISTLIMIT);
          unfold LISTLIMIT in *; simpl; try reflexivity; lia.
      - intros k Hk. constructor.
      - intros k x Hk. split; [intros []|intros (sz & [] & _)]. }
    change INITCHUNKSIZE with 64.
    apply wp_bind. eapply wp_conseq.
    { eapply extend_heap_spec with (bs := []); eauto;
        try (change (ALIGN 64) with 64; lia); try reflexivity. }
    change (ALIGN 64) with 64. unfold s4. sts.
    intros e s5 [(Hfail & -> & ->)|(Hok5 & bs5 & fl5 & Hcc & R5 & [Hh5 Hm5] & Hb5 & K5)].
    + rewrite Z.eqb_refl. apply wp_ret. left. split; auto. lia.
    + sts.
      assert (Hbs5 : e = mem_heap s + 16 /\ bs5 = [(mem_heap s + 16, 64, Free)]
                     /\ fl5 = init_fl (mem_heap s)).
      { replace (mem_brk s + 4 * 4) with (mem_heap s + 16) in Hcc by lia.
        inversion Hcc; subst; auto;
          match goal with
          | E : [] = ?l ++ _ |- _ => destruct l; discriminate
          | E : [] = _ :: _ |- _ => discriminate
          end. }
      destruct Hbs5 as (-> & -> & ->).
      pose proof (rep_lo _ _ _ R5).
      replace (mem_heap s + 16 =? NULL) with false
        by (symmetry; apply Z.eqb_neq; unfold NULL; lia).
      apply wp_ret. right.
      split; [reflexivity|]. split; [lia|]. split; [|split; [split; congruence|lia]].
      replace (mem_brk s + 4 * 4) with (mem_heap s + 16) in R5 by lia. exact R5.
Qed.

(** ** mm_realloc *)
(** The common end of in-place growth: the successor is unlinked and the
    tags of the block are rewritten for the size [T]. *)
Lemma annex_tail s l1 p psz n S l2 fl T new_size :
  rep s (l1 ++ (p, psz, Alloc) :: (n, S, Free) :: l2) fl ->
  T mod 8 = 0 -> psz + S <= T -> p + T <= mem_brk s ->
  wp (n2 <- NEXT_BLKP p ;;
      delete_node n2 ;;;
      PUT_NOTAG (HDRP p) (PACK T 1) ;;;
      f <- FTRP p ;;
      PUT_NOTAG f (PACK T 1) ;;;
      sz <- GET_SIZE (HDRP p) ;;
      ret (Some (p, to_int (sz - new_size))))
     (fun r s' =>
        r = Some (p, to_int (T - new_size)) /\
        same_heap s s' /\ mem_brk s' = mem_brk s /\
        load32 (mem s') (p - 4) = T + 1 /\
        (forall i, p <= i < p + psz - 8 -> mem s' i = mem s i) /\
        (T = psz + S ->
         rep s' (l1 ++ (p, T, Alloc) :: l2) (fl_del fl (class S) n) /\
         keeps_payloads (l1 ++ l2) s s')) s.
Proof.
  intros H HT HTS HTb.
  assert (Hp : In (p, psz, Alloc) (l1 ++ (p, psz, Alloc) :: (n, S, Free) :: l2))
    by (clear; inapp).
  pose proof (rep_block _ _ _ _ _ _ H Hp) as (B1 & B2 & B3 & B4 & B5 & B6 & B7).
  simpl abit in *.
  pose proof (rep_contig _ _ _ H) as Hc0. apply contig_mid in Hc0.
  destruct Hc0 as [Hc1 Hc2]. simpl in Hc2. destruct Hc2 as [En Hc2].
  pose proof (rep_sized _ _ _ H) as Hsz0. apply sized_app in Hsz0.
  destruct Hsz0 as [Hs1 Hs2]. apply Forall_cons_iff in Hs2. destruct Hs2 as [_ Hs2].
  apply Forall_cons_iff in Hs2. destruct Hs2 as [HS Hs2]. simpl in HS.
  pose proof (rep_max _ _ _ H). pose proof (rep_lo _ _ _ H).
  unfold HDRP; unfold WSIZE.
  apply wp_bind, wp_NEXT_BLKP; try lia.
  rewrite B6, (header_size psz 1) by auto.
  replace (p + psz) with n by lia.
  rewrite app_mid2 in H.
  use_spec delete_node_spec. intros [] s1 (R1 & [Hh1 Hm1] & Hb1 & K1 & T1).
  rewrite <- app_mid2 in H, R1, K1.
  apply wp_bind, wp_PUT_NOTAG; try lia. rewrite PACK_1 by auto. sts.
  apply wp_bind, wp_FTRP; sts; try lia.
  rewrite load32_store32_same, (wrap32_small (T + 1)), (header_size T 1)
    by (auto; lia).
  apply wp_bind, wp_PUT_NOTAG; sts; try lia.
  apply wp_bind, wp_GET_SIZE; sts; try lia.
  rewrite load32_store32_other by lia.
  rewrite load32_store32_same, (wrap32_small (T + 1)), (header_size T 1)
    by (auto; lia).
  apply wp_ret.
  set (s4 := set_mem (set_mem s1 _) _).
  assert (Hfr : forall i, i < p - 4 \/ p <= i < p + T - 8 \/ p + T - 4 <= i ->
                          mem s4 i = mem s1 i).
  { intros i Hi. unfold s4. sts. rewrite !store32_other by lia. reflexivity. }
  split; [reflexivity|]. split; [split; assumption|]. split; [assumption|].
  split; [|split].
  - unfold s4. sts. rewrite load32_store32_other by lia.
    rewrite load32_store32_same. apply wrap32_small. lia.
  - intros i Hi. rewrite Hfr by lia. apply (K1 p psz i); [exact Hp|lia].
  - intros ET. split.
    + change (l1 ++ (p, T, Alloc) :: l2) with (l1 ++ [(p, T, Alloc)] ++ l2).
      eapply rep_replace with (s := s1) (a := p) (e := p + T)
                              (mid := [(p, psz, Alloc); (n, S, Unlinked)]); eauto.
      * rewrite Hh1. exact Hc1.
      * simpl. repeat split; lia.
      * simpl. repeat split; lia.
      * split; reflexivity.
      * intros y sy [E|[E|[]]]; inversion E.
      * intros y sy [E|[]]; inversion E.
      * constructor; [|constructor]. cbn. unfold s4. sts.
        repeat split; try lia.
        -- rewrite load32_store32_other by lia.
           rewrite load32_store32_same. rewrite wrap32_small; lia.
        -- left. rewrite load32_store32_same. rewrite wrap32_small; lia.
      * intros i Hi. apply Hfr. lia.
    + intros y sy i Hy Hi. rewrite Hfr.
      * apply (K1 y sy i); auto. clear - Hy. inapp.
      * apply in_app_iff in Hy. destruct Hy as [Hy|Hy].
        -- pose proof (contig_bounds _ _ _ _ _ _ Hs1 Hc1 Hy). lia.
        -- pose proof (contig_bounds _ _ _ _ _ _ Hs2 Hc2 Hy). lia.
Qed.

(** Where the block grown in place ends up after a heap extension. *)
Lemma after_extend_shape l1 (p psz : Z) l2 brk ext fl r bs1 fl1 :
  coalesce_case (l1 ++ (p, psz, Alloc) :: l2) brk ext [] fl r bs1 fl1 ->
  (l2 = [] -> bs1 = l1 ++ (p, psz, Alloc) :: [(brk, ext, Free)]) /\
  (forall n nsz, l2 = [(n, nsz, Free)] ->
                 bs1 = l1 ++ (p, psz, Alloc) :: [(n, ext + nsz, Free)]) /\
  (forall n nsz b l2'', l2 = (n, nsz, Free) :: b :: l2'' ->
     exists l2x, bs1 = l1 ++ (p, psz, Alloc) :: (n, nsz, Free) :: l2x).
Proof.
  intros Hcc.
  destruct Hcc as [Hp Hn|n0 nsz0 l0 Hp E|l1' q qsz E Hn|l1' q qsz n0 nsz0 l0 E E2];
    try discriminate.
  - split; [|split].
    + intros ->. rewrite <- app_assoc. reflexivity.
    + intros n nsz ->. exfalso.
      specialize (Hp (l1 ++ [(p, psz, Alloc)]) n nsz Free).
      rewrite <- app_assoc in Hp. specialize (Hp eq_refl). discriminate.
    + intros n nsz b l2'' ->. exists (b :: l2'' ++ [(brk, ext, Free)]).
      rewrite <- app_assoc. reflexivity.
  - split; [|split].
    + intros ->. apply app_inj_tail in E. destruct E as [_ E]. discriminate.
    + intros n nsz ->.
      change (l1 ++ (p, psz, Alloc) :: [(n, nsz, Free)])
        with (l1 ++ [(p, psz, Alloc)] ++ [(n, nsz, Free)]) in E.
      rewrite app_assoc in E. apply app_inj_tail in E. destruct E as [<- E].
      inversion E; subst. rewrite <- app_assoc. reflexivity.
    + intros n nsz b l2'' ->.
      destruct (exists_last_or_nil (b :: l2'')) as [E0|(l3 & c & E0)];
        [discriminate|].
      rewrite E0 in E.
      change (l1 ++ (p, psz, Alloc) :: (n, nsz, Free) :: l3 ++ [c])
        with (l1 ++ ((p, psz, Alloc) :: (n, nsz, Free) :: l3) ++ [c]) in E.
      rewrite app_assoc in E. apply app_inj_tail in E. destruct E as [<- E].
      exists (l3 ++ [(q, ext + qsz, Free)]).
      rewrite <- app_assoc. reflexivity.
Qed.

Lemma linked_drop l1 (b b' : block) c l2 :
  Forall linked (l1 ++ b :: c :: l2) -> linked b' ->
  Forall linked (l1 ++ b' :: l2).
Proof.
  rewrite !Forall_app, !Forall_cons_iff. tauto.
Qed.

Lemma to_int_range x : - 2 ^ 31 <= x < 2 ^ 31 -> to_int x = x.
Proof.
  intros H. destruct (Z.lt_ge_cases x 0);
    [apply to_int_neg|apply to_int_small]; lia.
Qed.

Lemma grow_spec fuel s l1 p psz l2 fl new_size :
  rep s (l1 ++ (p, psz, Alloc) :: l2) fl ->
  Forall linked (l1 ++ (p, psz, Alloc) :: l2) -> (1 <= fuel)%nat ->
  new_size mod 8 = 0 -> psz < new_size < 2 ^ 31 ->
  (l2 = [] \/ exists n nsz l2', l2 = (n, nsz, Free) :: l2') ->
  wp (psz1 <- GET_SIZE (HDRP p) ;;
      n1 <- NEXT_BLKP p ;;
      nsz1 <- GET_SIZE (HDRP n1) ;;
      let remainder := to_int (wrap32 (psz1 + nsz1) - new_size) in
      g <- (if remainder <? 0 then
              let extendsize := to_int (MAX (to_int (- remainder))
                                            (to_int CHUNKSIZE)) in
              e <- extend_heap fuel (wrap32 extendsize) ;;
              if e =? NULL then ret None
              else ret (Some (to_int (remainder + extendsize)))
            else ret (Some remainder)) ;;
      match g with
      | None => ret None
      | Some remainder =>
          n2 <- NEXT_BLKP p ;;
          delete_node n2 ;;;
          PUT_NOTAG (HDRP p) (PACK (wrap32 (new_size + remainder)) 1) ;;;
          f <- FTRP p ;;
          PUT_NOTAG f (PACK (wrap32 (new_size + remainder)) 1) ;;;
          sz <- GET_SIZE (HDRP p) ;;
          ret (Some (p, to_int (sz - new_size)))
      end)
     (grow_post s l1 p psz l2 new_size) s.
Proof.
  intros H Hl Hfuel Hnm Hns Hl2.
  assert (Hp : In (p, psz, Alloc) (l1 ++ (p, psz, Alloc) :: l2)) by (clear; inapp).
  pose proof (rep_block _ _ _ _ _ _ H Hp) as (B1 & B2 & B3 & B4 & B5 & B6 & B7).
  simpl abit in *.
  pose proof (rep_max _ _ _ H). pose proof (rep_lo _ _ _ H).
  destruct (next_view _ _ _ _ _ _ _ H) as (na & Ena & Bn & Hnext).
  (* the size word of the successor *)
  assert (Hnsz : exists nsz,
             Z.land (load32 (mem s) (p + psz - 4)) (Z.lnot 7) = nsz /\
             nsz mod 8 = 0 /\ 0 <= nsz /\ p + psz + nsz <= mem_brk s /\
             (l2 = [] -> nsz = 0) /\
             (forall n nsz' l2', l2 = (n, nsz', Free) :: l2' ->
                                 nsz = nsz' /\ n = p + psz)).
  { destruct Hl2 as [->|(n & nsz & l2' & ->)].
    - exists 0. destruct Hnext as [(_ & _ & E)|(? & ? & ? & ? & E & _)];
        [|discriminate].
      rewrite E. repeat split; try reflexivity; try lia; intros;
        try discriminate; try lia.
    - exists nsz.
      assert (Hn : In (n, nsz, Free) (l1 ++ (p, psz, Alloc) :: (n, nsz, Free) :: l2'))
        by (clear; inapp).
      pose proof (rep_block _ _ _ _ _ _ H Hn) as (C1 & C2 & C3 & C4 & C5 & C6 & C7).
      pose proof (rep_contig _ _ _ H) as Hc. apply contig_mid in Hc.
      destruct Hc as [_ Hc]. simpl in Hc. destruct Hc as [En _].
      simpl abit in *. rewrite Z.add_0_r in C6.
      replace (p + psz - 4) with (n - 4) by lia.
      rewrite C6, size_of_size by auto.
      repeat split; auto; try lia; try discriminate; inversion H2; subst; auto. }
  destruct Hnsz as (nsz & Ensz & Hnszm & Hnsz0 & Hnszb & Hnil & Hcons).
  unfold HDRP; unfold WSIZE.
  apply wp_bind, wp_GET_SIZE; try lia. rewrite B6, (header_size psz 1) by auto.
  apply wp_bind, wp_NEXT_BLKP; try lia. rewrite B6, (header_size psz 1) by auto.
  apply wp_bind, wp_GET_SIZE; try lia. rewrite Ensz. cbv zeta.
  rewrite (wrap32_small (psz + nsz)) by lia.
  rewrite (to_int_range (psz + nsz - new_size)) by lia.
  apply wp_bind.
  destruct (Z.ltb_spec (psz + nsz - new_size) 0) as [Hneg|Hpos].
  - (* the heap has to grow *)
    remember (Z.max (new_size - psz - nsz) 4096) as ext eqn:Eext.
    assert (Eext' : to_int (MAX (to_int (- (psz + nsz - new_size))) (to_int CHUNKSIZE))
                    = ext).
    { rewrite (to_int_range (- _)) by lia. change (to_int CHUNKSIZE) with 4096.
      unfold MAX. destruct (Z.gtb_spec (- (psz + nsz - new_size)) 4096);
        rewrite to_int_range; lia. }
    rewrite Eext'.
    assert (Hextm : ext mod 8 = 0).
    { subst ext. destruct (Z.max_spec (new_size - psz - nsz) 4096) as [[_ ->]|[_ ->]];
        auto. apply mod8_sub; auto. apply mod8_sub; auto. }
    assert (Hextr : 4096 <= ext < 2 ^ 31) by lia.
    rewrite (wrap32_small ext) by lia.
    assert (Eal : ALIGN ext = ext) by (apply ALIGN_fix; auto; lia).
    apply wp_bind. eapply wp_conseq.
    { eapply extend_heap_spec; eauto; rewrite Eal; auto; lia. }
    rewrite Eal.
    intros e s1 [(Hfail & -> & ->)|(Hok & bs1 & fl1 & Hcc & R1 & [Hh1 Hm1] & Hb1 & K1)].
    + rewrite Z.eqb_refl. apply wp_ret. apply wp_ret. left. auto.
    + assert (Hl1 : Forall linked ((l1 ++ (p, psz, Alloc) :: l2) ++
                                   [(mem_brk s, ext, Free)])).
      { apply Forall_app. split; auto. constructor; [|constructor].
        unfold linked. simpl. discriminate. }
      assert (Hs1 : sized ((l1 ++ (p, psz, Alloc) :: l2) ++ [(mem_brk s, ext, Free)])).
      { apply sized_app. split; [eapply rep_sized; eauto|].
        constructor; [simpl; lia|constructor]. }
      destruct (coalesce_case_facts _ _ _ _ _ _ _ _ Hcc Hl1 Hs1)
        as (la & rsz & lb & Ebs1 & Hrsz & L1 & Hal).
      assert (Hein : In (e, rsz, Free) bs1) by (rewrite Ebs1; clear; inapp).
      pose proof (rep_block _ _ _ _ _ _ R1 Hein).
      pose proof (rep_lo _ _ _ R1).
      replace (e =? NULL) with false by (symmetry; apply Z.eqb_neq; unfold NULL; lia).
      apply wp_ret.
      rewrite (to_int_range (psz + nsz - new_size + ext)) by lia.
      replace (new_size + (psz + nsz - new_size + ext)) with (psz + nsz + ext) by lia.
      pose proof (rep_max _ _ _ R1).
      rewrite (wrap32_small (psz + nsz + ext)) by lia.
      assert (HTm : (psz + nsz + ext) mod 8 = 0)
        by (apply mod8_add; auto; apply mod8_add; auto).
      destruct (after_extend_shape _ _ _ _ _ _ _ _ _ _ Hcc) as (Sh1 & Sh2 & Sh3).
      assert (Hshape : exists n' S l2x,
                 bs1 = l1 ++ (p, psz, Alloc) :: (n', S, Free) :: l2x /\
                 psz + S <= psz + nsz + ext /\
                 ((l2 = [] \/ (exists n nsz0, l2 = [(n, nsz0, Free)])) ->
                  psz + nsz + ext = psz + S /\ l2x = [])).
      { destruct Hl2 as [->|(n & nsz' & l2' & ->)].
        - rewrite (Hnil eq_refl) in *. exists (mem_brk s), ext, [].
          split; [apply Sh1; reflexivity|]. split; [lia|]. intros _. split; [lia|auto].
        - destruct (Hcons _ _ _ eq_refl) as [<- En].
          destruct l2' as [|b l2''].
          + exists n, (ext + nsz), []. split; [eapply Sh2; eauto|].
            split; [lia|]. intros _. split; [lia|auto].
          + destruct (Sh3 _ _ _ _ eq_refl) as (l2x & E).
            exists n, nsz, l2x. split; [exact E|]. split; [lia|].
            intros [?|(? & ? & ?)]; discriminate. }
      destruct Hshape as (n' & S & l2x & -> & HTS & Hsafe).
      eapply wp_conseq.
      { eapply annex_tail with (T := psz + nsz + ext); eauto. lia. }
      intros r s2 (-> & [Hh2 Hm2] & Hb2 & Hhdr & Hkeep & Hrep).
      right. exists (psz + nsz + ext).
      split; [reflexivity|]. split; [lia|]. split; [exact HTm|].
      split; [split; congruence|]. split; [lia|]. split; [lia|].
      split; [exact Hhdr|]. split.
      * intros i Hi. rewrite Hkeep by lia. apply (K1 p psz i); auto.
      * intros Hs.
        assert (Hs' : l2 = [] \/ (exists n nsz0, l2 = [(n, nsz0, Free)])).
        { destruct Hs as [?|[?|(n & nsz0 & l2' & E & Hle)]]; auto.
          destruct (Hcons _ _ _ E) as [<- _]. lia. }
        destruct (Hsafe Hs') as [ET ->].
        destruct (Hrep ET) as [R2 K2].
        exists (fl_del fl1 (class S) n'), [].
        split; [exact R2|]. split; [|split].
        -- eapply linked_drop with (b := (p, psz, Alloc)); [exact L1|].
           unfold linked. simpl. discriminate.
        -- intros y sy i Hy Hi.
           assert (Hy1 : In (y, sy, Alloc) l1).
           { destruct Hs' as [->|(n & nsz0 & ->)]; clear - Hy; inapp. }
           rewrite (K2 y sy i) by (auto; clear - Hy1; inapp).
           apply (K1 y sy i); auto. clear - Hy1. inapp.
        -- intros y sy. destruct Hs' as [->|(n & nsz0 & ->)]; clear; inapp.
  - (* the successor is large enough *)
    apply wp_ret.
    destruct Hl2 as [->|(n & nsz' & l2' & ->)].
    { rewrite (Hnil eq_refl) in *. lia. }
    destruct (Hcons _ _ _ eq_refl) as [<- En].
    replace (new_size + (psz + nsz - new_size)) with (psz + nsz) by lia.
    rewrite (wrap32_small (psz + nsz)) by lia.
    eapply wp_conseq.
    { eapply annex_tail with (T := psz + nsz); eauto; try lia.
      apply mod8_add; auto. }
    intros r s2 (-> & [Hh2 Hm2] & Hb2 & Hhdr & Hkeep & Hrep).
    right. exists (psz + nsz).
    split; [reflexivity|]. split; [lia|]. split; [apply mod8_add; auto|].
    split; [split; congruence|]. split; [lia|]. split; [lia|].
    split; [exact Hhdr|]. split; [exact Hkeep|].
    intros _. destruct (Hrep eq_refl) as [R2 K2].
    exists (fl_del fl (class nsz) n), l2'.
    split; [exact R2|]. split; [|split].
    + eapply linked_drop with (b := (p, psz, Alloc)); [exact Hl|].
      unfold linked. simpl. discriminate.
    + intros y sy i Hy Hi. apply (K2 y sy i); auto. clear - Hy. inapp.
    + intros y sy. clear. inapp.
Qed.

(** Client bytes may change freely inside an allocated payload. *)
Lemma rep_payload_write s s' bs fl q qsz :
  rep s bs fl -> In (q, qsz, Alloc) bs ->
  same_heap s s' -> mem_brk s' = mem_brk s ->
  segregated_free_lists s' = segregated_free_lists s ->
  (forall i, i < q \/ q + qsz - 8 <= i -> mem s' i = mem s i) ->
  rep s' bs fl.
Proof.
  intros H Hin Hh Hb Hls Hfr.
  destruct (in_split _ _ Hin) as (l1 & l2 & ->).
  pose proof (rep_block _ _ _ _ _ _ H Hin) as (B1 & B2 & B3 & B4 & B5 & B6 & B7).
  pose proof (rep_contig _ _ _ H) as Hc. apply contig_mid in Hc.
  destruct Hc as [Hc1 Hc2].
  change (l1 ++ (q, qsz, Alloc) :: l2) with (l1 ++ [(q, qsz, Alloc)] ++ l2) in *.
  eapply rep_replace with (a := q) (e := q + qsz); eauto.
  - simpl. auto.
  - simpl. auto.
  - intros y sy [E|[]]; inversion E.
  - intros y sy [E|[]]; inversion E.
  - constructor; [|constructor]. cbn.
    assert (E1 : load32 (mem s') (q - 4) = load32 (mem s) (q - 4))
      by (apply load32_ext; intros i Hi; apply Hfr; lia).
    assert (E2 : load32 (mem s') (q + qsz - 8) = load32 (mem s) (q + qsz - 8))
      by (apply load32_ext; intros i Hi; apply Hfr; lia).
    rewrite E1, E2. auto.
  - intros i Hi. apply Hfr. lia.
Qed.

Lemma reloc_spec (F : Prop) fuel s bs fl p psz size :
  F ->
  rep s bs fl -> Forall linked bs -> enough fuel s ->
  In (p, psz, Alloc) bs -> 0 < size <= 2 ^ 31 - 160 ->
  let new_size := wrap32 (adjust_size size + REALLOC_BUFFER) in
  wlp F (new_ptr <- mm_malloc fuel (wrap32 (new_size - DSIZE)) ;;
       memcpy new_ptr p (wrap32 (MIN (to_int size) (to_int new_size))) ;;;
       mm_free fuel p ;;;
       sz <- GET_SIZE (HDRP new_ptr) ;;
       ret (Some (new_ptr, to_int (sz - new_size))))
      (reloc_post s bs p psz size new_size) s.
Proof.
  intros HF H Hl He Hp Hsize new_size.
  destruct (adjust_size_spec size ltac:(lia)) as (A1 & A2 & A3 & A4).
  assert (Ens : new_size = adjust_size size + 128).
  { unfold new_size. change REALLOC_BUFFER with 128. apply wrap32_small. lia. }
  clearbody new_size. subst new_size.
  remember (adjust_size size) as asize eqn:Easize.
  unfold DSIZE.
  rewrite (wrap32_small (asize + 128 - 8)) by lia.
  assert (Eadj : adjust_size (asize + 128 - 8) = asize + 128).
  { unfold adjust_size, DSIZE.
    destruct (Z.leb_spec (asize + 128 - 8) 8); [lia|].
    rewrite wrap32_small by lia.
    replace (asize + 128 - 8 + 8) with (asize + 128) by lia.
    apply ALIGN_fix; [lia|]. apply mod8_add; auto. }
  assert (En : wrap32 (MIN (to_int size) (to_int (asize + 128))) = size).
  { rewrite !to_int_small by lia. unfold MIN.
    destruct (Z.ltb_spec size (asize + 128)); [|lia]. apply wrap32_small. lia. }
  rewrite En.
  pose proof (enough_fuel _ _ _ _ H He) as Hfuel.
  apply wlp_bind. eapply wlp_conseq.
  { apply wp_wlp. eapply mm_malloc_spec; eauto. lia. }
  rewrite Eadj.
  intros q s1 [(-> & ->)|(bs1 & fl1 & qsz & R1 & L1 & Hq & Hqsz & Hnew & Hmono
                             & [Hh1 Hm1] & Hb1 & K1)].
  { (* the allocation failed: the copy to address 0 faults *)
    apply wlp_bind, wlp_memcpy; [lia|intros _; exact HF|].
    intros Hd. pose proof (rep_lo _ _ _ H). lia. }
  pose proof (rep_block _ _ _ _ _ _ R1 Hq) as (B1 & B2 & B3 & B4 & B5 & B6 & B7).
  simpl abit in *.
  assert (Hp1 : In (p, psz, Alloc) bs1) by (apply Hmono; exact Hp).
  assert (Hqp : q <> p) by (intros ->; apply (Hnew psz); exact Hp).
  apply wlp_bind, wlp_memcpy; [lia|intros _; exact HF|]. intros D1 D2.
  set (s2 := set_mem s1 _).
  assert (R2 : rep s2 bs1 fl1).
  { eapply rep_payload_write with (s := s1) (q := q) (qsz := qsz); eauto;
      try (split; reflexivity); try reflexivity.
    intros i Hi. unfold s2. sts. apply copy_bytes_other. lia. }
  destruct (in_split _ _ Hp1) as (l1 & l2 & Ebs1).
  rewrite Ebs1 in R2, L1.
  apply wlp_bind. eapply wlp_conseq.
  { apply wp_wlp. eapply mm_free_spec; eauto. }
  intros [] s3 (r & bs3 & fl3 & Hcc & R3 & L3 & [Hh3 Hm3] & Hb3 & K3 & Hal3 & _).
  assert (Hq2 : In (q, qsz, Alloc) (l1 ++ l2)).
  { rewrite Ebs1 in Hq. clear - Hq Hqp. inapp. }
  assert (Hq3 : In (q, qsz, Alloc) bs3) by (apply Hal3; exact Hq2).
  pose proof (rep_block _ _ _ _ _ _ R3 Hq3) as (C1 & C2 & C3 & C4 & C5 & C6 & C7).
  simpl abit in *.
  unfold HDRP; unfold WSIZE.
  apply wp_wlp. apply wp_bind, wp_GET_SIZE; try lia.
  rewrite C6, (header_size qsz 1) by auto.
  apply wp_ret.
  exists q, qsz, bs3, fl3. unfold s2 in *. sts.
  split; [reflexivity|]. split; [exact R3|]. split; [exact L3|].
  split; [exact Hq3|]. split; [lia|]. split; [exact Hqp|].
  split; [|split; [split; congruence|split; [lia|]]].
  - intros i Hi1 Hi2.
    rewrite (K3 q qsz (q + i)) by (auto; lia).
    rewrite copy_bytes_dst by lia.
    apply (K1 p psz (p + i)); auto. lia.
  - intros y sy i Hy Hyp Hi.
    assert (Hy1 : In (y, sy, Alloc) bs1) by (apply Hmono; exact Hy).
    assert (Hy2 : In (y, sy, Alloc) (l1 ++ l2)).
    { rewrite Ebs1 in Hy1. clear - Hy1 Hyp. inapp. }
    rewrite (K3 y sy i) by auto.
    rewrite copy_bytes_other.
    + apply (K1 y sy i); auto.
    + assert (Hyq : y <> q) by (intros ->; eapply Hnew; eauto).
      pose proof (rep_block _ _ _ _ _ _ R1 Hy1).
      destruct (rep_sep _ _ _ _ _ _ _ _ _ R1 Hq Hy1) as [E|?];
        [inversion E; congruence|lia].
Qed.

(** The closing step of [mm_realloc]: the tag of the next header is
    computed and dropped; the state is left as it is. *)
Lemma final_spec q T bb s (Q : Z -> state -> Prop) :
  mem_heap s <= q - 4 -> load32 (mem s) (q - 4) = T + 1 -> T mod 8 = 0 ->
  0 <= T -> q + T <= mem_brk s ->
  Q q s ->
  wp ((if bb <? 2 * REALLOC_BUFFER
       then n <- NEXT_BLKP q ;; SET_RATAG (HDRP n) ;;; ret tt
       else ret tt) ;;; ret q) Q s.
Proof.
  intros H1 H2 H3 H4 H5 HQ. apply wp_bind.
  destruct (bb <? 2 * REALLOC_BUFFER).
  - apply wp_bind, wp_NEXT_BLKP; try lia.
    rewrite H2, (header_size T 1) by auto.
    unfold SET_RATAG, GET, HDRP; unfold WSIZE.
    apply wp_bind, wp_bind, wp_read32; try lia.
    apply wp_ret, wp_ret, wp_ret. exact HQ.
  - apply wp_ret, wp_ret. exact HQ.
Qed.

Lemma mm_realloc_spec fuel s l1 p psz l2 fl size :
  rep s (l1 ++ (p, psz, Alloc) :: l2) fl ->
  Forall linked (l1 ++ (p, psz, Alloc) :: l2) -> enough fuel s ->
  0 < size <= 2 ^ 31 - 160 ->
  wlp (psz < adjust_size size + 128 /\
       exists n nsz l2', l2 = (n, nsz, Alloc) :: l2')
      (mm_realloc fuel p size) (realloc_post s l1 p psz l2 size) s.
Proof.
  intros H Hl He Hsize.
  pose proof (enough_fuel _ _ _ _ H He) as Hfuel.
  destruct (adjust_size_spec size ltac:(lia)) as (A1 & A2 & A3 & A4).
  assert (Hp : In (p, psz, Alloc) (l1 ++ (p, psz, Alloc) :: l2)) by (clear; inapp).
  pose proof (rep_block _ _ _ _ _ _ H Hp) as (B1 & B2 & B3 & B4 & B5 & B6 & B7).
  simpl abit in *.
  pose proof (rep_max _ _ _ H). pose proof (rep_lo _ _ _ H).
  unfold mm_realloc.
  replace (size =? 0) with false by (symmetry; apply Z.eqb_neq; lia).
  assert (Ens : wrap32 (adjust_size size + REALLOC_BUFFER) = adjust_size size + 128).
  { change REALLOC_BUFFER with 128. apply wrap32_small. lia. }
  pose proof (fun F HF => reloc_spec F fuel s _ fl p psz size HF H Hl He Hp Hsize)
    as Hreloc.
  cbv zeta in Hreloc |- *. rewrite Ens in Hreloc |- *.
  assert (Hnm : (adjust_size size + 128) mod 8 = 0) by (apply mod8_add; auto).
  unfold HDRP at 1; unfold WSIZE.
  apply wlp_bind, wp_wlp, wp_GET_SIZE; try lia.
  rewrite B6, (header_size psz 1) by auto.
  rewrite (to_int_range (psz - (adjust_size size + 128))) by lia.
  apply wlp_bind.
  destruct (Z.ltb_spec (psz - (adjust_size size + 128)) 0) as [Hgrow|Hkeep].
  - (* the block is too small *)
    destruct (next_view _ _ _ _ _ _ _ H) as (na & Ena & Bn & Hnext).
    unfold HDRP at 1 2; unfold WSIZE.
    apply wlp_bind, wp_wlp, wp_NEXT_BLKP; try lia.
    rewrite B6, (header_size psz 1) by auto.
    unfold HDRP at 1; unfold WSIZE.
    apply wlp_bind, wp_wlp, wp_GET_ALLOC; try lia.
    rewrite Ena.
    assert (Hfinal : forall q T bb s1,
               mem_heap s1 <= q - 4 -> load32 (mem s1) (q - 4) = T + 1 ->
               T mod 8 = 0 -> 0 <= T -> q + T <= mem_brk s1 -> q <> 0 ->
               (q <> 0 -> realloc_post s l1 p psz l2 size q s1) ->
               wlp (psz < adjust_size size + 128 /\
                    exists n nsz l2', l2 = (n, nsz, Alloc) :: l2')
                   (match Some (q, bb) with
                    | None => ret NULL
                    | Some (new_ptr, block_buffer) =>
                        (if block_buffer <? 2 * REALLOC_BUFFER
                         then n <- NEXT_BLKP new_ptr ;;
                              SET_RATAG (HDRP n) ;;; ret tt
                         else ret tt) ;;; ret new_ptr
                    end) (realloc_post s l1 p psz l2 size) s1).
    { intros q T bb s1 F1 F2 F3 F4 F5 F6 F7. apply wp_wlp.
      eapply final_spec; eauto. }
    assert (Hcase : (na = 1 /\ exists n nsz l2', l2 = (n, nsz, Alloc) :: l2' /\
                       load32 (mem s) (p + psz - 4) = nsz + 1 /\ 16 <= nsz /\
                       nsz mod 8 = 0) \/
                    ((na = 0 \/ load32 (mem s) (p + psz - 4) = 1) /\
                     (na = 0 \/ na = 1) /\
                     (l2 = [] \/ exists n nsz l2', l2 = (n, nsz, Free) :: l2'))).
    { destruct Hnext as [(-> & -> & E)|(n & nsz & stn & l2' & -> & En & -> & E)].
      - right. auto.
      - assert (Hn : In (n, nsz, stn) (l1 ++ (p, psz, Alloc) :: (n, nsz, stn) :: l2'))
          by (clear; inapp).
        pose proof (rep_block _ _ _ _ _ _ H Hn) as (C1 & C2 & C3 & C4 & _).
        destruct stn.
        + left. split; auto. exists n, nsz, l2'. auto.
        + right. split; [left; reflexivity|]. split; [left; reflexivity|].
          right. eauto.
        + exfalso. rewrite Forall_app, !Forall_cons_iff in Hl.
          unfold linked in Hl. cbn in Hl. intuition congruence. }
    destruct Hcase as [(-> & n & nsz & l2' & -> & E & Hnsz & Hnszm)
                      |(Hna & Hna01 & Hl2)].
    + (* the successor is allocated: relocate *)
      change (1 =? 0) with false. cbv iota.
      apply wlp_bind, wp_wlp, wp_bind, wp_GET_SIZE; try lia.
      rewrite E, (header_size nsz 1) by auto.
      apply wp_ret.
      replace (nsz =? 0) with false by (symmetry; apply Z.eqb_neq; lia).
      eapply wlp_conseq; [apply Hreloc; split; [lia|eauto]|].
      intros r s1 (q & T & bs' & fl' & -> & R1 & L1 & Hq & HT & Hqp & Hcont
                     & Hh1 & Hb1 & Kothers).
      pose proof (rep_block _ _ _ _ _ _ R1 Hq) as (C1 & C2 & C3 & C4 & C5 & C6 & C7).
      simpl abit in *. pose proof (rep_lo _ _ _ R1).
      eapply Hfinal; eauto; try lia.
      intros _. split; [intros; lia|]. intros _.
      split; [exact Hh1|]. split; [exact Hb1|]. split; [exact Hcont|].
      intros _. exists bs', fl', T.
      split; [exact R1|]. split; [exact L1|]. split; [exact Hq|]. split; [lia|].
      intros y sy i Hy Hi.
      assert (Hyp : y <> p).
      { intros ->.
        pose proof (rep_sized _ _ _ H) as Hs. pose proof (rep_contig _ _ _ H) as Hc.
        pose proof (contig_others _ _ _ _ _ _ _ _ _ _ Hs Hc Hy). lia. }
      apply (Kothers y sy i); auto. clear - Hy. inapp.
    + (* the successor is free or the epilogue: grow in place *)
      apply wlp_bind.
      assert (Hannex : wp (if na =? 0 then ret true
                            else nsz0 <- GET_SIZE (HDRP (p + psz)) ;; ret (nsz0 =? 0))
                           (fun a s1 => a = true /\ s1 = s) s).
      { destruct Hna as [ -> | E ].
        - apply wp_ret. auto.
        - destruct Hna01 as [ -> | -> ]; [apply wp_ret; auto|].
          change (1 =? 0) with false. cbv iota.
          unfold HDRP; unfold WSIZE.
          apply wp_bind, wp_GET_SIZE; try lia. rewrite E.
          apply wp_ret. auto. }
      eapply wlp_conseq; [apply wp_wlp; exact Hannex|].
      intros a s0 (-> & ->).
      eapply wlp_conseq.
      { apply wp_wlp. eapply grow_spec with (new_size := adjust_size size + 128); eauto. lia. }
      intros r s1 [(-> & ->)|(T & -> & HT & HTm & [Hh1 Hm1] & Hb1 & HpT & Hhdr
                                & Hkeep & Hsafe)].
      * apply wp_wlp, wp_ret. split; [auto|]. unfold NULL. congruence.
      * eapply Hfinal; eauto; try lia.
        intros _. split; [intros; lia|]. intros _.
        split; [split; assumption|]. split; [exact Hb1|]. split.
        { intros i Hi1 Hi2. apply Hkeep. lia. }
        intros Hs.
        assert (Hs' : l2 = [] \/ (exists n nsz, l2 = [(n, nsz, Free)]) \/
                      (exists n nsz l2', l2 = (n, nsz, Free) :: l2' /\
                                         adjust_size size + 128 <= psz + nsz)).
        { destruct Hs as [?|[?|[?|[?|(n & nsz & l2' & ->)]]]]; auto; try lia.
          destruct Hl2 as [?|(? & ? & ? & ?)]; discriminate. }
        destruct (Hsafe Hs') as (fl' & l2'' & R1 & L1 & K1 & Hal).
        exists (l1 ++ (p, T, Alloc) :: l2''), fl', T.
        split; [exact R1|]. split; [exact L1|]. split; [clear; inapp|].
        split; [lia|exact K1].
  - (* the block is large enough already: nothing changes *)
    apply wlp_ret. apply wp_wlp. eapply final_spec with (T := psz); eauto; try lia.
    split; [intros; lia|]. intros _.
    split; [split; reflexivity|]. split; [lia|]. split; [reflexivity|].
    intros _. exists (l1 ++ (p, psz, Alloc) :: l2), fl, psz.
    split; [exact H|]. split; [exact Hl|]. split; [exact Hp|]. split; [lia|].
    reflexivity.
Qed.

(** ** Soundness of the decision procedure *)
Lemma contigb_sound a bs e : contigb a bs e = true -> contig a bs e.
Proof.
  revert a. induction bs as [|[[x sz] st] r IH]; intros a H; simpl in *.
  - apply Z.eqb_eq. exact H.
  - apply andb_true_iff in H. destruct H as [H1 H2].
    split; [apply Z.eqb_eq; exact H1|apply IH; exact H2].
Qed.

Lemma tag_okb_sound m b : tag_okb m b = true -> tag_ok m b.
Proof.
  destruct b as [[x sz] st]. unfold tag_okb, tag_ok, footer_okb, footer_ok.
  rewrite !andb_true_iff, orb_true_iff, Z.leb_le, !Z.eqb_eq. tauto.
Qed.

Lemma dllb_sound m succ p l : dllb m succ p l = true -> dll m succ p l.
Proof.
  revert succ p. induction l as [|x r IH]; intros succ p H; simpl in *.
  - apply Z.eqb_eq. exact H.
  - rewrite !andb_true_iff, negb_true_iff, Z.eqb_neq, !Z.eqb_eq in H.
    destruct H as [[[H1 H2] H3] H4]. auto.
Qed.

Lemma existsb_eqb_In x l : existsb (Z.eqb x) l = true <-> In x l.
Proof.
  rewrite existsb_exists. split.
  - intros (y & Hy & E). apply Z.eqb_eq in E. subst. exact Hy.
  - intros H. exists x. split; [exact H|apply Z.eqb_refl].
Qed.

Lemma nodupb_sound l : nodupb l = true -> NoDup l.
Proof.
  induction l as [|x r IH]; intros H; simpl in *; constructor.
  - apply andb_true_iff in H. destruct H as [H _].
    apply negb_true_iff in H. intros Hin.
    apply existsb_eqb_In in Hin. congruence.
  - apply IH. apply andb_true_iff in H. tauto.
Qed.

Lemma classes_In k : 0 <= k < 20 -> In k classes.
Proof.
  intros H. unfold classes. apply in_map_iff. exists (Z.to_nat k).
  split; [lia|]. apply in_seq. lia.
Qed.

Lemma status_eqb_eq a b : status_eqb a b = true <-> a = b.
Proof. destruct a, b; simpl; split; congruence. Qed.

Lemma rep_check_sound s bs fl : rep_check s bs fl = true -> rep s bs fl.
Proof.
  unfold rep_check. rewrite !andb_true_iff, !forallb_forall.
  rewrite Z.ltb_lt, Z.leb_le, !Z.ltb_lt, !Z.eqb_eq.
  intros [[[[[[[[[[H1 H2] H3] H4] H5] H6] H7] H8] H9] H10] H11].
  constructor; auto.
  - apply contigb_sound. exact H7.
  - apply Forall_forall. intros b Hb. apply tag_okb_sound, H9, Hb.
  - intros k Hk. specialize (H10 k (classes_In k Hk)).
    rewrite !andb_true_iff in H10. apply dllb_sound. tauto.
  - intros k Hk. specialize (H10 k (classes_In k Hk)).
    rewrite !andb_true_iff in H10. apply nodupb_sound. tauto.
  - intros k x Hk. specialize (H10 k (classes_In k Hk)).
    rewrite !andb_true_iff, forallb_forall in H10.
    destruct H10 as [_ H10]. split.
    + intros Hx. specialize (H10 x Hx). unfold listed_free in H10.
      apply existsb_exists in H10. destruct H10 as ([[y sz] st] & Hin & E).
      rewrite !andb_true_iff, !Z.eqb_eq, status_eqb_eq in E.
      destruct E as [[-> ->] E]. exists sz. auto.
    + intros (sz & Hin & E). specialize (H11 _ Hin). unfold free_listed in H11.
      simpl in H11. rewrite E in H11. apply existsb_eqb_In. exact H11.
Qed.

Lemma linkedb_sound bs : forallb linkedb bs = true -> Forall linked bs.
Proof.
  rewrite forallb_forall. intros H. apply Forall_forall. intros b Hb.
  specialize (H b Hb). unfold linkedb, linked in *.
  apply negb_true_iff in H. intros E. rewrite E in H. discriminate.
Qed.

(** ** Headers of a well-formed heap *)
Lemma rep_headers s bs fl h :
  rep s bs fl -> is_header s h ->
  h = mem_heap s + 4 \/ h = mem_brk s - 4 \/
  exists x sz st, In (x, sz, st) bs /\ h = x - 4.
Proof.
  intros H Hh. induction Hh as [|h Hh IH Hnz].
  - left. reflexivity.
  - right. pose proof (rep_contig _ _ _ H) as Hc.
    destruct IH as [->|[->|(x & sz & st & Hin & ->)]].
    + rewrite (proj1 (rep_prologue _ _ _ H)).
      change (Z.land 9 (Z.lnot 7)) with 8.
      destruct bs as [|[[y sy] sty] r]; simpl in Hc.
      * left. lia.
      * right. exists y, sy, sty. split; [left; reflexivity|lia].
    + rewrite (rep_epilogue _ _ _ H) in Hnz. exfalso. apply Hnz. reflexivity.
    + pose proof (rep_block _ _ _ _ _ _ H Hin) as (B1 & B2 & B3 & B4 & B5 & B6 & B7).
      rewrite B6, (header_size sz (abit st)) by (auto using abit_cases).
      destruct (in_split _ _ Hin) as (l1 & l2 & ->).
      apply contig_mid in Hc. destruct Hc as [_ Hc].
      destruct l2 as [|[[y sy] sty] r]; simpl in Hc.
      * left. lia.
      * right. exists y, sy, sty. split; [clear; inapp|lia].
Qed.

Lemma rep_ra_clear s bs fl : rep s bs fl -> ra_clear s.
Proof.
  intros H h Hh.
  destruct (rep_headers _ _ _ _ H Hh) as [->|[->|(x & sz & st & Hin & ->)]].
  - rewrite (proj1 (rep_prologue _ _ _ H)). reflexivity.
  - rewrite (rep_epilogue _ _ _ H). reflexivity.
  - pose proof (rep_block _ _ _ _ _ _ H Hin) as (B1 & B2 & B3 & B4 & B5 & B6 & B7).
    rewrite B6. apply header_tag; auto using abit_cases.
Qed.

(** ** Runs that leave the state as it is *)
Lemma wp_eq {A} (c : M A) (a : A) (s s1 : state) :
  wp c (fun r s' => r = a /\ s' = s1) s -> c s = Ok a s1.
Proof.
  unfold wp. destruct (c s); try contradiction. intros [-> ->]. reflexivity.
Qed.

(** A block that is large enough is returned as it is. *)
Lemma realloc_keep fuel s l1 p psz l2 fl size :
  rep s (l1 ++ (p, psz, Alloc) :: l2) fl ->
  0 < size <= 2 ^ 31 - 160 -> adjust_size size + 128 <= psz ->
  mm_realloc fuel p size s = Ok p s.
Proof.
  intros H Hsize Hbig. apply wp_eq.
  destruct (adjust_size_spec size ltac:(lia)) as (A1 & A2 & A3 & A4).
  assert (Hp : In (p, psz, Alloc) (l1 ++ (p, psz, Alloc) :: l2)) by (clear; inapp).
  pose proof (rep_block _ _ _ _ _ _ H Hp) as (B1 & B2 & B3 & B4 & B5 & B6 & B7).
  simpl abit in *.
  unfold mm_realloc.
  replace (size =? 0) with false by (symmetry; apply Z.eqb_neq; lia).
  assert (Ens : wrap32 (adjust_size size + REALLOC_BUFFER) = adjust_size size + 128).
  { change REALLOC_BUFFER with 128. apply wrap32_small. lia. }
  cbv zeta. rewrite Ens.
  unfold HDRP at 1; unfold WSIZE.
  apply wp_bind, wp_GET_SIZE; try lia.
  rewrite B6, (header_size psz 1) by auto.
  rewrite (to_int_range (psz - (adjust_size size + 128))) by lia.
  replace (psz - (adjust_size size + 128) <? 0) with false
    by (symmetry; apply Z.ltb_ge; lia).
  apply wp_bind, wp_ret.
  eapply final_spec with (T := psz); eauto; lia.
Qed.

(** ** The decision of [coalesce] *)
Lemma run_bind {A B} (c : M A) (k : A -> M B) (s s1 : state) (a : A) :
  c s = Ok a s1 -> bind c k s = k a s1.
Proof. unfold bind. intros ->. reflexivity. Qed.

Lemma run_GET_SIZE p s :
  mem_heap s <= p -> p + 4 <= mem_brk s ->
  GET_SIZE p s = Ok (Z.land (load32 (mem s) p) (Z.lnot 7)) s.
Proof. intros. apply wp_eq, wp_GET_SIZE; auto. Qed.

Lemma run_GET_ALLOC p s :
  mem_heap s <= p -> p + 4 <= mem_brk s ->
  GET_ALLOC p s = Ok (Z.land (load32 (mem s) p) 1) s.
Proof. intros. apply wp_eq, wp_GET_ALLOC; auto. Qed.

Lemma run_GET_TAG p s :
  mem_heap s <= p -> p + 4 <= mem_brk s ->
  GET_TAG p s = Ok (Z.land (load32 (mem s) p) 2) s.
Proof. intros. apply wp_eq, wp_GET_TAG; auto. Qed.

Lemma run_PREV_BLKP p s :
  mem_heap s <= p - 8 -> p - 4 <= mem_brk s ->
  PREV_BLKP p s = Ok (p - Z.land (load32 (mem s) (p - 8)) (Z.lnot 7)) s.
Proof. intros. apply wp_eq, wp_PREV_BLKP; auto. Qed.

Lemma run_NEXT_BLKP p s :
  mem_heap s <= p - 4 -> p <= mem_brk s ->
  NEXT_BLKP p s = Ok (p + Z.land (load32 (mem s) (p - 4)) (Z.lnot 7)) s.
Proof. intros. apply wp_eq, wp_NEXT_BLKP; auto. Qed.

(** [coalesce] reads three header words and then takes one of four
    branches: the predecessor counts as allocated when the RA bit or the
    allocation bit of its header is set, the successor when the
    allocation bit of its header is set. *)
Lemma coalesce_decision fuel s ptr :
  mem_heap s <= ptr - 8 -> ptr <= mem_brk s ->
  mem_heap s <= prev_hdr s ptr -> prev_hdr s ptr + 4 <= mem_brk s ->
  mem_heap s <= next_hdr s ptr -> next_hdr s ptr + 4 <= mem_brk s ->
  coalesce fuel ptr s =
  (let hp := load32 (mem s) (prev_hdr s ptr) in
   let hn := load32 (mem s) (next_hdr s ptr) in
   let size := Z.land (load32 (mem s) (ptr - 4)) (Z.lnot 7) in
   let prev_counts := negb (Z.land hp 2 =? 0) || negb (Z.land hp 1 =? 0) in
   let next_counts := negb (Z.land hn 1 =? 0) in
   if prev_counts && next_counts then ret ptr
   else if prev_counts then merge_next fuel ptr size
   else if next_counts then merge_prev fuel ptr size
   else merge_both fuel ptr size) s.
Proof.
  unfold prev_hdr, next_hdr. intros H1 H2 H3 H4 H5 H6.
  unfold coalesce, HDRP; unfold WSIZE.
  erewrite run_bind by (apply run_PREV_BLKP; lia).
  erewrite run_bind by (apply run_GET_ALLOC; lia).
  erewrite run_bind by (apply run_NEXT_BLKP; lia).
  erewrite run_bind by (apply run_GET_ALLOC; lia).
  erewrite run_bind by (apply run_GET_SIZE; lia).
  erewrite run_bind by (apply run_PREV_BLKP; lia).
  erewrite run_bind by (apply run_GET_TAG; lia).
  cbv zeta.
  destruct (Z.land (load32 (mem s)
              (ptr - Z.land (load32 (mem s) (ptr - 8)) (Z.lnot 7) - 4)) 2 =? 0);
    cbn [negb];
    destruct (Z.land (load32 (mem s)
                (ptr - Z.land (load32 (mem s) (ptr - 8)) (Z.lnot 7) - 4)) 1 =? 0);
    destruct (Z.land (load32 (mem s)
                (ptr + Z.land (load32 (mem s) (ptr - 4)) (Z.lnot 7) - 4)) 1 =? 0);
    reflexivity.
Qed.

(** ** Legal operations keep the heap well formed *)
Lemma exec_wf fuel o s r s' :
  wf s -> legal s o -> enough fuel s -> exec fuel o s = Ok r s' -> wf s'.
Proof.
  intros (bs & fl & H & Hl) Hlegal He Hex. destruct o as [n|p|p n]; simpl in *.
  - destruct (Z.eq_dec n 0) as [->|Hn].
    + unfold mm_malloc in Hex. simpl in Hex. inversion Hex; subst.
      exists bs, fl. auto.
    + pose proof (mm_malloc_spec fuel s bs fl n H Hl He ltac:(lia)) as Hm.
      apply (wp_inv _ _ _ _ _ Hm) in Hex.
      destruct Hex as [(_ & ->)|(bs' & fl' & rsz & R & L & _)].
      * exists bs, fl. auto.
      * exists bs', fl'. auto.
  - destruct Hlegal as (l1 & sz & l2 & fl0 & R0 & L0).
    pose proof (mm_free_spec fuel s l1 p sz l2 fl0 R0 L0
                  (enough_fuel _ _ _ _ R0 He)) as Hf.
    unfold bind in Hex. destruct (mm_free fuel p s) as [[] s1| |] eqn:E;
      try discriminate.
    apply (wp_inv _ _ _ _ _ Hf) in E.
    destruct E as (x & bs' & fl' & _ & R & L & _).
    inversion Hex; subst. exists bs', fl'. auto.
  - destruct Hlegal as (Hn & l1 & psz & l2 & fl0 & R0 & L0 & Hsafe).
    destruct (Z.eq_dec n 0) as [->|Hn0].
    + unfold mm_realloc in Hex. simpl in Hex. inversion Hex; subst.
      exists bs, fl. auto.
    + pose proof (mm_realloc_spec fuel s l1 p psz l2 fl0 n R0 L0 He ltac:(lia))
        as Hr.
      apply (wlp_inv _ _ _ _ _ _ Hr) in Hex.
      destruct Hex as [Hnull Hsome].
      destruct (Z.eq_dec r 0) as [->|Hr0].
      * rewrite (Hnull eq_refl). exists bs, fl. auto.
      * destruct (Hsome Hr0) as (_ & _ & _ & Hrep).
        destruct (Hrep Hsafe) as (bs' & fl' & T & R & L & _).
        exists bs', fl'. auto.
Qed.

Lemma reach_wf s0 s : reach s0 s -> wf s.
Proof.
  induction 1 as [fuel s (Hb & Hlo & Hmax & Hspan) Hfuel Hinit
                 |fuel o r s s' _ IH Hlegal He Hex].
  - pose proof (mm_init_spec fuel s0 Hb Hlo Hmax Hspan Hfuel) as Hi.
    apply (wp_inv _ _ _ _ _ Hi) in Hinit.
    destruct Hinit as [(E & _)|(_ & _ & R & _)]; [discriminate|].
    exists [(mem_heap s0 + 16, 64, Free)], (init_fl (mem_heap s0)).
    split; [exact R|]. constructor; [|constructor]. discriminate.
  - eapply exec_wf; eauto.
Qed.

(** ** The two RA tests read 0 in a well-formed heap *)
Lemma skip_test_reads_0 s bs fl k p :
  rep s bs fl -> 0 <= k < 20 -> In p (fl k) ->
  GET_TAG (HDRP p) s = Ok 0 s.
Proof.
  intros H Hk Hp. apply wp_eq.
  destruct (rep_fl_block _ _ _ _ _ H Hk Hp) as (sz & Hin & _).
  pose proof (rep_block _ _ _ _ _ _ H Hin) as (B1 & B2 & B3 & B4 & B5 & B6 & B7).
  unfold HDRP; unfold WSIZE. apply wp_GET_TAG; try lia.
  rewrite B6. split; [apply header_tag; auto using abit_cases|reflexivity].
Qed.

Lemma veto_test_reads_0 s l1 x sz st l2 fl :
  rep s (l1 ++ (x, sz, st) :: l2) fl ->
  (pb <- PREV_BLKP x ;; GET_TAG (HDRP pb)) s = Ok 0 s.
Proof.
  intros H. apply wp_eq.
  destruct (prev_view _ _ _ _ _ _ _ H)
    as (pv & pa & Epv & Epa & Etag & Bp1 & Bp2 & Hprev).
  assert (Hx : In (x, sz, st) (l1 ++ (x, sz, st) :: l2)) by (clear; inapp).
  pose proof (rep_block _ _ _ _ _ _ H Hx) as (B1 & B2 & B3 & B4 & B5 & B6 & B7).
  apply wp_bind, wp_PREV_BLKP; try lia. rewrite Epv.
  unfold HDRP; unfold WSIZE. apply wp_GET_TAG; try lia.
  split; [exact Etag|reflexivity].
Qed.

(** ** Bounds of the size classes *)
Lemma class_bounds sz :
  1 <= sz ->
  0 <= class sz <= 19 /\ 2 ^ class sz <= sz /\
  (class sz < 19 -> sz < 2 ^ (class sz + 1)).
Proof.
  intros H. unfold class.
  destruct (select_list_spec 19 0 sz ltac:(lia) ltac:(lia))
    as (j & Hj & E & Hall & Hstop).
  rewrite E. cbn [fst]. rewrite Z.add_0_l.
  assert (Hp : 0 < 2 ^ j) by (apply Z.pow_pos_nonneg; lia).
  split; [lia|]. split.
  - destruct (Z.eq_dec j 0) as [->|Hj0]; [simpl; lia|].
    destruct (Hall (j - 1) ltac:(lia)) as [Hd _].
    assert (Hq : 0 < 2 ^ (j - 1)) by (apply Z.pow_pos_nonneg; lia).
    pose proof (Z.mul_div_le sz (2 ^ (j - 1)) Hq).
    replace (2 ^ j) with (2 * 2 ^ (j - 1))
      by (rewrite <- Z.pow_succ_r by lia; f_equal; lia).
    nia.
  - intros Hlt.
    assert (Hd : sz / 2 ^ j <= 1) by (simpl in Hstop; lia).
    pose proof (Z.mul_succ_div_gt sz (2 ^ j) Hp).
    rewrite Z.pow_add_r by lia. change (2 ^ 1) with 2. nia.
Qed.

(** ** Coalescing and the search for a fit in [mm_malloc] *)
Lemma coalesced_from_app p l1 l2 :
  coalesced_from p (l1 ++ l2) <->
  coalesced_from p l1 /\ coalesced_from (last_status p l1) l2.
Proof.
  revert p. induction l1 as [|[[x sz] st] r IH]; intros p.
  - simpl. unfold last_status. simpl. tauto.
  - cbn [app coalesced_from]. rewrite IH.
    unfold last_status. cbn [map snd]. rewrite last_cons. tauto.
Qed.

Lemma last_status_snoc p l x sz st :
  last_status p (l ++ [(x, sz, st)]) = st.
Proof. unfold last_status. rewrite map_app. simpl. apply last_last. Qed.

Lemma coalesced_from_alloc_head p q l :
  next_is_alloc l -> coalesced_from p l -> coalesced_from q l.
Proof.
  destruct l as [|[[x sz] st] r]; simpl; auto.
  intros Hn [_ H]. split; auto.
  rewrite (Hn x sz st r eq_refl). intros [_ C]. discriminate.
Qed.

Lemma prev_is_alloc_last l :
  prev_is_alloc l -> last_status Alloc l = Alloc.
Proof.
  intros H. destruct (exists_last_or_nil l) as [->|(l' & [[x sz] st] & ->)].
  - reflexivity.
  - rewrite last_status_snoc. eapply H. reflexivity.
Qed.

Lemma coalesced_from_not_free p l :
  p <> Free -> coalesced_from Alloc l -> coalesced_from p l.
Proof.
  destruct l as [|[[x sz] st] r]; simpl; auto.
  intros Hp [_ H]. split; auto. intros [C _]. contradiction.
Qed.

(** After [coalesce] on a block whose neighbours were not both next to
    free blocks before, no two free blocks touch. *)
Lemma coalesce_case_coalesced l1 x sz l2 fl r bs' fl' :
  coalesce_case l1 x sz l2 fl r bs' fl' ->
  coalesced (l1 ++ (x, sz, Alloc) :: l2) ->
  coalesced bs'.
Proof.
  unfold coalesced. intros Hcc Hc.
  apply coalesced_from_app in Hc. destruct Hc as [Hc1 Hc2].
  cbn [coalesced_from] in Hc2. destruct Hc2 as [_ Hc2].
  destruct Hcc as [Hp Hn|n nsz l2' Hp ->|l1' p psz -> Hn
                  |l1' p psz n nsz l2' -> ->].
  - apply coalesced_from_app. split; auto. cbn [coalesced_from]. split.
    + rewrite prev_is_alloc_last by auto. intros [C _]. discriminate.
    + eapply coalesced_from_alloc_head; eauto.
  - apply coalesced_from_app. split; auto. cbn [coalesced_from]. split.
    + rewrite prev_is_alloc_last by auto. intros [C _]. discriminate.
    + cbn [coalesced_from] in Hc2. tauto.
  - apply coalesced_from_app in Hc1. destruct Hc1 as [Hc1 Hc1'].
    cbn [coalesced_from] in Hc1'.
    apply coalesced_from_app. split; auto. cbn [coalesced_from]. split.
    + tauto.
    + eapply coalesced_from_alloc_head; eauto.
  - apply coalesced_from_app in Hc1. destruct Hc1 as [Hc1 Hc1'].
    cbn [coalesced_from] in Hc1'.
    apply coalesced_from_app. split; auto. cbn [coalesced_from]. split.
    + tauto.
    + cbn [coalesced_from] in Hc2. tauto.
Qed.

Lemma place_case_full l1 x sz asize l2 fl r bs' fl' :
  place_case l1 x sz asize l2 fl r bs' fl' ->
  16 <= asize <= sz ->
  exists rsz,
    In (r, rsz, Alloc) bs' /\ asize <= rsz <= asize + 16 /\
    x <= r /\ r + rsz <= x + sz /\
    (forall y sy, In (y, sy, Alloc) bs' <->
                  In (y, sy, Alloc) (l1 ++ (x, sz, Free) :: l2)
                  \/ (y = r /\ sy = rsz)) /\
    (coalesced (l1 ++ (x, sz, Free) :: l2) -> coalesced bs').
Proof.
  intros Hpc Ha. unfold coalesced.
  destruct Hpc as [Hr|Hr Hb|Hr Hb].
  - exists sz. split; [clear; inapp|]. split; [lia|]. split; [lia|].
    split; [lia|]. split.
    + intros y sy. rewrite !in_app_iff. cbn [In].
      split; intros H; intuition (try discriminate; try congruence);
        try (match goal with
             | E : (_, _, _) = (_, _, _) |- _ => inversion E; subst; auto
             end).
    + rewrite !coalesced_from_app. cbn [coalesced_from].
      intros (H1 & H2 & H3). split; auto. split.
      * intros [_ C]. discriminate.
      * destruct l2 as [|[[y sy] sty] l2']; simpl in *; auto.
        split; [intros [C _]; discriminate|tauto].
  - exists asize. split; [clear; inapp|]. split; [lia|]. split; [lia|].
    split; [lia|]. split.
    + intros y sy. rewrite !in_app_iff. cbn [In].
      split; intros H; intuition (try discriminate; try congruence);
        try (match goal with
             | E : (_, _, _) = (_, _, _) |- _ => inversion E; subst; auto
             end).
    + rewrite !coalesced_from_app. cbn [coalesced_from].
      intros (H1 & H2 & H3). split; auto. split; [exact H2|]. split.
      * intros [_ C]. discriminate.
      * destruct l2 as [|[[y sy] sty] l2']; simpl in *; auto.
        split; [intros [C _]; discriminate|tauto].
  - exists asize. split; [clear; inapp|]. split; [lia|]. split; [lia|].
    split; [lia|]. split.
    + intros y sy. rewrite !in_app_iff. cbn [In].
      split; intros H; intuition (try discriminate; try congruence);
        try (match goal with
             | E : (_, _, _) = (_, _, _) |- _ => inversion E; subst; auto
             end).
    + rewrite !coalesced_from_app. cbn [coalesced_from].
      intros (H1 & H2 & H3). split; auto. split.
      * intros [_ C]. discriminate.
      * split; [intros [C _]; discriminate|exact H3].
Qed.

Lemma fit_walk_full s bs fl k asize :
  rep s bs fl -> 0 <= k < 20 ->
  forall l succ p fuel,
    dll (mem s) succ p l -> incl l (fl k) -> (length l < fuel)%nat ->
    wp (fit_walk fuel asize p)
       (fun r s' =>
          s' = s /\
          ((r = 0 /\ forall x sz, In x l -> In (x, sz, Free) bs -> sz < asize)
           \/ exists sz, In (r, sz, Free) bs /\ asize <= sz)) s.
Proof.
  intros H Hk. induction l as [|x l IH]; intros succ p fuel Hd Hi Hf.
  - simpl in Hd. subst p. destruct fuel; [simpl in Hf; lia|].
    simpl. apply wp_ret. split; auto. left. split; auto.
    intros x sz [].
  - cbn [dll] in Hd. destruct Hd as (-> & Hx & Hs & Hd).
    destruct fuel as [|fuel]; [simpl in Hf; lia|].
    cbn [fit_walk]. unfold NULL, HDRP; unfold WSIZE.
    replace (x =? 0) with false by (symmetry; apply Z.eqb_neq; auto).
    assert (Hxin : In x (fl k)) by (apply Hi; left; reflexivity).
    destruct (rep_fl_block _ _ _ _ _ H Hk Hxin) as (sz & Hin & _).
    pose proof (rep_block _ _ _ _ _ _ H Hin) as (B1 & B2 & B3 & B4 & B5 & B6 & B7).
    simpl abit in *. rewrite Z.add_0_r in *.
    apply wp_bind, wp_GET_SIZE; try lia. rewrite B6, size_of_size by auto.
    destruct (Z.gtb_spec asize sz).
    + apply wp_bind, wp_PRED; try lia.
      eapply wp_conseq.
      * eapply IH; [exact Hd| |simpl in Hf; lia].
        intros z Hz. apply Hi. right. exact Hz.
      * intros r s' (-> & [(-> & Hnone)|Hfound]); split; auto.
        left. split; auto. intros y sy [<-|Hy] Hyin.
        -- destruct (rep_addr_inj _ _ _ _ _ _ _ _ H Hin Hyin) as [<- _]. lia.
        -- eapply Hnone; eauto.
    + apply wp_bind, wp_GET_TAG; try lia. rewrite B6, tag_of_size by auto.
      change (negb (0 =? 0)) with false. cbv iota.
      apply wp_ret. split; auto. right. exists sz. split; [exact Hin|lia].
Qed.

Lemma find_fit_full s bs fl fuel asize :
  rep s bs fl -> enough fuel s ->
  forall n searchsize list,
    list + Z.of_nat n = 20 -> 0 <= list ->
    wp (find_fit n fuel asize searchsize list NULL)
       (fun r s' =>
          s' = s /\
          ((r = 0 /\
            forall k, list <= k < 20 ->
                      k = 19 \/ searchsize / 2 ^ (k - list) <= 1 ->
                      forall x sz, In x (fl k) -> In (x, sz, Free) bs ->
                                   sz < asize)
           \/ exists sz, In (r, sz, Free) bs /\ asize <= sz)) s.
Proof.
  intros H He. induction n as [|n IH]; intros searchsize list Hn Hl.
  - simpl. apply wp_ret. split; auto. left. split; [reflexivity|].
    intros k Hk. lia.
  - cbn [find_fit]. apply wp_bind, wp_get_list.
    assert (Hk : 0 <= list < 20) by lia.
    assert (Hshift : forall k, list + 1 <= k < 20 ->
               Z.shiftr searchsize 1 / 2 ^ (k - (list + 1))
               = searchsize / 2 ^ (k - list)).
    { intros k Hk'. rewrite Z.shiftr_div_pow2 by lia. change (2 ^ 1) with 2.
      rewrite Z.div_div by (try lia; apply Z.pow_pos_nonneg; lia).
      rewrite <- Z.pow_succ_r by lia. do 2 f_equal. lia. }
    destruct ((list =? LISTLIMIT - 1)
              || (searchsize <=? 1) && negb (segregated_free_lists s list =? NULL))
             eqn:Ec.
    + apply wp_bind. eapply wp_conseq.
      * eapply fit_walk_full with (l := fl list); eauto.
        -- apply (rep_dll _ _ _ H); auto.
        -- apply incl_refl.
        -- pose proof (rep_fl_length _ _ _ _ H Hk). unfold enough in He. lia.
      * intros r s' (-> & Hr).
        destruct (Z.eqb_spec r NULL) as [->|Hne]; cbn [negb].
        -- destruct Hr as [(_ & Hnone)|(sz & Hin & _)].
           ++ eapply wp_conseq; [apply IH; lia|].
              intros r' s' (-> & [(-> & Hrest)|Hfound]); split; auto.
              left. split; auto. intros k Hk' Hv x sz Hx Hin.
              destruct (Z.eq_dec k list) as [->|Hkne].
              ** eapply Hnone; eauto.
              ** eapply (Hrest k); eauto; try lia.
                 rewrite Hshift by lia. exact Hv.
           ++ pose proof (rep_block _ _ _ _ _ _ H Hin).
              pose proof (rep_lo _ _ _ H). unfold NULL in *. lia.
        -- apply wp_ret. split; auto. right.
           destruct Hr as [(C & _)|Hf]; [contradiction|exact Hf].
    + eapply wp_conseq; [apply IH; lia|].
      intros r' s' (-> & [(-> & Hrest)|Hfound]); split; auto.
      left. split; auto. intros k Hk' Hv x sz Hx Hin.
      destruct (Z.eq_dec k list) as [->|Hkne].
      * exfalso. apply orb_false_iff in Ec. destruct Ec as [E1 E2].
        unfold LISTLIMIT in E1. apply Z.eqb_neq in E1.
        destruct Hv as [Hv|Hv]; [lia|].
        rewrite Z.sub_diag, Z.div_1_r in Hv.
        apply andb_false_iff in E2. destruct E2 as [E2|E2].
        -- apply Z.leb_gt in E2. lia.
        -- apply negb_false_iff, Z.eqb_eq in E2.
           pose proof (rep_dll _ _ _ H _ Hk) as Hd.
           destruct (fl list) as [|z fz]; [contradiction|].
           cbn [dll] in Hd. unfold NULL in E2. lia.
      * eapply (Hrest k); eauto; try lia.
        rewrite Hshift by lia. exact Hv.
Qed.

(** No fit was found: no free block is large enough. *)
Lemma no_fit_complete s bs fl asize :
  rep s bs fl -> 1 <= asize ->
  (forall k, 0 <= k < 20 -> k = 19 \/ asize / 2 ^ (k - 0) <= 1 ->
             forall x sz, In x (fl k) -> In (x, sz, Free) bs -> sz < asize) ->
  forall x sz, In (x, sz, Free) bs -> sz < asize.
Proof.
  intros H Ha Hnone x sz Hin.
  destruct (Z.lt_ge_cases sz asize) as [|Hge]; [assumption|exfalso].
  pose proof (rep_block _ _ _ _ _ _ H Hin) as (B1 & B2 & B3 & _).
  destruct (class_bounds sz ltac:(lia)) as (C1 & C2 & C3).
  assert (Hx : In x (fl (class sz))).
  { apply (rep_mem _ _ _ H (class sz) x ltac:(lia)). exists sz. auto. }
  assert (Hv : class sz = 19 \/ asize / 2 ^ (class sz - 0) <= 1).
  { destruct (Z.eq_dec (class sz) 19) as [|Hne]; [left; assumption|right].
    specialize (C3 ltac:(lia)). rewrite Z.sub_0_r.
    assert (Hp : 0 < 2 ^ class sz) by (apply Z.pow_pos_nonneg; lia).
    rewrite Z.pow_add_r in C3 by lia. change (2 ^ 1) with 2 in C3.
    assert (asize / 2 ^ class sz < 2); [|lia].
    apply Z.div_lt_upper_bound; lia. }
  specialize (Hnone (class sz) ltac:(lia) Hv x sz Hx Hin). lia.
Qed.

Lemma mm_malloc_full fuel s bs fl size :
  rep s bs fl -> Forall linked bs -> enough fuel s ->
  0 < size <= 2 ^ 31 - 24 ->
  wp (mm_malloc fuel size) (malloc_full_post s bs (adjust_size size)) s.
Proof.
  intros H Hl He Hsize.
  pose proof (enough_fuel _ _ _ _ H He) as Hfuel.
  destruct (adjust_size_spec size Hsize) as (A1 & A2 & A3 & A4).
  unfold mm_malloc, NULL.
  replace (size =? 0) with false by (symmetry; apply Z.eqb_neq; lia).
  remember (adjust_size size) as asize eqn:Easize.
  apply wp_bind. eapply wp_conseq.
  { eapply find_fit_full with (n := 20%nat) (list := 0); eauto; lia. }
  intros r0 s0 (-> & Hr0).
  assert (Hplace : forall s1 fl1 x sz l1 l2,
             rep s1 (l1 ++ (x, sz, Free) :: l2) fl1 ->
             Forall linked (l1 ++ (x, sz, Free) :: l2) ->
             asize <= sz ->
             same_heap s s1 ->
             keeps_payloads bs s s1 ->
             (forall y sy, In (y, sy, Alloc) bs <->
                           In (y, sy, Alloc) (l1 ++ (x, sz, Free) :: l2)) ->
             (coalesced bs -> coalesced (l1 ++ (x, sz, Free) :: l2)) ->
             (forall r rsz s2, mem_brk s2 = mem_brk s1 ->
                x <= r -> r + rsz <= x + sz ->
                (mem_brk s2 = mem_brk s /\
                 exists x sz, In (x, sz, Free) bs /\ asize <= sz /\
                              x <= r /\ r + rsz <= x + sz) \/
                (mem_brk s2 = mem_brk s + Z.max asize 4096 /\
                 mem_brk s + Z.max asize 4096 <= mem_max_addr s /\
                 forall x sz, In (x, sz, Free) bs -> sz < asize)) ->
             wp (place fuel x asize) (malloc_full_post s bs asize) s1).
  { intros s1 fl1 x sz l1 l2 R1 L1 Hsz [Hh1 Hm1] K1 Hal Hco Hbrk.
    eapply wp_conseq; [eapply place_spec; eauto; lia|].
    intros r s2 (bs2 & fl2 & Hpc & R2 & [Hh2 Hm2] & Hb2 & K2 & _).
    destruct (place_case_facts _ _ _ _ _ _ _ _ _ _ Hpc R1 L1 ltac:(lia))
      as (rsz0 & Hin0 & _ & L2 & Hnew & _).
    destruct (place_case_full _ _ _ _ _ _ _ _ _ Hpc ltac:(lia))
      as (rsz & Hin & Hrsz & Hr1 & Hr2 & Hal2 & Hco2).
    right. exists bs2, fl2, rsz.
    split; [exact R2|]. split; [exact L2|]. split; [exact Hin|].
    split; [exact Hrsz|]. split; [|split; [|split; [|split; [|split]]]].
    - intros y sy. rewrite Hal2, Hal. tauto.
    - intros sy Hsy. apply (Hnew sy). apply Hal. exact Hsy.
    - split; congruence.
    - intros y sy i Hy Hi. rewrite (K2 y sy i); [apply (K1 y sy i); auto| |auto].
      apply Hal. exact Hy.
    - apply (Hbrk r rsz s2); auto.
    - intros Hc. apply Hco2, Hco, Hc. }
  destruct (Z.eqb_spec r0 0) as [->|Hne].
  - (* no fit: extend the heap *)
    assert (Hnofit : forall x sz, In (x, sz, Free) bs -> sz < asize).
    { destruct Hr0 as [(_ & Hnone)|(sz & Hin & _)].
      - eapply no_fit_complete; eauto. lia.
      - pose proof (rep_block _ _ _ _ _ _ H Hin). pose proof (rep_lo _ _ _ H). lia. }
    apply wp_bind.
    assert (Eext : wrap32 (MAX (to_int asize) (to_int CHUNKSIZE))
                   = Z.max asize 4096).
    { rewrite to_int_small by lia. change (to_int CHUNKSIZE) with 4096.
      unfold MAX. destruct (Z.gtb_spec asize 4096); rewrite wrap32_small; lia. }
    rewrite Eext.
    assert (Emod : Z.max asize 4096 mod 8 = 0).
    { destruct (Z.max_spec asize 4096) as [[_ ->]|[_ ->]]; auto. }
    assert (Eal : ALIGN (Z.max asize 4096) = Z.max asize 4096)
      by (apply ALIGN_fix; auto; lia).
    eapply wp_conseq.
    { eapply extend_heap_spec; eauto; rewrite Eal; auto; lia. }
    intros e s1 [(Hfail & -> & ->)|(Hok & bs1 & fl1 & Hcc & R1 & [Hh1 Hm1] & Hb1 & K1)].
    + rewrite Z.eqb_refl. apply wp_ret. left. rewrite Eal in Hfail. auto.
    + rewrite Eal in *.
      assert (Hl1 : Forall linked (bs ++ [(mem_brk s, Z.max asize 4096, Free)])).
      { apply Forall_app. split; auto. constructor; [|constructor].
        unfold linked. simpl. discriminate. }
      assert (Hs1 : sized (bs ++ [(mem_brk s, Z.max asize 4096, Free)])).
      { apply sized_app. split; [eapply rep_sized; eauto|].
        constructor; [simpl; lia|constructor]. }
      destruct (coalesce_case_facts _ _ _ _ _ _ _ _ Hcc Hl1 Hs1)
        as (la & rsz & lb & -> & Hrsz & L1 & Hal).
      assert (Hein : In (e, rsz, Free) (la ++ (e, rsz, Free) :: lb)) by (clear; inapp).
      pose proof (rep_block _ _ _ _ _ _ R1 Hein).
      pose proof (rep_lo _ _ _ R1).
      replace (e =? 0) with false by (symmetry; apply Z.eqb_neq; lia).
      eapply Hplace; eauto; try lia.
      * split; assumption.
      * intros y sy. rewrite Hal. clear. inapp.
      * intros Hc. eapply coalesce_case_coalesced; [exact Hcc|].
        unfold coalesced in *. apply coalesced_from_app. split; auto.
        cbn [coalesced_from]. split; [intros [_ C]; discriminate|exact I].
      * intros r rsz' s2 Hb2 _ _. right. split; [lia|]. split; [lia|exact Hnofit].
  - destruct Hr0 as [(C & _)|(sz & Hin & Hsz)]; [contradiction|].
    destruct (in_split _ _ Hin) as (l1 & l2 & ->).
    eapply Hplace; eauto; try lia.
    + split; reflexivity.
    + intros y sy i _ _. reflexivity.
    + intros y sy. tauto.
    + intros r rsz s2 Hb2 Hx1 Hx2. left. split; [exact Hb2|].
      exists r0, sz. auto.
Qed.










(** ** Properties of the public interface *)
Ltac by_check :=
  first [apply rep_check_sound | apply linkedb_sound]; vm_compute; reflexivity.

Lemma result_after {A} (c : M A) (s : state) (a : A) :
  result c s = Some a -> c s = Ok a (after c s).
Proof.
  unfold result, after. destruct (c s); intros E; inversion E. reflexivity.
Qed.

Lemma is_header_step s h h' :
  is_header s h -> Z.land (load32 (mem s) h) (Z.lnot 7) <> 0 ->
  h' = h + Z.land (load32 (mem s) h) (Z.lnot 7) -> is_header s h'.
Proof. intros H Hnz ->. apply hdr_next; assumption. Qed.

(** C1: the free lists are not kept in address order.  After six
    allocations of 16 bytes and the release of the third, the first and the
    fifth block, the list of class 4 read from its head through the PRED
    links is 65664, 65552, 65616: the order of release, last first,
    neither descending nor ascending in address. *)
Theorem C1_free_list_not_in_address_order :
  result run_lifo heap0 = Some [65664; 65552; 65616] /\
  descending [65664; 65552; 65616] = false /\
  ascending [65664; 65552; 65616] = false.
Proof. repeat split; vm_compute; reflexivity. Qed.

(** C2: [mm_realloc] does not set the RA bit.  Resizing a block of 208
    bytes to 16 bytes returns the block itself with a slack of 56 bytes,
    less than 256, and the RA bit of the next header still reads 0. *)
Theorem C2_resize_leaves_ra_bit_unset :
  result run_shrink heap0 = Some (69296, 56, 0).
Proof. vm_compute. reflexivity. Qed.

(** In a well-formed heap the RA bit of the header after an allocated
    block is 0 before [mm_free], and [mm_free] leaves it so: the header
    word that followed [p]'s block, and every header of the heap, has an
    RA bit of 0 on return. *)
Lemma free_next_header_untagged fuel s l1 p sz l2 fl :
  rep s (l1 ++ (p, sz, Alloc) :: l2) fl ->
  Forall linked (l1 ++ (p, sz, Alloc) :: l2) ->
  (1 <= fuel)%nat ->
  exists h s',
    (n <- NEXT_BLKP p ;; ret (HDRP n)) s = Ok h s /\
    mm_free fuel p s = Ok tt s' /\
    Z.land (load32 (mem s') h) 2 = 0 /\
    ra_clear s'.
Proof.
  intros H Hl Hfuel.
  assert (Hp : In (p, sz, Alloc) (l1 ++ (p, sz, Alloc) :: l2)) by (clear; inapp).
  pose proof (rep_block _ _ _ _ _ _ H Hp) as (B1 & B2 & B3 & B4 & B5 & B6 & B7).
  simpl abit in *.
  destruct (wp_ok _ _ _ (mm_free_spec fuel s l1 p sz l2 fl H Hl Hfuel))
    as ([] & s' & E & r & bs' & fl' & _ & R & _ & _ & _ & _ & _ & Hra).
  exists (p + sz - 4), s'. split; [|split; [exact E|split; [exact Hra|]]].
  - apply wp_eq. apply wp_bind, wp_NEXT_BLKP; try lia.
    rewrite B6, (header_size sz 1) by auto. apply wp_ret.
    split; [unfold HDRP, WSIZE; lia|reflexivity].
  - eapply rep_ra_clear; eauto.
Qed.

(** C3: [mm_free] does not clear the RA bit of the next header.  After
    init, three allocations, one release and a resize that grows the first
    block [a] in place, the header after [a]'s block (payload address
    69688) has its RA bit set; [mm_free a] returns with that block still
    the one after [a]'s and its RA bit still set. *)
Theorem C3_free_does_not_clear_ra_bit :
  result run_free_after_grow heap0 = Some (69688, 2, 69688, 2).
Proof. vm_compute. reflexivity. Qed.

(** C4: on a free block [x] of a well-formed heap, [coalesce] follows the
    four cases on the status of the physical neighbours: it leaves [x] when
    both are allocated (the prologue and the epilogue count as allocated),
    and otherwise merges [x] with the free successor, the free predecessor
    or both, the merged block carrying the sum of the sizes in its header
    and footer and being put at the head of the list of its size class.
    The choice of the case, on any heap: the predecessor counts as
    allocated when the RA bit or the allocation bit of its header is set;
    the successor counts as allocated when the allocation bit of its header
    is set, its RA bit is not read. *)
Theorem C4_coalesce_four_cases fuel s l1 x sz l2 fl :
  rep s (l1 ++ (x, sz, Free) :: l2) fl ->
  Forall linked (l1 ++ (x, sz, Free) :: l2) ->
  (1 <= fuel)%nat ->
  (exists r s' bs' fl',
      coalesce fuel x s = Ok r s' /\
      coalesce_case l1 x sz l2 fl r bs' fl' /\
      rep s' bs' fl' /\ Forall linked bs' /\
      same_heap s s' /\ mem_brk s' = mem_brk s /\
      keeps_payloads (l1 ++ (x, sz, Free) :: l2) s s') /\
  (forall t ptr,
      mem_heap t <= ptr - 8 -> ptr <= mem_brk t ->
      mem_heap t <= prev_hdr t ptr -> prev_hdr t ptr + 4 <= mem_brk t ->
      mem_heap t <= next_hdr t ptr -> next_hdr t ptr + 4 <= mem_brk t ->
      coalesce fuel ptr t =
      (let hp := load32 (mem t) (prev_hdr t ptr) in
       let hn := load32 (mem t) (next_hdr t ptr) in
       let size := Z.land (load32 (mem t) (ptr - 4)) (Z.lnot 7) in
       let prev_counts := negb (Z.land hp 2 =? 0) || negb (Z.land hp 1 =? 0) in
       let next_counts := negb (Z.land hn 1 =? 0) in
       if prev_counts && next_counts then ret ptr
       else if prev_counts then merge_next fuel ptr size
       else if next_counts then merge_prev fuel ptr size
       else merge_both fuel ptr size) t).
Proof.
  intros H Hl Hfuel. split.
  - destruct (wp_ok _ _ _ (coalesce_spec fuel s l1 x sz l2 fl H Hl Hfuel))
      as (r & s' & E & bs' & fl' & Hcc & R & Hh & Hb & K & _).
    destruct (coalesce_case_facts _ _ _ _ _ _ _ _ Hcc Hl (rep_sized _ _ _ H))
      as (la & rsz & lb & Ebs & Hrsz & L & Hal).
    exists r, s', bs', fl'. auto 10.
  - intros t ptr. apply coalesce_decision.
Qed.

Lemma C4_witness :
  rep st_init ([] ++ (65552, 64, Free) :: [])
      (lists_of [[]; []; []; []; []; []; [65552]]) /\
  (exists r s' bs' fl',
      coalesce 100 65552 st_init = Ok r s' /\
      coalesce_case [] 65552 64 []
        (lists_of [[]; []; []; []; []; []; [65552]]) r bs' fl' /\
      rep s' bs' fl' /\ Forall linked bs' /\
      same_heap st_init s' /\ mem_brk s' = mem_brk st_init /\
      keeps_payloads ([] ++ (65552, 64, Free) :: []) st_init s') /\
  Z.land (load32 (mem st_tagged) (prev_hdr st_tagged 65576)) 1 = 0 /\
  coalesce 100 65576 st_tagged = Ok 65576 st_tagged.
Proof.
  assert (R : rep st_init ([] ++ (65552, 64, Free) :: [])
                  (lists_of [[]; []; []; []; []; []; [65552]])) by by_check.
  destruct (C4_coalesce_four_cases 100 st_init [] 65552 64 []
              (lists_of [[]; []; []; []; []; []; [65552]]) R
              ltac:(by_check) ltac:(lia)) as [HA HB].
  split; [exact R|]. split; [exact HA|].
  split; [vm_compute; reflexivity|].
  rewrite (HB st_tagged 65576) by (vm_compute; discriminate).
  reflexivity.
Defined.

(** C5: on a free block [x] of size [sz] and an adjusted size
    [asize <= sz], [place] takes [x] off its list and then follows three
    cases: with a remainder [sz - asize <= 16] the whole block becomes
    allocated and [x] is returned; otherwise, with [asize >= 100], the
    lower [sz - asize] bytes stay a free block, put back on a list, and
    the upper [asize] bytes become the allocated block that is returned;
    otherwise [x] is returned as an allocated block of [asize] bytes and
    the upper [sz - asize] bytes become a free block put on a list.  In
    both splits the upper fragment has an RA bit of 0 in its header and in
    its footer. *)
Theorem C5_place_three_cases fuel s l1 x sz l2 fl asize :
  rep s (l1 ++ (x, sz, Free) :: l2) fl ->
  16 <= asize <= sz -> asize mod 8 = 0 -> (1 <= fuel)%nat ->
  exists r s' bs' fl',
    place fuel x asize s = Ok r s' /\
    place_case l1 x sz asize l2 fl r bs' fl' /\
    rep s' bs' fl' /\
    same_heap s s' /\ mem_brk s' = mem_brk s /\
    keeps_payloads (l1 ++ (x, sz, Free) :: l2) s s' /\
    (16 < sz - asize ->
     let u := if asize >=? 100 then asize else sz - asize in
     let a := if asize >=? 100 then 1 else 0 in
     load32 (mem s') (x + sz - u - 4) = u + a /\
     load32 (mem s') (x + sz - 8) = u + a).
Proof.
  intros H Ha Hmod Hfuel.
  destruct (wp_ok _ _ _ (place_spec fuel s l1 x sz l2 fl asize H Ha Hmod Hfuel))
    as (r & s' & E & bs' & fl' & Hpc & R & Hh & Hb & K & Hft).
  exists r, s', bs', fl'.
  split; [exact E|]. split; [exact Hpc|]. split; [exact R|].
  split; [exact Hh|]. split; [exact Hb|]. split; [exact K|].
  intros Hr. specialize (Hft Hr). cbv zeta.
  destruct Hpc as [Hw|Hu1 Hu2|Hu1 Hu2]; [lia| |].
  - replace (asize >=? 100) with true in *
      by (symmetry; apply Z.geb_le; lia).
    split; [|rewrite Hft; lia].
    assert (Hin : In (x + (sz - asize), asize, Alloc)
                     (l1 ++ (x, sz - asize, Free)
                         :: (x + (sz - asize), asize, Alloc) :: l2))
      by (clear; inapp).
    pose proof (rep_block _ _ _ _ _ _ R Hin) as (_ & _ & _ & _ & _ & B6 & _).
    simpl abit in B6. rewrite <- B6. f_equal. lia.
  - replace (asize >=? 100) with false in *
      by (symmetry; rewrite Z.geb_leb; apply Z.leb_gt; lia).
    split; [|rewrite Hft; lia].
    assert (Hin : In (x + asize, sz - asize, Free)
                     (l1 ++ (x, asize, Alloc)
                         :: (x + asize, sz - asize, Free) :: l2))
      by (clear; inapp).
    pose proof (rep_block _ _ _ _ _ _ R Hin) as (_ & _ & _ & _ & _ & B6 & _).
    simpl abit in B6. rewrite <- B6. f_equal. lia.
Qed.

Lemma C5_witness :
  rep st_init ([] ++ (65552, 64, Free) :: [])
      (lists_of [[]; []; []; []; []; []; [65552]]) /\
  exists r s' bs' fl',
    place 100 65552 24 st_init = Ok r s' /\
    place_case [] 65552 64 24 []
      (lists_of [[]; []; []; []; []; []; [65552]]) r bs' fl' /\
    rep s' bs' fl' /\
    same_heap st_init s' /\ mem_brk s' = mem_brk st_init /\
    keeps_payloads ([] ++ (65552, 64, Free) :: []) st_init s' /\
    (16 < 64 - 24 ->
     let u := if 24 >=? 100 then 24 else 64 - 24 in
     let a := if 24 >=? 100 then 1 else 0 in
     load32 (mem s') (65552 + 64 - u - 4) = u + a /\
     load32 (mem s') (65552 + 64 - 8) = u + a).
Proof.
  assert (R : rep st_init ([] ++ (65552, 64, Free) :: [])
                  (lists_of [[]; []; []; []; []; []; [65552]])) by by_check.
  split; [exact R|].
  apply (C5_place_three_cases 100 st_init [] 65552 64 [] _ 24 R);
    [lia|reflexivity|lia].
Defined.



(** C7: a failure of the heap extension is not turned into a null result
    on the path of [mm_realloc] that moves the block.  In an arena of 1024
    bytes holding two allocated blocks, [mem_sbrk] fails; [mm_malloc]
    returns null and so does [mm_realloc] of the last block, which grows
    in place, both with the heap unchanged; but [mm_realloc] of the first
    block to 200 bytes, which has to move it, copies to the null pointer:
    the run faults. *)
Theorem C7_relocation_faults_when_extend_fails :
  let st := after run_two_blocks small_heap0 in
  result run_two_blocks small_heap0 = Some (65552, 65576) /\
  mem_sbrk 4096 st = Ok SBRK_FAIL st /\
  mm_malloc 100 328 st = Ok NULL st /\
  mm_realloc 100 65576 200 st = Ok NULL st /\
  mm_realloc 100 65552 200 st = Fault.
Proof. cbv zeta. repeat split; vm_compute; reflexivity. Qed.

(** C8: a request of size 0 returns null and leaves the state as it is,
    in [mm_malloc] and in [mm_realloc], on every state. *)
Theorem C8_size_zero_returns_null fuel s p :
  mm_malloc fuel 0 s = Ok NULL s /\ mm_realloc fuel p 0 s = Ok NULL s.
Proof. split; reflexivity. Qed.

(** C9: the RA bit of a header word can be 1 after a run of public
    operations.  After init, three allocations of 16, 8 and 16 bytes, the
    release of the second block and a resize of the first block to 100
    bytes, [mm_realloc] has grown the first block in place across its
    free successor of 16 bytes: it has extended the heap by 4096 bytes at
    its end and written the sum into the header of the first block.  The
    header at 65548 now holds 4137, a block of 4136 bytes that runs over
    the third block, which is still allocated (its header at 65588 holds
    25).  The header word that follows the first block, at 69684, is a
    word of the arena that no operation has written; its RA bit is
    set. *)
Theorem C9_growth_over_next_block_leaves_ra_bit_set :
  let st := after run_grow_across heap0 in
  result run_grow_across heap0 = Some 65552 /\
  load32 (mem st) 65548 = 4137 /\
  load32 (mem st) 65588 = 25 /\
  Z.land (load32 (mem st) 69684) 2 = 2 /\
  ~ ra_clear st.
Proof.
  cbv zeta.
  split; [vm_compute; reflexivity|].
  split; [vm_compute; reflexivity|].
  split; [vm_compute; reflexivity|].
  split; [vm_compute; reflexivity|].
  intros Hclear.
  assert (H1 : is_header (after run_grow_across heap0) 65540).
  { replace 65540 with (mem_heap (after run_grow_across heap0) + 4)
      by (vm_compute; reflexivity).
    apply hdr_first. }
  assert (H2 : is_header (after run_grow_across heap0) 65548).
  { apply (is_header_step _ 65540); [exact H1| |]; vm_compute;
      [discriminate|reflexivity]. }
  assert (H3 : is_header (after run_grow_across heap0) 69684).
  { apply (is_header_step _ 65548); [exact H2| |]; vm_compute;
      [discriminate|reflexivity]. }
  apply Hclear in H3. vm_compute in H3. discriminate.
Qed.

(** C10: [mm_realloc p size] with [size > 0] on an allocated block whose
    size is at least the adjusted size plus the 128-byte buffer returns
    [p] and leaves the whole state, and so the block, its header and its
    footer, as it was; no next header is tagged either. *)
Theorem C10_resize_of_large_block_is_identity fuel s l1 p psz l2 fl size :
  rep s (l1 ++ (p, psz, Alloc) :: l2) fl ->
  0 < size <= 2 ^ 31 - 160 ->
  adjust_size size + REALLOC_BUFFER <= psz ->
  mm_realloc fuel p size s = Ok p s.
Proof.
  intros H Hsize Hbig. eapply realloc_keep; eauto.
Qed.

Lemma C10_witness :
  rep st_big ([(65552, 3952, Free)] ++ (69504, 208, Alloc) :: [])
      (lists_of [[]; []; []; []; []; []; []; []; []; []; []; [65552]]) /\
  adjust_size 16 + REALLOC_BUFFER <= 208 /\
  mm_realloc 100 69504 16 st_big = Ok 69504 st_big.
Proof.
  assert (R : rep st_big ([(65552, 3952, Free)] ++ (69504, 208, Alloc) :: [])
                  (lists_of [[]; []; []; []; []; []; []; []; []; []; []; [65552]]))
    by by_check.
  split; [exact R|]. split; [vm_compute; discriminate|].
  apply (C10_resize_of_large_block_is_identity 100 st_big _ _ _ _ _ 16 R);
    [lia|vm_compute; discriminate].
Defined.

(** ** Further properties: arithmetic of sizes and tags *)
(** X1: the list of a block of [sz >= 1] bytes is the one of index
    [class sz], with [2 ^ class sz <= sz]; below the last list (index 19)
    also [sz < 2 ^ (class sz + 1)]. *)
Theorem X1_class_bounds sz :
  1 <= sz ->
  0 <= class sz <= 19 /\ 2 ^ class sz <= sz /\
  (class sz < 19 -> sz < 2 ^ (class sz + 1)).
Proof. apply class_bounds. Qed.

Lemma X1_witness :
  1 <= 3952 /\
  0 <= class 3952 <= 19 /\ 2 ^ class 3952 <= 3952 /\
  (class 3952 < 19 -> 3952 < 2 ^ (class 3952 + 1)).
Proof. split; [lia|apply (X1_class_bounds 3952); lia]. Defined.

(** X2: [ALIGN] rounds up to the next multiple of 8 and leaves multiples
    of 8 as they are; within 7 of [2 ^ 32] the sum wraps and the result
    is 0. *)
Theorem X2_ALIGN_rounds_up size :
  0 <= size < 2 ^ 32 ->
  (size <= 2 ^ 32 - 8 ->
   ALIGN size mod 8 = 0 /\ size <= ALIGN size < size + 8 /\
   (size mod 8 = 0 -> ALIGN size = size)) /\
  (2 ^ 32 - 8 < size -> ALIGN size = 0).
Proof.
  intros H. split.
  - intros Hle. destruct (ALIGN_spec size ltac:(lia)) as [Hm Hr].
    split; [exact Hm|]. split; [exact Hr|].
    intros Hs.
    pose proof (Z.div_mod size 8 ltac:(lia)).
    pose proof (Z.div_mod (ALIGN size) 8 ltac:(lia)). lia.
  - intros Hgt. unfold ALIGN, ALIGNMENT, wrap32.
    replace ((size + (8 - 1)) mod 2 ^ 32) with (size + 7 - 2 ^ 32).
    + rewrite land_lnot7. rewrite Z.div_small by lia. reflexivity.
    + apply Z.mod_unique with (q := 1); lia.
Qed.

Lemma X2_witness :
  0 <= 13 < 2 ^ 32 /\
  (13 <= 2 ^ 32 - 8 ->
   ALIGN 13 mod 8 = 0 /\ 13 <= ALIGN 13 < 13 + 8 /\
   (13 mod 8 = 0 -> ALIGN 13 = 13)) /\
  (2 ^ 32 - 8 < 13 -> ALIGN 13 = 0).
Proof. split; [lia|apply (X2_ALIGN_rounds_up 13); lia]. Defined.

(** X3: the adjusted size of a request of [size] bytes is a multiple of 8,
    at least 16, and leaves room for the 8 bytes of header and footer with
    less than 8 bytes of padding; requests of at most 8 bytes get 16. *)
Theorem X3_adjust_size_bounds size :
  0 < size <= 2 ^ 31 - 24 ->
  adjust_size size mod 8 = 0 /\ 16 <= adjust_size size /\
  size + 8 <= adjust_size size /\
  (8 < size -> adjust_size size < size + 16) /\
  (size <= 8 -> adjust_size size = 16).
Proof.
  intros H. destruct (adjust_size_spec size H) as (A1 & A2 & A3 & A4).
  split; [exact A2|]. split; [lia|]. split; [exact A3|]. split; [lia|].
  intros Hs. unfold adjust_size, DSIZE.
  destruct (Z.leb_spec size 8); [reflexivity|lia].
Qed.

Lemma X3_witness :
  0 < 200 <= 2 ^ 31 - 24 /\
  adjust_size 200 mod 8 = 0 /\ 16 <= adjust_size 200 /\
  200 + 8 <= adjust_size 200 /\
  (8 < 200 -> adjust_size 200 < 200 + 16) /\
  (200 <= 8 -> adjust_size 200 = 16).
Proof. split; [lia|apply (X3_adjust_size_bounds 200); lia]. Defined.

(** X4: for the 8 largest 32-bit sizes the adjusted size wraps around: it
    is at most 8, less than the minimum block size and than the request. *)
Theorem X4_adjust_size_wraps size :
  2 ^ 32 - 8 <= size < 2 ^ 32 ->
  adjust_size size = 0 \/ adjust_size size = 8.
Proof.
  intros H. unfold adjust_size, DSIZE.
  destruct (Z.leb_spec size 8); [lia|].
  assert (E : wrap32 (size + 8) = size + 8 - 2 ^ 32).
  { unfold wrap32. symmetry. apply Z.mod_unique with (q := 1); lia. }
  rewrite E. unfold ALIGN, ALIGNMENT.
  rewrite wrap32_small by lia. rewrite land_lnot7.
  assert (C : (size + 8 - 2 ^ 32 + (8 - 1)) / 8 = 0 \/
              (size + 8 - 2 ^ 32 + (8 - 1)) / 8 = 1).
  { destruct (Z.eq_dec size (2 ^ 32 - 8)) as [->|Hne].
    - left. reflexivity.
    - right. symmetry. apply Z.div_unique with (r := size + 8 - 2 ^ 32 - 1); lia. }
  destruct C as [->| ->]; auto.
Qed.

Lemma X4_witness :
  2 ^ 32 - 8 <= 4294967290 < 2 ^ 32 /\
  (adjust_size 4294967290 = 0 \/ adjust_size 4294967290 = 8).
Proof. split; [lia|apply (X4_adjust_size_wraps 4294967290); lia]. Defined.

(** X5: [PUT] stores the size and the allocation bit and keeps bit 1 of
    the word it overwrites; [PUT_NOTAG] stores them with bit 1 cleared.
    In both cases [GET_SIZE], [GET_ALLOC] and [GET_TAG] read the three
    fields back, and no other word changes. *)
Theorem X5_tag_round_trip s p sz a :
  mem_heap s <= p -> p + 4 <= mem_brk s ->
  0 <= sz < 2 ^ 31 -> sz mod 8 = 0 -> a = 0 \/ a = 1 ->
  (exists s',
      PUT p (PACK sz a) s = Ok tt s' /\
      GET_SIZE p s' = Ok sz s' /\ GET_ALLOC p s' = Ok a s' /\
      GET_TAG p s' = Ok (Z.land (load32 (mem s) p) 2) s' /\
      (forall q, q + 4 <= p \/ p + 4 <= q ->
                 load32 (mem s') q = load32 (mem s) q)) /\
  (exists s',
      PUT_NOTAG p (PACK sz a) s = Ok tt s' /\
      GET_SIZE p s' = Ok sz s' /\ GET_ALLOC p s' = Ok a s' /\
      GET_TAG p s' = Ok 0 s' /\
      (forall q, q + 4 <= p \/ p + 4 <= q ->
                 load32 (mem s') q = load32 (mem s) q)).
Proof.
  intros H1 H2 Hsz Hmod Ha. split.
  - exists (set_mem s (store32 (mem s) p
                      (Z.lor (PACK sz a) (Z.land (load32 (mem s) p) 2)))).
    assert (Hv : footer_ok (Z.lor (PACK sz a) (Z.land (load32 (mem s) p) 2)) sz a)
      by (apply put_value; auto).
    assert (Hr : 0 <= Z.lor (PACK sz a) (Z.land (load32 (mem s) p) 2) < 2 ^ 32)
      by (apply (footer_ok_range _ sz a); auto).
    split; [apply wp_eq, wp_PUT; auto|].
    assert (E : load32 (store32 (mem s) p
                          (Z.lor (PACK sz a) (Z.land (load32 (mem s) p) 2))) p
                = sz + a + Z.land (load32 (mem s) p) 2).
    { rewrite load32_store32_same, wrap32_small by lia.
      destruct (land2_cases (load32 (mem s) p)) as [E0|E2];
        destruct Hv as [Hv|Hv]; rewrite Hv; rewrite ?E0, ?E2; try lia.
      - rewrite E0, Z.lor_0_r, PACK_bit in Hv by auto. lia.
      - rewrite E2 in Hv. unfold PACK in Hv.
        destruct Ha as [->| ->]; simpl Z.land in Hv.
        + rewrite Z.lor_0_r, lor_small in Hv by (auto; lia). lia.
        + rewrite <- Z.lor_assoc in Hv. simpl (Z.lor 1 2) in Hv.
          rewrite lor_small in Hv by (auto; lia). lia. }
    assert (Ht : Z.land (load32 (mem s) p) 2 = 0 \/ Z.land (load32 (mem s) p) 2 = 2)
      by apply land2_cases.
    split; [|split; [|split]].
    + rewrite run_GET_SIZE by (sts; lia). sts. rewrite E.
      rewrite <- Z.add_assoc. rewrite size_of_tag by (auto; lia). reflexivity.
    + rewrite run_GET_ALLOC by (sts; lia). sts. rewrite E.
      rewrite alloc_of_tag by auto. reflexivity.
    + rewrite run_GET_TAG by (sts; lia). sts. rewrite E.
      rewrite ratag_of_tag by auto. reflexivity.
    + intros q Hq. sts. apply load32_store32_other. lia.
  - exists (set_mem s (store32 (mem s) p (PACK sz a))).
    split; [apply wp_eq, wp_PUT_NOTAG; auto|].
    assert (E : load32 (store32 (mem s) p (PACK sz a)) p = sz + a).
    { rewrite load32_store32_same, PACK_bit by auto.
      apply wrap32_small. lia. }
    split; [|split; [|split]].
    + rewrite run_GET_SIZE by (sts; lia). sts. rewrite E.
      rewrite header_size by auto. reflexivity.
    + rewrite run_GET_ALLOC by (sts; lia). sts. rewrite E.
      rewrite header_alloc by auto. reflexivity.
    + rewrite run_GET_TAG by (sts; lia). sts. rewrite E.
      rewrite header_tag by auto. reflexivity.
    + intros q Hq. sts. apply load32_store32_other. lia.
Qed.

Lemma X5_witness :
  (mem_heap st_init <= 65548 /\ 65548 + 4 <= mem_brk st_init) /\
  (exists s',
      PUT 65548 (PACK 64 1) st_init = Ok tt s' /\
      GET_SIZE 65548 s' = Ok 64 s' /\ GET_ALLOC 65548 s' = Ok 1 s' /\
      GET_TAG 65548 s' = Ok (Z.land (load32 (mem st_init) 65548) 2) s' /\
      (forall q, q + 4 <= 65548 \/ 65548 + 4 <= q ->
                 load32 (mem s') q = load32 (mem st_init) q)) /\
  (exists s',
      PUT_NOTAG 65548 (PACK 64 1) st_init = Ok tt s' /\
      GET_SIZE 65548 s' = Ok 64 s' /\ GET_ALLOC 65548 s' = Ok 1 s' /\
      GET_TAG 65548 s' = Ok 0 s' /\
      (forall q, q + 4 <= 65548 \/ 65548 + 4 <= q ->
                 load32 (mem s') q = load32 (mem st_init) q)).
Proof.
  assert (H : mem_heap st_init <= 65548 /\ 65548 + 4 <= mem_brk st_init)
    by (split; apply Z.leb_le; vm_compute; reflexivity).
  split; [exact H|].
  apply (X5_tag_round_trip st_init 65548 64 1);
    [exact (proj1 H)|exact (proj2 H)|lia|reflexivity|right; reflexivity].
Defined.



Lemma run_PRED p s :
  mem_heap s <= p -> p + 4 <= mem_brk s -> PRED p s = Ok (load32 (mem s) p) s.
Proof. intros. apply wp_eq, wp_PRED; auto. Qed.

Lemma list_walk_dll s l : forall succ p fuel,
  dll (mem s) succ p l ->
  (forall x, In x l -> mem_heap s <= x /\ x + 4 <= mem_brk s) ->
  (length l < fuel)%nat ->
  list_walk fuel p s = Ok l s.
Proof.
  induction l as [|x r IH]; intros succ p fuel Hd Hv Hf.
  - simpl in Hd. subst p. destruct fuel; [simpl in Hf; lia|]. reflexivity.
  - cbn [dll] in Hd. destruct Hd as (-> & Hx & Hs & Hd).
    destruct fuel as [|fuel]; [simpl in Hf; lia|].
    cbn [list_walk]. unfold NULL.
    replace (x =? 0) with false by (symmetry; apply Z.eqb_neq; auto).
    destruct (Hv x (or_introl eq_refl)) as [V1 V2].
    rewrite (run_bind _ _ _ _ _ (run_PRED x s V1 V2)).
    rewrite (run_bind _ _ _ _ _
               (IH _ _ fuel Hd (fun z Hz => Hv z (or_intror Hz))
                   ltac:(simpl in Hf; lia))).
    reflexivity.
Qed.

Lemma free_list_rep fuel s bs fl k :
  rep s bs fl -> 0 <= k < 20 -> enough fuel s ->
  free_list fuel k s = Ok (fl k) s.
Proof.
  intros H Hk He. unfold free_list, get_list.
  unfold bind at 1.
  eapply list_walk_dll.
  - apply (rep_dll _ _ _ H k Hk).
  - intros x Hx. destruct (rep_fl_block _ _ _ _ _ H Hk Hx) as (sz & Hin & _).
    pose proof (rep_block _ _ _ _ _ _ H Hin). lia.
  - pose proof (rep_fl_length _ _ _ _ H Hk). unfold enough in He. lia.
Qed.

Lemma heap_walk_rep s bs0 fl :
  rep s bs0 fl ->
  forall bs a fuel,
    incl bs bs0 -> contig a bs (mem_brk s) -> mem_heap s + 16 <= a ->
    (length bs < fuel)%nat ->
    heap_walk fuel a s = Ok (map block_view bs) s.
Proof.
  intros H. induction bs as [|[[x sz] st] r IH]; intros a fuel Hi Hc Ha Hf.
  - simpl in Hc. subst a. destruct fuel; [simpl in Hf; lia|].
    cbn [heap_walk]. unfold HDRP; unfold WSIZE.
    erewrite run_bind by (apply run_GET_SIZE; lia).
    erewrite run_bind by (apply run_GET_ALLOC; lia).
    rewrite (rep_epilogue _ _ _ H). reflexivity.
  - simpl in Hc. destruct Hc as [E Hc]. subst a.
    destruct fuel as [|fuel]; [simpl in Hf; lia|].
    assert (Hin : In (x, sz, st) bs0) by (apply Hi; left; reflexivity).
    pose proof (rep_block _ _ _ _ _ _ H Hin) as (B1 & B2 & B3 & B4 & B5 & B6 & B7).
    cbn [heap_walk]. unfold HDRP; unfold WSIZE.
    erewrite run_bind by (apply run_GET_SIZE; lia).
    erewrite run_bind by (apply run_GET_ALLOC; lia).
    rewrite B6, (header_size sz (abit st)), (header_alloc sz (abit st))
      by (auto using abit_cases).
    replace (sz =? 0) with false by (symmetry; apply Z.eqb_neq; lia).
    erewrite run_bind by (apply run_NEXT_BLKP; lia).
    rewrite B6, (header_size sz (abit st)) by (auto using abit_cases).
    rewrite (run_bind _ _ _ _ _
               (IH (x + sz) fuel (fun z Hz => Hi z (or_intror Hz)) Hc
                   ltac:(lia) ltac:(simpl in Hf; lia))).
    reflexivity.
Qed.

Lemma rep_ext s bs fl fl' :
  (forall k, 0 <= k < 20 -> fl' k = fl k) -> rep s bs fl -> rep s bs fl'.
Proof.
  intros E H. constructor; try apply H.
  - intros k Hk. rewrite (E k Hk). apply (rep_dll _ _ _ H k Hk).
  - intros k Hk. rewrite (E k Hk). apply (rep_nodup _ _ _ H k Hk).
  - intros k x Hk. rewrite (E k Hk). apply (rep_mem _ _ _ H k x Hk).
Qed.

Lemma rep_heads s bs fl k :
  rep s bs fl -> 0 <= k < 20 -> segregated_free_lists s k = hd 0 (fl k).
Proof. intros H Hk. eapply dll_hd. apply (rep_dll _ _ _ H k Hk). Qed.

Lemma reach_st_4 : reach heap0 st_4.
Proof.
  assert (H0 : reach heap0 st_init).
  { apply (reach_init heap0 100).
    - unfold fresh. vm_compute. repeat split; reflexivity.
    - lia.
    - apply (result_after (mm_init 100) heap0 0). vm_compute. reflexivity. }
  assert (H1 : reach heap0 st_1).
  { apply (reach_step heap0 100 (Malloc 16) 65552 st_init); [exact H0| | |].
    - simpl. lia.
    - apply Z.leb_le. vm_compute. reflexivity.
    - apply result_after. vm_compute. reflexivity. }
  assert (H2 : reach heap0 st_2).
  { apply (reach_step heap0 100 (Malloc 8) 65576 st_1); [exact H1| | |].
    - simpl. lia.
    - apply Z.leb_le. vm_compute. reflexivity.
    - apply result_after. vm_compute. reflexivity. }
  assert (H3 : reach heap0 st_3).
  { apply (reach_step heap0 100 (Malloc 16) 65592 st_2); [exact H2| | |].
    - simpl. lia.
    - apply Z.leb_le. vm_compute. reflexivity.
    - apply result_after. vm_compute. reflexivity. }
  apply (reach_step heap0 100 (Release 65576) 0 st_3); [exact H3| | |].
  - exists [(65552, 24, Alloc)], 16, [(65592, 24, Alloc)], (lists_of []).
    split; [apply rep_check_sound|apply linkedb_sound];
      vm_compute; reflexivity.
  - apply Z.leb_le. vm_compute. reflexivity.
  - apply result_after. vm_compute. reflexivity.
Qed.

(** X6: take [mm_init] on a fresh arena and then any sequence of calls
    that return, each of them, in the state it is made in, one of:
    [mm_malloc] of at most [2 ^ 31 - 24] bytes; [mm_free] of an allocated
    payload; [mm_realloc] of an allocated payload to at most
    [2 ^ 31 - 160] bytes, other than a call that has to grow its block in
    place across a free successor that is neither the last block nor
    large enough (these are the calls [legal] admits).  After it, the
    heap read block by block from the first payload is a sequence of
    allocated and free blocks that tile the heap and end exactly at the
    epilogue, and the walk of each free list through the PRED words
    visits, once each, exactly the free blocks of that size class. *)
Theorem X6_heap_consistent_after_legal_runs s0 s fuel :
  reach s0 s -> enough fuel s ->
  exists bs fl,
    Forall linked bs /\
    contig (mem_heap s + 16) bs (mem_brk s) /\
    heap_walk fuel (mem_heap s + 16) s = Ok (map block_view bs) s /\
    (forall k, 0 <= k < 20 ->
       free_list fuel k s = Ok (fl k) s /\ NoDup (fl k) /\
       (forall x, In x (fl k) <->
                  exists sz, In (x, sz, Free) bs /\ class sz = k)).
Proof.
  intros Hr He. destruct (reach_wf _ _ Hr) as (bs & fl & R & L).
  exists bs, fl. split; [exact L|]. split; [apply (rep_contig _ _ _ R)|].
  split.
  - eapply heap_walk_rep; eauto.
    + apply incl_refl.
    + apply (rep_contig _ _ _ R).
    + lia.
    + pose proof (contig_len _ _ _ (rep_sized _ _ _ R) (rep_contig _ _ _ R)).
      unfold enough in He. lia.
  - intros k Hk. split; [eapply free_list_rep; eauto|].
    split; [apply (rep_nodup _ _ _ R k Hk)|].
    intros x. apply (rep_mem _ _ _ R k x Hk).
Qed.

Lemma X6_witness :
  reach heap0 st_4 /\
  exists bs fl,
    Forall linked bs /\
    contig (mem_heap st_4 + 16) bs (mem_brk st_4) /\
    heap_walk 100 (mem_heap st_4 + 16) st_4 = Ok (map block_view bs) st_4 /\
    (forall k, 0 <= k < 20 ->
       free_list 100 k st_4 = Ok (fl k) st_4 /\ NoDup (fl k) /\
       (forall x, In x (fl k) <->
                  exists sz, In (x, sz, Free) bs /\ class sz = k)).
Proof.
  split; [exact reach_st_4|].
  apply (X6_heap_consistent_after_legal_runs heap0 st_4 100 reach_st_4).
  apply Z.leb_le. vm_compute. reflexivity.
Defined.



(** ** Further properties: the helper functions *)
(** X8: [insert_node] on a block that is on no list puts it at the head
    of the list of its size class: the list head is the block, its PRED
    word holds the former head and its SUCC word is null; the heads of
    the other lists do not change. *)
Theorem X8_insert_node_at_head fuel s l1 x sz l2 fl :
  rep s (l1 ++ (x, sz, Unlinked) :: l2) fl -> (1 <= fuel)%nat ->
  exists s',
    insert_node fuel x sz s = Ok tt s' /\
    rep s' (l1 ++ (x, sz, Free) :: l2) (fl_ins fl (class sz) x) /\
    segregated_free_lists s' (class sz) = x /\
    load32 (mem s') x = segregated_free_lists s (class sz) /\
    load32 (mem s') (x + 4) = 0 /\
    (forall k, 0 <= k < 20 -> k <> class sz ->
               segregated_free_lists s' k = segregated_free_lists s k).
Proof.
  intros H Hfuel.
  assert (Hx : In (x, sz, Unlinked) (l1 ++ (x, sz, Unlinked) :: l2))
    by (clear; inapp).
  pose proof (rep_block _ _ _ _ _ _ H Hx) as (B1 & B2 & B3 & B4 & B5 & B6 & B7).
  assert (Hk : 0 <= class sz < 20) by (apply class_range; lia).
  destruct (wp_ok _ _ _ (insert_node_spec fuel s l1 x sz l2 fl H Hfuel))
    as ([] & s' & E & R & _).
  exists s'. split; [exact E|]. split; [exact R|].
  pose proof (rep_dll _ _ _ R _ Hk) as Hd. unfold fl_ins in Hd.
  rewrite Z.eqb_refl in Hd. cbn [dll] in Hd.
  destruct Hd as (Eh & _ & Es & Hd).
  split; [exact Eh|]. split; [|split; [exact Es|]].
  - rewrite (dll_hd _ _ _ _ Hd). symmetry. apply (rep_heads _ _ _ _ H Hk).
  - intros k Hk' Hne.
    rewrite (rep_heads _ _ _ _ R Hk'), (rep_heads _ _ _ _ H Hk').
    unfold fl_ins. replace (k =? class sz) with false
      by (symmetry; apply Z.eqb_neq; auto). reflexivity.
Qed.

Lemma X8_witness :
  rep st_unlinked ([] ++ (65552, 64, Unlinked) :: []) (lists_of []) /\
  exists s',
    insert_node 100 65552 64 st_unlinked = Ok tt s' /\
    rep s' ([] ++ (65552, 64, Free) :: [])
        (fl_ins (lists_of []) (class 64) 65552) /\
    segregated_free_lists s' (class 64) = 65552 /\
    load32 (mem s') 65552 = segregated_free_lists st_unlinked (class 64) /\
    load32 (mem s') (65552 + 4) = 0 /\
    (forall k, 0 <= k < 20 -> k <> class 64 ->
               segregated_free_lists s' k = segregated_free_lists st_unlinked k).
Proof.
  assert (R : rep st_unlinked ([] ++ (65552, 64, Unlinked) :: []) (lists_of []))
    by (apply rep_check_sound; vm_compute; reflexivity).
  split; [exact R|].
  apply (X8_insert_node_at_head 100 st_unlinked [] 65552 64 [] _ R). lia.
Defined.

(** X9: [insert_node] followed by [delete_node] of the same block brings
    every list back: the heads of all lists, the blocks on each list and
    the payload bytes of the allocated blocks are as before. *)
Theorem X9_insert_then_delete fuel s l1 x sz l2 fl :
  rep s (l1 ++ (x, sz, Unlinked) :: l2) fl -> (1 <= fuel)%nat ->
  exists s1 s2,
    insert_node fuel x sz s = Ok tt s1 /\
    delete_node x s1 = Ok tt s2 /\
    rep s2 (l1 ++ (x, sz, Unlinked) :: l2) fl /\
    (forall k, 0 <= k < 20 ->
               segregated_free_lists s2 k = segregated_free_lists s k) /\
    keeps_payloads (l1 ++ (x, sz, Unlinked) :: l2) s s2.
Proof.
  intros H Hfuel.
  assert (Hx : In (x, sz, Unlinked) (l1 ++ (x, sz, Unlinked) :: l2))
    by (clear; inapp).
  pose proof (rep_block _ _ _ _ _ _ H Hx) as (B1 & B2 & B3 & B4 & B5 & B6 & B7).
  assert (Hk : 0 <= class sz < 20) by (apply class_range; lia).
  destruct (wp_ok _ _ _ (insert_node_spec fuel s l1 x sz l2 fl H Hfuel))
    as ([] & s1 & E1 & R1 & _ & _ & K1 & _).
  destruct (wp_ok _ _ _ (delete_node_spec s1 l1 x sz l2 _ R1))
    as ([] & s2 & E2 & R2 & _ & _ & K2 & _).
  assert (Efl : forall k, 0 <= k < 20 ->
                          fl k = fl_del (fl_ins fl (class sz) x) (class sz) x k).
  { intros k Hk'. unfold fl_del, fl_ins.
    destruct (Z.eqb_spec k (class sz)) as [->|Hne]; [|reflexivity].
    simpl. destruct (Z.eq_dec x x) as [_|C]; [|contradiction].
    symmetry. apply notin_remove.
    apply (rep_unlinked_notin _ _ _ _ _ _ _ H Hk). }
  assert (R2' : rep s2 (l1 ++ (x, sz, Unlinked) :: l2) fl)
    by (eapply rep_ext; eauto).
  exists s1, s2. split; [exact E1|]. split; [exact E2|]. split; [exact R2'|].
  split.
  - intros k Hk'.
    rewrite (rep_heads _ _ _ _ R2' Hk'), (rep_heads _ _ _ _ H Hk'). reflexivity.
  - intros y sy i Hy Hi. rewrite (K2 y sy i); [apply (K1 y sy i); auto| |auto].
    clear - Hy. inapp.
Qed.

Lemma X9_witness :
  rep st_unlinked ([] ++ (65552, 64, Unlinked) :: []) (lists_of []) /\
  exists s1 s2,
    insert_node 100 65552 64 st_unlinked = Ok tt s1 /\
    delete_node 65552 s1 = Ok tt s2 /\
    rep s2 ([] ++ (65552, 64, Unlinked) :: []) (lists_of []) /\
    (forall k, 0 <= k < 20 ->
               segregated_free_lists s2 k = segregated_free_lists st_unlinked k) /\
    keeps_payloads ([] ++ (65552, 64, Unlinked) :: []) st_unlinked s2.
Proof.
  assert (R : rep st_unlinked ([] ++ (65552, 64, Unlinked) :: []) (lists_of []))
    by (apply rep_check_sound; vm_compute; reflexivity).
  split; [exact R|].
  apply (X9_insert_then_delete 100 st_unlinked [] 65552 64 [] _ R). lia.
Defined.

(** X10: [delete_node] takes a free block off the list of its size class
    and leaves the order of the others; the heads of the other lists and
    the payload bytes of the allocated blocks do not change. *)
Theorem X10_delete_node_unlinks s l1 x sz l2 fl :
  rep s (l1 ++ (x, sz, Free) :: l2) fl ->
  exists s',
    delete_node x s = Ok tt s' /\
    rep s' (l1 ++ (x, sz, Unlinked) :: l2) (fl_del fl (class sz) x) /\
    free_list (S (length (fl (class sz)))) (class sz) s'
    = Ok (remove Z.eq_dec x (fl (class sz))) s' /\
    (forall k, 0 <= k < 20 -> k <> class sz ->
               segregated_free_lists s' k = segregated_free_lists s k) /\
    keeps_payloads (l1 ++ (x, sz, Free) :: l2) s s'.
Proof.
  intros H.
  assert (Hx : In (x, sz, Free) (l1 ++ (x, sz, Free) :: l2)) by (clear; inapp).
  pose proof (rep_block _ _ _ _ _ _ H Hx) as (B1 & B2 & B3 & B4 & B5 & B6 & B7).
  assert (Hk : 0 <= class sz < 20) by (apply class_range; lia).
  destruct (wp_ok _ _ _ (delete_node_spec s l1 x sz l2 fl H))
    as ([] & s' & E & R & _ & _ & K & _).
  exists s'. split; [exact E|]. split; [exact R|]. split; [|split; [|exact K]].
  - unfold free_list, get_list. unfold bind at 1.
    pose proof (rep_dll _ _ _ R _ Hk) as Hd. unfold fl_del in Hd.
    rewrite Z.eqb_refl in Hd.
    eapply list_walk_dll; [exact Hd| |].
    + intros z Hz.
      assert (Hz' : In z (fl_del fl (class sz) x (class sz)))
        by (unfold fl_del; rewrite Z.eqb_refl; exact Hz).
      destruct (rep_fl_block _ _ _ _ _ R Hk Hz') as (szz & Hin & _).
      pose proof (rep_block _ _ _ _ _ _ R Hin). lia.
    + pose proof (remove_length_le Z.eq_dec (fl (class sz)) x). lia.
  - intros k Hk' Hne.
    rewrite (rep_heads _ _ _ _ R Hk'), (rep_heads _ _ _ _ H Hk').
    unfold fl_del. replace (k =? class sz) with false
      by (symmetry; apply Z.eqb_neq; auto). reflexivity.
Qed.

Lemma X10_witness :
  rep st_init ([] ++ (65552, 64, Free) :: [])
      (lists_of [[]; []; []; []; []; []; [65552]]) /\
  exists s',
    delete_node 65552 st_init = Ok tt s' /\
    rep s' ([] ++ (65552, 64, Unlinked) :: [])
        (fl_del (lists_of [[]; []; []; []; []; []; [65552]]) (class 64) 65552) /\
    free_list (S (length (lists_of [[]; []; []; []; []; []; [65552]] (class 64))))
              (class 64) s'
    = Ok (remove Z.eq_dec 65552
            (lists_of [[]; []; []; []; []; []; [65552]] (class 64))) s' /\
    (forall k, 0 <= k < 20 -> k <> class 64 ->
               segregated_free_lists s' k = segregated_free_lists st_init k) /\
    keeps_payloads ([] ++ (65552, 64, Free) :: []) st_init s'.
Proof.
  assert (R : rep st_init ([] ++ (65552, 64, Free) :: [])
                  (lists_of [[]; []; []; []; []; []; [65552]]))
    by (apply rep_check_sound; vm_compute; reflexivity).
  split; [exact R|].
  apply (X10_delete_node_unlinks st_init [] 65552 64 [] _ R).
Defined.

(** X11: [extend_heap size] fails exactly when the arena has no room for
    [ALIGN size] more bytes; it then returns null and changes nothing.
    Otherwise the break moves up by [ALIGN size] and the result is a free
    block, on the list of its size class, that ends at the new break.
    If the last block of the heap was free, the result is that block,
    grown by [ALIGN size] bytes: the two are merged.  If the heap had no
    block or its last block was allocated, the result is a new block of
    [ALIGN size] bytes at the old break, after the blocks there were.
    Allocated blocks and their payloads are as before. *)
Theorem X11_extend_heap fuel s bs fl size :
  rep s bs fl -> Forall linked bs -> (1 <= fuel)%nat ->
  16 <= size <= 2 ^ 31 - 8 ->
  (mem_max_addr s < mem_brk s + ALIGN size ->
   extend_heap fuel size s = Ok NULL s) /\
  (mem_brk s + ALIGN size <= mem_max_addr s ->
   exists r s' bs' fl' rsz,
     extend_heap fuel size s = Ok r s' /\
     rep s' bs' fl' /\ Forall linked bs' /\
     mem_brk s' = mem_brk s + ALIGN size /\ same_heap s s' /\
     In (r, rsz, Free) bs' /\ r <= mem_brk s /\ r + rsz = mem_brk s' /\
     In r (fl' (class rsz)) /\
     ((exists la x xs,
          bs = la ++ [(x, xs, Free)] /\ r = x /\ rsz = xs + ALIGN size /\
          bs' = la ++ [(x, xs + ALIGN size, Free)]) \/
      ((forall la x xs, bs <> la ++ [(x, xs, Free)]) /\
       r = mem_brk s /\ rsz = ALIGN size /\
       bs' = bs ++ [(mem_brk s, ALIGN size, Free)])) /\
     (forall y sy, In (y, sy, Alloc) bs' <-> In (y, sy, Alloc) bs) /\
     keeps_payloads bs s s').
Proof.
  intros H Hl Hfuel Hsize.
  destruct (ALIGN_spec size ltac:(lia)) as [Hm Hr].
  pose proof (extend_heap_spec fuel s bs fl size H Hl Hfuel ltac:(lia) Hm) as Hw.
  destruct (wp_ok _ _ _ Hw) as (r & s' & E & Hpost). split.
  - intros Hfail. destruct Hpost as [(_ & -> & ->)|(Hok & _)]; [exact E|lia].
  - intros Hroom.
    destruct Hpost as [(Hfail & _)|(_ & bs' & fl' & Hcc & R & Hh & Hb & K)];
      [lia|].
    assert (Hl1 : Forall linked (bs ++ [(mem_brk s, ALIGN size, Free)])).
    { apply Forall_app. split; auto. constructor; [|constructor].
      unfold linked. simpl. discriminate. }
    assert (Hs1 : sized (bs ++ [(mem_brk s, ALIGN size, Free)])).
    { apply sized_app. split; [eapply rep_sized; eauto|].
      constructor; [simpl; lia|constructor]. }
    destruct (coalesce_case_facts _ _ _ _ _ _ _ _ Hcc Hl1 Hs1)
      as (la & rsz0 & lb & _ & _ & L & Hal).
    assert (Hshape : exists la' rsz,
               bs' = la' ++ [(r, rsz, Free)] /\ r <= mem_brk s /\
               In r (fl' (class rsz)) /\
               ((exists la x xs,
                    bs = la ++ [(x, xs, Free)] /\ r = x /\
                    rsz = xs + ALIGN size /\
                    bs' = la ++ [(x, xs + ALIGN size, Free)]) \/
                ((forall la x xs, bs <> la ++ [(x, xs, Free)]) /\
                 r = mem_brk s /\ rsz = ALIGN size /\
                 bs' = bs ++ [(mem_brk s, ALIGN size, Free)]))).
    { destruct Hcc as [Hp Hn|n nsz l2' Hp Hn|l1' p psz Hp Hn
                      |l1' p psz n nsz l2' Hp Hn]; try discriminate.
      - exists bs, (ALIGN size). split; [reflexivity|]. split; [lia|].
        split; [unfold fl_ins; rewrite Z.eqb_refl; left; reflexivity|].
        right. split; [|auto].
        intros la0 x xs Ebs. specialize (Hp la0 x xs Free Ebs). discriminate.
      - subst bs.
        assert (Hpin : In (p, psz, Free) (l1' ++ [(p, psz, Free)]))
          by (clear; inapp).
        pose proof (rep_block _ _ _ _ _ _ H Hpin).
        pose proof (rep_contig _ _ _ H) as Hc. apply contig_last in Hc.
        exists l1', (ALIGN size + psz). split; [reflexivity|]. split; [lia|].
        split; [unfold fl_ins; rewrite Z.eqb_refl; left; reflexivity|].
        left. exists l1', p, psz.
        split; [reflexivity|]. split; [reflexivity|]. split; [lia|].
        replace (psz + ALIGN size) with (ALIGN size + psz) by lia.
        reflexivity. }
    destruct Hshape as (la' & rsz & Eshape & Hrle & Hrin & Hmerge).
    exists r, s', bs', fl', rsz.
    split; [exact E|]. split; [exact R|]. split; [exact L|].
    split; [exact Hb|]. split; [exact Hh|].
    split; [rewrite Eshape; clear; inapp|]. split; [exact Hrle|].
    split; [|split; [exact Hrin|split; [exact Hmerge|split; [|exact K]]]].
    + pose proof (rep_contig _ _ _ R) as Hc. rewrite Eshape in Hc.
      apply contig_last in Hc. exact Hc.
    + intros y sy. rewrite Hal. clear. inapp.
Qed.

Lemma X11_witness :
  rep st_init ([] ++ (65552, 64, Free) :: [])
      (lists_of [[]; []; []; []; []; []; [65552]]) /\
  (mem_max_addr st_init < mem_brk st_init + ALIGN 4096 ->
   extend_heap 100 4096 st_init = Ok NULL st_init) /\
  (mem_brk st_init + ALIGN 4096 <= mem_max_addr st_init ->
   exists r s' bs' fl' rsz,
     extend_heap 100 4096 st_init = Ok r s' /\
     rep s' bs' fl' /\ Forall linked bs' /\
     mem_brk s' = mem_brk st_init + ALIGN 4096 /\ same_heap st_init s' /\
     In (r, rsz, Free) bs' /\ r <= mem_brk st_init /\ r + rsz = mem_brk s' /\
     In r (fl' (class rsz)) /\
     ((exists la x xs,
          [] ++ (65552, 64, Free) :: [] = la ++ [(x, xs, Free)] /\
          r = x /\ rsz = xs + ALIGN 4096 /\
          bs' = la ++ [(x, xs + ALIGN 4096, Free)]) \/
      ((forall la x xs,
           [] ++ (65552, 64, Free) :: [] <> la ++ [(x, xs, Free)]) /\
       r = mem_brk st_init /\ rsz = ALIGN 4096 /\
       bs' = ([] ++ (65552, 64, Free) :: [])
               ++ [(mem_brk st_init, ALIGN 4096, Free)])) /\
     (forall y sy, In (y, sy, Alloc) bs' <->
                   In (y, sy, Alloc) ([] ++ (65552, 64, Free) :: [])) /\
     keeps_payloads ([] ++ (65552, 64, Free) :: []) st_init s').
Proof.
  assert (R : rep st_init ([] ++ (65552, 64, Free) :: [])
                  (lists_of [[]; []; []; []; []; []; [65552]]))
    by (apply rep_check_sound; vm_compute; reflexivity).
  split; [exact R|].
  apply (X11_extend_heap 100 st_init _ _ 4096 R);
    [apply linkedb_sound; vm_compute; reflexivity|lia|lia].
Defined.

(** ** Further properties: the public functions *)
(** X12: on an arena on which nothing is laid out, [mm_init] returns -1
    when the arena has less than 80 bytes; otherwise it returns 0 and
    leaves a well-formed heap of 80 bytes: prologue, one free block of 64
    bytes at the head of list 6, epilogue. *)
Theorem X12_mm_init fuel s :
  fresh s -> (1 <= fuel)%nat ->
  exists r s',
    mm_init fuel s = Ok r s' /\
    (mem_max_addr s < mem_heap s + 80 -> r = -1) /\
    (mem_heap s + 80 <= mem_max_addr s ->
     r = 0 /\ mem_brk s' = mem_heap s + 80 /\ same_heap s s' /\
     rep s' [(mem_heap s + 16, 64, Free)] (init_fl (mem_heap s)) /\
     heap_walk 2 (mem_heap s + 16) s' = Ok [(mem_heap s + 16, 64, 0)] s' /\
     segregated_free_lists s' 6 = mem_heap s + 16).
Proof.
  intros (Hb & Hlo & Hmax & Hspan) Hfuel.
  destruct (wp_ok _ _ _ (mm_init_spec fuel s Hb Hlo Hmax Hspan Hfuel))
    as (r & s' & E & Hpost).
  exists r, s'. split; [exact E|]. split.
  - intros Hsmall. destruct Hpost as [(-> & _)|(_ & Hbig & _)]; [reflexivity|lia].
  - intros Hbig.
    destruct Hpost as [(_ & Hsmall)|(-> & _ & R & Hh & Hbrk)]; [lia|].
    split; [reflexivity|]. split; [exact Hbrk|]. split; [exact Hh|].
    split; [exact R|]. destruct Hh as [Hh _]. split.
    + pose proof (rep_contig _ _ _ R) as Hc. rewrite Hh in Hc.
      apply (heap_walk_rep _ _ _ R [(mem_heap s + 16, 64, Free)]
               (mem_heap s + 16) 2).
      * apply incl_refl.
      * exact Hc.
      * lia.
      * simpl. lia.
    + rewrite (rep_heads _ _ _ 6 R ltac:(lia)). reflexivity.
Qed.

Lemma X12_witness :
  fresh heap0 /\
  exists r s',
    mm_init 100 heap0 = Ok r s' /\
    (mem_max_addr heap0 < mem_heap heap0 + 80 -> r = -1) /\
    (mem_heap heap0 + 80 <= mem_max_addr heap0 ->
     r = 0 /\ mem_brk s' = mem_heap heap0 + 80 /\ same_heap heap0 s' /\
     rep s' [(mem_heap heap0 + 16, 64, Free)] (init_fl (mem_heap heap0)) /\
     heap_walk 2 (mem_heap heap0 + 16) s'
     = Ok [(mem_heap heap0 + 16, 64, 0)] s' /\
     segregated_free_lists s' 6 = mem_heap heap0 + 16).
Proof.
  assert (F : fresh heap0)
    by (unfold fresh; vm_compute; repeat split; reflexivity).
  split; [exact F|].
  apply (X12_mm_init 100 heap0 F). lia.
Defined.

(** X13: [mm_free p] on an allocated block of a well-formed heap keeps
    the heap well formed and of the same extent; the freed bytes lie in a
    free block that is at the head of the list of its size class; the
    other allocated blocks are the same blocks with the same payload
    bytes. *)
Theorem X13_mm_free fuel s l1 p sz l2 fl :
  rep s (l1 ++ (p, sz, Alloc) :: l2) fl ->
  Forall linked (l1 ++ (p, sz, Alloc) :: l2) ->
  (1 <= fuel)%nat ->
  exists s' bs' fl' r rsz,
    mm_free fuel p s = Ok tt s' /\
    rep s' bs' fl' /\ Forall linked bs' /\
    mem_brk s' = mem_brk s /\ same_heap s s' /\
    In (r, rsz, Free) bs' /\ r <= p /\ p + sz <= r + rsz /\
    segregated_free_lists s' (class rsz) = r /\
    (forall y sy, In (y, sy, Alloc) bs' <-> In (y, sy, Alloc) (l1 ++ l2)) /\
    (forall y sy i, In (y, sy, Alloc) (l1 ++ l2) -> y <= i < y + sy - 8 ->
                    mem s' i = mem s i).
Proof.
  intros H Hl Hfuel.
  assert (Hp : In (p, sz, Alloc) (l1 ++ (p, sz, Alloc) :: l2)) by (clear; inapp).
  pose proof (rep_block _ _ _ _ _ _ H Hp) as (B1 & B2 & B3 & B4 & B5 & B6 & B7).
  destruct (wp_ok _ _ _ (mm_free_spec fuel s l1 p sz l2 fl H Hl Hfuel))
    as ([] & s' & E & r & bs' & fl' & Hcc & R & L & Hh & Hb & K & Hal & _).
  assert (Hshape : exists rsz,
             In (r, rsz, Free) bs' /\ r <= p /\ p + sz <= r + rsz /\
             hd 0 (fl' (class rsz)) = r /\ 16 <= rsz).
  { pose proof (rep_contig _ _ _ H) as Hc.
    destruct Hcc as [Hpa Hn|n nsz l2' Hpa Hn|l1' q qsz Hpa Hn
                    |l1' q qsz n nsz l2' Hpa Hn].
    - exists sz. split; [clear; inapp|]. split; [lia|]. split; [lia|].
      split; [|lia]. unfold fl_ins. rewrite Z.eqb_refl. reflexivity.
    - subst l2.
      assert (Hn : In (n, nsz, Free) (l1 ++ (p, sz, Alloc) :: (n, nsz, Free) :: l2'))
        by (clear; inapp).
      pose proof (rep_block _ _ _ _ _ _ H Hn).
      exists (sz + nsz). split; [clear; inapp|]. split; [lia|]. split; [lia|].
      split; [|lia]. unfold fl_ins. rewrite Z.eqb_refl. reflexivity.
    - subst l1.
      assert (Hq : In (q, qsz, Free) ((l1' ++ [(q, qsz, Free)]) ++ (p, sz, Alloc) :: l2))
        by (clear; inapp).
      pose proof (rep_block _ _ _ _ _ _ H Hq).
      apply contig_mid in Hc. destruct Hc as [Hc _]. apply contig_last in Hc.
      exists (sz + qsz). split; [clear; inapp|]. split; [lia|]. split; [lia|].
      split; [|lia]. unfold fl_ins. rewrite Z.eqb_refl. reflexivity.
    - subst l1 l2.
      assert (Hq : In (q, qsz, Free)
                      ((l1' ++ [(q, qsz, Free)]) ++ (p, sz, Alloc) :: (n, nsz, Free) :: l2'))
        by (clear; inapp).
      assert (Hn : In (n, nsz, Free)
                      ((l1' ++ [(q, qsz, Free)]) ++ (p, sz, Alloc) :: (n, nsz, Free) :: l2'))
        by (clear; inapp).
      pose proof (rep_block _ _ _ _ _ _ H Hq).
      pose proof (rep_block _ _ _ _ _ _ H Hn).
      apply contig_mid in Hc. destruct Hc as [Hc _]. apply contig_last in Hc.
      exists (sz + (qsz + nsz)). split; [clear; inapp|]. split; [lia|].
      split; [lia|]. split; [|lia].
      unfold fl_ins. rewrite Z.eqb_refl. reflexivity. }
  destruct Hshape as (rsz & Hin & Hr1 & Hr2 & Hhd & Hrsz).
  exists s', bs', fl', r, rsz.
  split; [exact E|]. split; [exact R|]. split; [exact L|].
  split; [exact Hb|]. split; [exact Hh|]. split; [exact Hin|].
  split; [exact Hr1|]. split; [exact Hr2|]. split; [|split; [exact Hal|exact K]].
  rewrite (rep_heads _ _ _ _ R (class_range rsz ltac:(lia))). exact Hhd.
Qed.

Lemma X13_witness :
  rep st_3 ([(65552, 24, Alloc)] ++ (65576, 16, Alloc) :: [(65592, 24, Alloc)])
      (lists_of []) /\
  exists s' bs' fl' r rsz,
    mm_free 100 65576 st_3 = Ok tt s' /\
    rep s' bs' fl' /\ Forall linked bs' /\
    mem_brk s' = mem_brk st_3 /\ same_heap st_3 s' /\
    In (r, rsz, Free) bs' /\ r <= 65576 /\ 65576 + 16 <= r + rsz /\
    segregated_free_lists s' (class rsz) = r /\
    (forall y sy, In (y, sy, Alloc) bs' <->
                  In (y, sy, Alloc) ([(65552, 24, Alloc)] ++ [(65592, 24, Alloc)])) /\
    (forall y sy i,
        In (y, sy, Alloc) ([(65552, 24, Alloc)] ++ [(65592, 24, Alloc)]) ->
        y <= i < y + sy - 8 -> mem s' i = mem st_3 i).
Proof.
  assert (R : rep st_3 ([(65552, 24, Alloc)] ++ (65576, 16, Alloc)
                          :: [(65592, 24, Alloc)]) (lists_of []))
    by (apply rep_check_sound; vm_compute; reflexivity).
  split; [exact R|].
  apply (X13_mm_free 100 st_3 _ _ _ _ _ R);
    [apply linkedb_sound; vm_compute; reflexivity|lia].
Defined.





(** X16: when some free block has the adjusted size, [mm_malloc] does not
    extend the heap, and the block it returns lies inside a block that was
    free and large enough.  When none has and the arena has room, the break
    moves up by exactly [max (adjusted size) 4096] bytes. *)
Theorem X16_mm_malloc_reuses_before_extending fuel s bs fl size :
  rep s bs fl -> Forall linked bs -> enough fuel s ->
  0 < size <= 2 ^ 31 - 24 ->
  exists r s',
    mm_malloc fuel size s = Ok r s' /\
    ((exists x sz, In (x, sz, Free) bs /\ adjust_size size <= sz) ->
     mem_brk s' = mem_brk s /\
     exists x sz, In (x, sz, Free) bs /\ adjust_size size <= sz /\
                  x <= r /\ r + adjust_size size <= x + sz) /\
    ((forall x sz, In (x, sz, Free) bs -> sz < adjust_size size) ->
     mem_brk s + Z.max (adjust_size size) 4096 <= mem_max_addr s ->
     r <> 0 /\ mem_brk s' = mem_brk s + Z.max (adjust_size size) 4096).
Proof.
  intros H Hl He Hsize.
  destruct (wp_ok _ _ _ (mm_malloc_full fuel s bs fl size H Hl He Hsize))
    as (r & s' & E & [(-> & -> & Hnone & Hroom)
                     |(bs' & fl' & rsz & R & L & Hin & Hrsz &
                       Hal & Hnew & Hh & K & Hbrk & _)]).
  - exists 0, s. split; [exact E|]. split.
    + intros (x & sz & Hx & Hsz). specialize (Hnone x sz Hx). lia.
    + intros _ Hr. lia.
  - exists r, s'. split; [exact E|].
    pose proof (rep_block _ _ _ _ _ _ R Hin) as (B1 & _).
    destruct Hh as [Hh1 Hh2].
    pose proof (rep_lo _ _ _ H) as Hlo.
    split.
    + intros (x & sz & Hx & Hsz).
      destruct Hbrk as [(Hb & x' & sz' & Hx' & Hsz' & Hr1 & Hr2)|(_ & _ & Hnone)].
      * split; [exact Hb|]. exists x', sz'. repeat split; auto; lia.
      * specialize (Hnone x sz Hx). lia.
    + intros Hnone Hroom. split; [lia|].
      destruct Hbrk as [(_ & x & sz & Hx & Hsz & _)|(Hb & _)]; [|exact Hb].
      specialize (Hnone x sz Hx). lia.
Qed.

Lemma X16_witness :
  rep st_init ([] ++ (65552, 64, Free) :: [])
      (lists_of [[]; []; []; []; []; []; [65552]]) /\
  exists r s',
    mm_malloc 100 16 st_init = Ok r s' /\
    ((exists x sz, In (x, sz, Free) ([] ++ (65552, 64, Free) :: []) /\
                   adjust_size 16 <= sz) ->
     mem_brk s' = mem_brk st_init /\
     exists x sz, In (x, sz, Free) ([] ++ (65552, 64, Free) :: []) /\
                  adjust_size 16 <= sz /\
                  x <= r /\ r + adjust_size 16 <= x + sz) /\
    ((forall x sz, In (x, sz, Free) ([] ++ (65552, 64, Free) :: []) ->
                   sz < adjust_size 16) ->
     mem_brk st_init + Z.max (adjust_size 16) 4096 <= mem_max_addr st_init ->
     r <> 0 /\ mem_brk s' = mem_brk st_init + Z.max (adjust_size 16) 4096).
Proof.
  assert (R : rep st_init ([] ++ (65552, 64, Free) :: [])
                  (lists_of [[]; []; []; []; []; []; [65552]]))
    by (apply rep_check_sound; vm_compute; reflexivity).
  split; [exact R|].
  apply (X16_mm_malloc_reuses_before_extending 100 st_init _ _ 16 R);
    [apply linkedb_sound; vm_compute; reflexivity
    |apply Z.leb_le; vm_compute; reflexivity
    |lia].
Defined.

(** ** Further properties: coalescing *)
Lemma block_view_inj bs : forall bs',
  Forall linked bs -> Forall linked bs' ->
  map block_view bs = map block_view bs' -> bs = bs'.
Proof.
  induction bs as [|[[x sz] st] bs IH]; intros [|[[x' sz'] st'] bs'] L L' E;
    try discriminate; auto.
  inversion L as [|? ? Hl Lr]; inversion L' as [|? ? Hl' Lr']; subst.
  cbn [map] in E. unfold block_view at 1 3 in E. cbn [fst snd] in E.
  inversion E as [[Ex Es Ea Er]]. f_equal; [|apply IH; auto].
  unfold linked in Hl, Hl'. cbn [snd] in Hl, Hl'.
  destruct st, st'; simpl in Ea; congruence.
Qed.

Lemma heap_walk_all s bs fl :
  rep s bs fl ->
  heap_walk (S (length bs)) (mem_heap s + 16) s = Ok (map block_view bs) s.
Proof.
  intros R. eapply heap_walk_rep; eauto.
  - apply incl_refl.
  - apply (rep_contig _ _ _ R).
  - lia.
Qed.

Lemma heap_walk_mono n : forall p s w s',
  heap_walk n p s = Ok w s' -> heap_walk (S n) p s = Ok w s'.
Proof.
  induction n as [|n IH]; intros p s w s' E; [discriminate|].
  remember (S n) as m. cbn [heap_walk]. subst m.
  cbn [heap_walk] in E. unfold bind in *.
  destruct (GET_SIZE (HDRP p) s) as [sz s1| |]; try discriminate.
  destruct (GET_ALLOC (HDRP p) s1) as [a s2| |]; try discriminate.
  destruct (sz =? 0); [exact E|].
  destruct (NEXT_BLKP p s2) as [n' s3| |]; try discriminate.
  destruct (heap_walk n n' s3) as [r s4| |] eqn:Er; try discriminate.
  rewrite (IH _ _ _ _ Er). exact E.
Qed.

Lemma heap_walk_le n m p s w s' :
  (n <= m)%nat -> heap_walk n p s = Ok w s' -> heap_walk m p s = Ok w s'.
Proof.
  induction 1 as [|m _ IH]; auto. intros E. apply heap_walk_mono, IH, E.
Qed.

(** A state has one view only: the blocks are those that the heap walk
    reads. *)
Lemma rep_unique s bs fl bs' fl' :
  rep s bs fl -> rep s bs' fl' -> Forall linked bs -> Forall linked bs' ->
  bs = bs'.
Proof.
  intros R R' L L'. apply block_view_inj; auto.
  pose proof (heap_walk_all _ _ _ R) as E.
  pose proof (heap_walk_all _ _ _ R') as E'.
  apply (heap_walk_le _ (S (length bs + length bs'))) in E; [|lia].
  apply (heap_walk_le _ (S (length bs + length bs'))) in E'; [|lia].
  congruence.
Qed.

Lemma coalesced_view bs : forall p,
  p <> Unlinked -> Forall linked bs -> coalesced_from p bs ->
  no_adjacent_free (abit p) (map block_view bs).
Proof.
  induction bs as [|[[x sz] st] bs IH]; intros p Hp L Hc; [exact I|].
  inversion L as [|? ? Hl Lr]; subst. unfold linked in Hl. cbn [snd] in Hl.
  cbn [coalesced_from] in Hc. destruct Hc as [Hn Hc].
  cbn [map no_adjacent_free block_view fst snd]. split; [|apply IH; auto].
  intros [E1 E2]. apply Hn.
  destruct p, st; simpl in E1, E2; try congruence; auto.
Qed.

Lemma free_coalesced fuel s l1 p sz l2 fl s' :
  rep s (l1 ++ (p, sz, Alloc) :: l2) fl ->
  Forall linked (l1 ++ (p, sz, Alloc) :: l2) ->
  (1 <= fuel)%nat ->
  coalesced (l1 ++ (p, sz, Alloc) :: l2) ->
  mm_free fuel p s = Ok tt s' ->
  exists bs' fl', rep s' bs' fl' /\ Forall linked bs' /\ coalesced bs'.
Proof.
  intros R L Hfuel Hc E.
  pose proof (wp_inv _ _ _ _ _ (mm_free_spec fuel s l1 p sz l2 fl R L Hfuel) E)
    as (r & bs' & fl' & Hcc & R' & L' & _).
  exists bs', fl'. split; [exact R'|]. split; [exact L'|].
  eapply coalesce_case_coalesced; eauto.
Qed.

Lemma exec_coalesced fuel o s r s' bs fl :
  rep s bs fl -> Forall linked bs -> coalesced bs ->
  no_realloc o -> legal s o -> enough fuel s ->
  exec fuel o s = Ok r s' ->
  exists bs' fl', rep s' bs' fl' /\ Forall linked bs' /\ coalesced bs'.
Proof.
  intros R L Hc Hno Hlegal He Hex.
  destruct o as [n|p|p n]; simpl in *; [| |contradiction].
  - destruct (Z.eq_dec n 0) as [->|Hn].
    + unfold mm_malloc in Hex. simpl in Hex. inversion Hex; subst.
      exists bs, fl. auto.
    + pose proof (mm_malloc_full fuel s bs fl n R L He ltac:(lia)) as Hm.
      apply (wp_inv _ _ _ _ _ Hm) in Hex.
      destruct Hex as [(_ & -> & _)
                      |(bs' & fl' & rsz & R' & L' & _ & _ & _ & _ & _ & _ & _ & Hc')].
      * exists bs, fl. auto.
      * exists bs', fl'. auto.
  - destruct Hlegal as (l1 & sz & l2 & fl0 & R0 & L0).
    pose proof (rep_unique _ _ _ _ _ R R0 L L0) as Eb.
    unfold bind in Hex. destruct (mm_free fuel p s) as [[] s1| |] eqn:E;
      try discriminate.
    injection Hex as _ Es. subst s1 bs.
    exact (free_coalesced fuel s l1 p sz l2 fl0 s' R0 L0
             (enough_fuel _ _ _ _ R0 He) Hc E).
Qed.

Lemma reach_mf_coalesced s0 s :
  reach_mf s0 s ->
  exists bs fl, rep s bs fl /\ Forall linked bs /\ coalesced bs.
Proof.
  induction 1 as [fuel s (Hb & Hlo & Hmax & Hspan) Hfuel Hinit
                 |fuel o r s s' _ IH Hno Hlegal He Hex].
  - pose proof (mm_init_spec fuel s0 Hb Hlo Hmax Hspan Hfuel) as Hi.
    apply (wp_inv _ _ _ _ _ Hi) in Hinit.
    destruct Hinit as [(E & _)|(_ & _ & R & _)]; [discriminate|].
    exists [(mem_heap s0 + 16, 64, Free)], (init_fl (mem_heap s0)).
    split; [exact R|]. split.
    + constructor; [|constructor]. discriminate.
    + unfold coalesced. simpl. split; [|exact I]. intros [C _]. discriminate.
  - destruct IH as (bs & fl & R & L & Hc). eapply exec_coalesced; eauto.
Qed.

Lemma reach_mf_st_4 : reach_mf heap0 st_4.
Proof.
  assert (H0 : reach_mf heap0 st_init).
  { apply (reach_mf_init heap0 100).
    - unfold fresh. vm_compute. repeat split; reflexivity.
    - lia.
    - apply (result_after (mm_init 100) heap0 0). vm_compute. reflexivity. }
  assert (H1 : reach_mf heap0 st_1).
  { apply (reach_mf_step heap0 100 (Malloc 16) 65552 st_init);
      [exact H0|exact I| | |].
    - simpl. lia.
    - apply Z.leb_le. vm_compute. reflexivity.
    - apply result_after. vm_compute. reflexivity. }
  assert (H2 : reach_mf heap0 st_2).
  { apply (reach_mf_step heap0 100 (Malloc 8) 65576 st_1);
      [exact H1|exact I| | |].
    - simpl. lia.
    - apply Z.leb_le. vm_compute. reflexivity.
    - apply result_after. vm_compute. reflexivity. }
  assert (H3 : reach_mf heap0 st_3).
  { apply (reach_mf_step heap0 100 (Malloc 16) 65592 st_2);
      [exact H2|exact I| | |].
    - simpl. lia.
    - apply Z.leb_le. vm_compute. reflexivity.
    - apply result_after. vm_compute. reflexivity. }
  apply (reach_mf_step heap0 100 (Release 65576) 0 st_3);
    [exact H3|exact I| | |].
  - exists [(65552, 24, Alloc)], 16, [(65592, 24, Alloc)], (lists_of []).
    split; [apply rep_check_sound|apply linkedb_sound];
      vm_compute; reflexivity.
  - apply Z.leb_le. vm_compute. reflexivity.
  - apply result_after. vm_compute. reflexivity.
Qed.

(** X17: after [mm_init] and any sequence of legal [mm_malloc] and
    [mm_free] calls, the walk over the heap never reads two free blocks
    one after the other: free neighbours are always merged. *)
Theorem X17_no_adjacent_free_blocks s0 s fuel :
  reach_mf s0 s -> enough fuel s ->
  exists w,
    heap_walk fuel (mem_heap s + 16) s = Ok w s /\
    no_adjacent_free 1 w.
Proof.
  intros Hr He. destruct (reach_mf_coalesced _ _ Hr) as (bs & fl & R & L & Hc).
  exists (map block_view bs). split.
  - eapply heap_walk_rep; eauto.
    + apply incl_refl.
    + apply (rep_contig _ _ _ R).
    + lia.
    + pose proof (contig_len _ _ _ (rep_sized _ _ _ R) (rep_contig _ _ _ R)).
      unfold enough in He. lia.
  - apply (coalesced_view bs Alloc); auto. discriminate.
Qed.

Lemma X17_witness :
  reach_mf heap0 st_4 /\
  exists w,
    heap_walk 100 (mem_heap st_4 + 16) st_4 = Ok w st_4 /\
    no_adjacent_free 1 w.
Proof.
  split; [exact reach_mf_st_4|].
  apply (X17_no_adjacent_free_blocks heap0 st_4 100 reach_mf_st_4).
  apply Z.leb_le. vm_compute. reflexivity.
Defined.











(** ** Further properties: the reallocation tag *)
(** X23: take [mm_init] on a fresh arena and then any sequence of calls
    that return, each of them one of those [legal] admits: [mm_malloc] of
    at most [2 ^ 31 - 24] bytes, [mm_free] of an allocated payload,
    [mm_realloc] of an allocated payload to at most [2 ^ 31 - 160] bytes
    other than a call that has to grow its block in place across a free
    successor that is neither the last block nor large enough.  After
    it, the heap is well formed and the RA bit of every header word is
    0: the RA test of the free-list search in [mm_malloc] reads 0 on
    every block of every list, and the RA test of [coalesce] reads 0 on
    the block before every block; on these runs neither test changes
    what an operation does. *)
Theorem X23_ra_tests_read_0_on_safe_runs s0 s :
  reach s0 s ->
  ra_clear s /\
  exists bs fl,
    rep s bs fl /\ Forall linked bs /\
    (forall k p, 0 <= k < 20 -> In p (fl k) -> GET_TAG (HDRP p) s = Ok 0 s) /\
    (forall l1 x sz st l2,
        bs = l1 ++ (x, sz, st) :: l2 ->
        (pb <- PREV_BLKP x ;; GET_TAG (HDRP pb)) s = Ok 0 s).
Proof.
  intros Hr. destruct (reach_wf _ _ Hr) as (bs & fl & R & L).
  split; [eapply rep_ra_clear; eauto|].
  exists bs, fl. split; [exact R|]. split; [exact L|]. split.
  - intros k p Hk Hp. eapply skip_test_reads_0; eauto.
  - intros l1 x sz st l2 ->. eapply veto_test_reads_0; eauto.
Qed.

Lemma X23_witness :
  reach heap0 st_5 /\
  ra_clear st_5 /\
  exists bs fl,
    rep st_5 bs fl /\ Forall linked bs /\
    (forall k p, 0 <= k < 20 -> In p (fl k) ->
                 GET_TAG (HDRP p) st_5 = Ok 0 st_5) /\
    (forall l1 x sz st l2,
        bs = l1 ++ (x, sz, st) :: l2 ->
        (pb <- PREV_BLKP x ;; GET_TAG (HDRP pb)) st_5 = Ok 0 st_5).
Proof.
  assert (H0 : reach heap0 st_init).
  { apply (reach_init heap0 100).
    - unfold fresh. vm_compute. repeat split; reflexivity.
    - lia.
    - apply (result_after (mm_init 100) heap0 0). vm_compute. reflexivity. }
  assert (H1 : reach heap0 st_1).
  { apply (reach_step heap0 100 (Malloc 16) 65552 st_init); [exact H0| | |].
    - simpl. lia.
    - apply Z.leb_le. vm_compute. reflexivity.
    - apply result_after. vm_compute. reflexivity. }
  assert (H2 : reach heap0 st_2).
  { apply (reach_step heap0 100 (Malloc 8) 65576 st_1); [exact H1| | |].
    - simpl. lia.
    - apply Z.leb_le. vm_compute. reflexivity.
    - apply result_after. vm_compute. reflexivity. }
  assert (H3 : reach heap0 st_3).
  { apply (reach_step heap0 100 (Malloc 16) 65592 st_2); [exact H2| | |].
    - simpl. lia.
    - apply Z.leb_le. vm_compute. reflexivity.
    - apply result_after. vm_compute. reflexivity. }
  assert (H4 : reach heap0 st_4).
  { apply (reach_step heap0 100 (Release 65576) 0 st_3); [exact H3| | |].
    - exists [(65552, 24, Alloc)], 16, [(65592, 24, Alloc)], (lists_of []).
      split; [apply rep_check_sound|apply linkedb_sound];
        vm_compute; reflexivity.
    - apply Z.leb_le. vm_compute. reflexivity.
    - apply result_after. vm_compute. reflexivity. }
  assert (H5 : reach heap0 st_5).
  { apply (reach_step heap0 100 (Realloc 65592 100) 65592 st_4); [exact H4| | |].
    - split; [lia|].
      exists [(65552, 24, Alloc); (65576, 16, Free)], 24, [],
             (lists_of [[]; []; []; []; [65576]]).
      split; [apply rep_check_sound; vm_compute; reflexivity|].
      split; [apply linkedb_sound; vm_compute; reflexivity|].
      right. left. reflexivity.
    - apply Z.leb_le. vm_compute. reflexivity.
    - apply result_after. vm_compute. reflexivity. }
  split; [exact H5|].
  apply (X23_ra_tests_read_0_on_safe_runs heap0 st_5 H5).
Defined.
